(** * Lox: the token dump of clox ([src/compiler.c]) and the grammar of the
      language *)

From Stdlib Require Import ZArith List String Ascii Bool Lia.
From Stdlib Require Import DecimalString Permutation.
From Stdlib Require DecimalPos.
Import ListNotations.

Local Set Warnings "-register-all".

Local Open Scope string_scope.
Local Open Scope Z_scope.

(** * Text *)

Module Text.

(** The longest prefix of characters satisfying [p], and what follows. *)
Fixpoint span (p : ascii -> bool) (s : string) : string * string :=
  match s with
  | EmptyString => (EmptyString, EmptyString)
  | String c s' =>
      if p c then let (taken, more) := span p s' in (String c taken, more)
      else (EmptyString, s)
  end.

Fixpoint all_chars (p : ascii -> bool) (s : string) : bool :=
  match s with
  | EmptyString => true
  | String c s' => p c && all_chars p s'
  end.

Fixpoint count_newlines (s : string) : Z :=
  match s with
  | EmptyString => 0
  | String c s' => (if (c =? "010")%char then 1 else 0) + count_newlines s'
  end.

End Text.

(** * clox: [compile] *)

Module Clox.

(** The [Token] struct of [scanner.h], with the four fields [compile] reads.
    [start] is a [const char*] into text that has no terminator at the end of
    the lexeme: it is modelled by the characters found at that address up to
    the terminating NUL of the buffer it points into. *)
Record Token : Type := mkToken
  { type : Z;
    start : string;
    length : Z;
    line : Z }.

(** [printf("%<w>d", n)]: decimal, right-justified in a field of [w]
    characters, never truncated. *)
Definition dec (n : Z) : string := NilZero.string_of_int (Z.to_int n).

Fixpoint spaces (n : nat) : string :=
  match n with
  | O => ""
  | S n' => String " " (spaces n')
  end.

Definition fmt_d (w : nat) (n : Z) : string :=
  let s := dec n in spaces (w - String.length s) ++ s.

(** [printf("%.*s", p, s)]: at most [p] characters of [s]; a negative
    precision counts as no precision at all. *)
Definition fmt_prec_s (p : Z) (s : string) : string :=
  if p <? 0 then s else substring 0 (Z.to_nat p) s.

(** The first [printf] of the loop body together with the update of [line]. *)
Definition print_line_prefix (token : Token) (line_ : Z) : string * Z :=
  if negb (line token =? line_)
  then (fmt_d 4 (line token) ++ " ", line token)
  else ("   | ", line_).

(** [printf("%2d '%.*s'\n", token.type, token.length, token.start)] *)
Definition print_token_body (token : Token) : string :=
  fmt_d 2 (type token) ++ " '" ++ fmt_prec_s (length token) (start token)
    ++ "'" ++ String "010" "".

(** [scanner.h]: what [compile] uses of the scanner.  [scanner.c] is a
    separate translation unit, so its state, [initScanner] and [scanToken]
    are taken as given; the state is threaded explicitly where the C code
    keeps it in a global.  [TOKEN_EOF] is the enumerator of [TokenType]. *)
Class ScannerApi : Type :=
  { Scanner : Type;
    initScanner : string -> Scanner;
    scanToken : Scanner -> Token * Scanner;
    TOKEN_EOF : Z }.

Section Compile.

Context `{api : ScannerApi}.

(** The [for (;;)] loop of [compile]; the result is what was written to
    standard output, [None] when [fuel] iterations did not reach the
    [break]. *)
Fixpoint compile_loop (fuel : nat) (sc : Scanner) (line_ : Z) : option string :=
  match fuel with
  | O => None
  | S fuel' =>
      let (token, sc') := scanToken sc in
      let (pre, line') := print_line_prefix token line_ in
      let out := pre ++ print_token_body token in
      if type token =? TOKEN_EOF then Some out
      else match compile_loop fuel' sc' line' with
           | Some rest => Some (out ++ rest)
           | None => None
           end
  end.

Definition compile (fuel : nat) (source : string) : option string :=
  compile_loop fuel (initScanner source) (-1).

(** The scanner state after [n] calls of [scanToken], and the token the
    next call returns. *)
Fixpoint scanner_after (n : nat) (sc : Scanner) : Scanner :=
  match n with
  | O => sc
  | S n' => scanner_after n' (snd (scanToken sc))
  end.

Definition nth_token (sc : Scanner) (n : nat) : Token :=
  fst (scanToken (scanner_after n sc)).

(** The tokens number [0] to [n] of the stream. *)
Fixpoint take_tokens (n : nat) (sc : Scanner) : list Token :=
  let (token, sc') := scanToken sc in
  match n with
  | O => [token]
  | S n' => token :: take_tokens n' sc'
  end.

(** [first_eof_at sc n]: the call number [n] is the first that returns a
    token of type [TOKEN_EOF]. *)
Definition first_eof_at (sc : Scanner) (n : nat) : Prop :=
  type (nth_token sc n) = TOKEN_EOF /\
  forall i, (i < n)%nat -> type (nth_token sc i) <> TOKEN_EOF.

(** The expected listing, written from the description of the output: one
    line per token, the line number shown when it differs from the line of
    the token printed before, and for the first token ([prev = None]). *)
Definition listing_prefix (prev : option Z) (token : Token) : string :=
  match prev with
  | Some l => if line token =? l then "   | " else fmt_d 4 (line token) ++ " "
  | None => fmt_d 4 (line token) ++ " "
  end.

Fixpoint listing (prev : option Z) (tokens : list Token) : string :=
  match tokens with
  | [] => ""
  | token :: rest =>
      listing_prefix prev token ++ print_token_body token
        ++ listing (Some (line token)) rest
  end.

End Compile.

End Clox.

(** * The listing: line numbers and columns *)

Module Lines.
Import Text Clox.

(** The line numbers of a token stream never go back. *)
Fixpoint nondecreasing (l : list Z) : bool :=
  match l with
  | a :: (b :: _) as rest => (a <=? b) && nondecreasing rest
  | _ => true
  end.

(** The characters of a decimal number as [printf] writes it. *)
Definition decimal_char (c : ascii) : bool :=
  match c with
  | "0" | "1" | "2" | "3" | "4" | "5" | "6" | "7" | "8" | "9" | "-" => true
  | _ => false
  end%char.

(** What [compile] prints between the quotes for a token. *)
Definition lexeme (token : Token) : string :=
  fmt_prec_s (length token) (start token).

(** The newlines in the lexemes printed for a list of tokens. *)
Fixpoint lexeme_newlines (tokens : list Token) : Z :=
  match tokens with
  | [] => 0
  | token :: rest => count_newlines (lexeme token) + lexeme_newlines rest
  end.

End Lines.

(** * The listing, record by record *)

(** The listing as the description of the output has it, written without
    the functions of [Clox]: the decimal notation digit by digit, the
    padding, the lexeme and the record of a token are defined here on their
    own, and [compile] is compared with them. *)

Module Listing.
Import Text Clox.

(** The decimal digits of a number from 0 on, the most significant first,
    in front of [acc]: the last digit is [n mod 10], the digits before it
    are those of [n / 10] unless that is 0. *)
Fixpoint digits (fuel : nat) (n : Z) (acc : string) : string :=
  match fuel with
  | O => acc
  | S fuel' =>
      let acc' := String (ascii_of_nat (48 + Z.to_nat (n mod 10))) acc in
      if n <? 10 then acc' else digits fuel' (n / 10) acc'
  end.

(** A number has no more decimal digits than binary ones. *)
Definition natural (n : Z) : string := digits (S (Z.to_nat (Z.log2 n))) n "".

(** [%d]: the decimal notation, with a minus sign for a negative number. *)
Definition decimal (n : Z) : string :=
  if n <? 0 then String "-" (natural (- n)) else natural n.

(** [n] blanks. *)
Fixpoint blanks (n : nat) : string :=
  match n with
  | O => ""
  | S n' => String " " (blanks n')
  end.

(** A text at the right of a field [w] wide, whole when it is wider. *)
Definition right_justified (w : nat) (s : string) : string :=
  blanks (w - String.length s) ++ s.

(** The first [n] characters of a text, all of it when it is shorter. *)
Fixpoint first_chars (n : nat) (s : string) : string :=
  match n, s with
  | S n', String c s' => String c (first_chars n' s')
  | _, _ => ""
  end.

(** The lexeme of a token: [length] characters from [start] on (all the
    text there for a negative [length]). *)
Definition shown_lexeme (token : Token) : string :=
  if length token <? 0 then start token
  else first_chars (Z.to_nat (length token)) (start token).

(** The record of a token, after a token of line [previous]: the line
    number when it differs from [previous] and the filler otherwise, then
    the type, the lexeme between quotes and a newline. *)
Definition record (previous : Z) (token : Token) : string :=
  (if line token =? previous then "   | "
   else right_justified 4 (decimal (line token)) ++ " ")
  ++ right_justified 2 (decimal (type token))
  ++ " '" ++ shown_lexeme token ++ "'" ++ String "010" "".

(** One record per token, each after the line of the token before it. *)
Fixpoint records (previous : Z) (tokens : list Token) : list string :=
  match tokens with
  | [] => []
  | token :: rest => record previous token :: records (line token) rest
  end.

Definition concat (l : list string) : string := fold_right append "" l.

(** A scanner that hands out the tokens of a list, then [eof] for ever. *)
Definition replay (tokens : list Token) (eof : Token) : ScannerApi :=
  {| Scanner := list Token;
     initScanner := fun _ => tokens;
     scanToken := fun sc =>
       match sc with
       | [] => (eof, [])
       | token :: rest => (token, rest)
       end;
     TOKEN_EOF := type eof |}.

End Listing.

(** * The digits of the library's numbers *)

Module LibraryDigits.

(** The decimal digits of a number as a number of the library, the least
    significant first.  Nothing of the listing is defined with them: they
    are what the library's conversion, which [Clox.dec] uses, is compared
    with. *)
Definition digit_of (k : Z) (d : Decimal.uint) : Decimal.uint :=
  match k with
  | 0 => Decimal.D0 d
  | 1 => Decimal.D1 d
  | 2 => Decimal.D2 d
  | 3 => Decimal.D3 d
  | 4 => Decimal.D4 d
  | 5 => Decimal.D5 d
  | 6 => Decimal.D6 d
  | 7 => Decimal.D7 d
  | 8 => Decimal.D8 d
  | _ => Decimal.D9 d
  end.

Fixpoint little (fuel : nat) (n : Z) : Decimal.uint :=
  match fuel with
  | O => Decimal.Nil
  | S fuel' =>
      digit_of (n mod 10)
        (if n <? 10 then Decimal.Nil else little fuel' (n / 10))
  end.

End LibraryDigits.

(** * The grammar of the language *)

Module Grammar.

(** The terminals the grammar mentions: the anonymous string terminals of the
    rules and the three named terminals it imports. *)
Inductive token : Type :=
  | CLASS | FUN | VAR | FOR | IF | ELSE | WHILE | PRINT | RETURN
  | THIS | SUPER | OR | AND | TRUE | FALSE | NIL
  | LBRACE | RBRACE | LPAR | RPAR | COMMA | SEMICOLON | DOT | EQUAL
  | BANG_EQUAL | EQUAL_EQUAL | MORETHAN | MORETHAN_EQUAL | LESSTHAN | LESSTHAN_EQUAL
  | MINUS | PLUS | SLASH | STAR | BANG
  | IDENTIFIER (name : string)
  | NUMBER (text : string)
  | STRING (text : string).

(** The operator rules, each a set of terminals:
    [!_equality_operator: "!=" | "=="] and the like. *)
Definition _equality_operator (t : token) : bool :=
  match t with BANG_EQUAL | EQUAL_EQUAL => true | _ => false end.
Definition _comparison_operator (t : token) : bool :=
  match t with
  | MORETHAN | MORETHAN_EQUAL | LESSTHAN | LESSTHAN_EQUAL => true
  | _ => false
  end.
Definition _addition_operator (t : token) : bool :=
  match t with MINUS | PLUS => true | _ => false end.
Definition _multipication_operator (t : token) : bool :=
  match t with SLASH | STAR => true | _ => false end.
Definition _unary_operator (t : token) : bool :=
  match t with BANG | MINUS => true | _ => false end.
Definition _logic_or_operator (t : token) : bool :=
  match t with OR => true | _ => false end.
Definition _logic_and_operator (t : token) : bool :=
  match t with AND => true | _ => false end.

(** What a [literal] node holds: the token of a named terminal, or the empty
    subtree of [const_true], [const_false] or [const_nil]. *)
Inductive literal_child : Type :=
  | lit_NUMBER (text : string)
  | lit_STRING (text : string)
  | const_true
  | const_false
  | const_nil.

(** The expression trees, one constructor per tree name of the grammar (the
    aliases after [->] and the rules that are not inlined).  Anonymous
    terminals are dropped from the children except under a [!] rule, where
    the operator and the closing parenthesis are kept and the keywords
    [this] and [super], always the same, are left out; an absent
    [[arguments]] leaves an empty slot ([None]). *)
Inductive expr : Type :=
  | assignment (name : string) (value : expr)
  | set (object : expr) (name : string) (value : expr)
  | logical_expression (left : expr) (op : token) (right : expr)
  | binary (left : expr) (op : token) (right : expr)
  | unary (op : token) (operand : expr)
  | call (callee : expr) (args : option (list expr)) (closing_paren : token)
  | get (object : expr) (name : string)
  | literal (child : literal_child)
  | this
  | grouping (inner : expr)
  | variable (name : string)
  | super (method : string).

(** The rules of the expression part of the grammar. *)
Module Rule.
Inductive t : Type :=
  | expression | assignment | logic_or | logic_and | equality | comparison
  | term | factor | unary_expr | call | primary.
End Rule.

(** [derives r ts e]: rule [r] derives the token sequence [ts] with tree [e].
    One constructor per alternative of the grammar, lines 52 to 101. *)
Inductive derives : Rule.t -> list token -> expr -> Prop :=
  (* ?expression: assignment *)
  | d_expression ts e :
      derives Rule.assignment ts e -> derives Rule.expression ts e
  (* ?assignment: logic_or *)
  | d_assignment_logic_or ts e :
      derives Rule.logic_or ts e -> derives Rule.assignment ts e
  (* | IDENTIFIER "=" assignment -> assignment *)
  | d_assignment name ts v :
      derives Rule.assignment ts v ->
      derives Rule.assignment (IDENTIFIER name :: EQUAL :: ts) (assignment name v)
  (* | call "." IDENTIFIER "=" assignment -> set *)
  | d_set ts1 obj name ts2 v :
      derives Rule.call ts1 obj ->
      derives Rule.assignment ts2 v ->
      derives Rule.assignment (ts1 ++ DOT :: IDENTIFIER name :: EQUAL :: ts2)
        (set obj name v)
  (* ?logic_or: logic_and *)
  | d_logic_or_logic_and ts e :
      derives Rule.logic_and ts e -> derives Rule.logic_or ts e
  (* | logic_or _logic_or_operator logic_and -> logical_expression *)
  | d_logic_or ts1 l op ts2 r :
      derives Rule.logic_or ts1 l ->
      _logic_or_operator op = true ->
      derives Rule.logic_and ts2 r ->
      derives Rule.logic_or (ts1 ++ op :: ts2) (logical_expression l op r)
  (* ?logic_and: equality *)
  | d_logic_and_equality ts e :
      derives Rule.equality ts e -> derives Rule.logic_and ts e
  (* | logic_and _logic_and_operator equality -> logical_expression *)
  | d_logic_and ts1 l op ts2 r :
      derives Rule.logic_and ts1 l ->
      _logic_and_operator op = true ->
      derives Rule.equality ts2 r ->
      derives Rule.logic_and (ts1 ++ op :: ts2) (logical_expression l op r)
  (* ?equality: comparison *)
  | d_equality_comparison ts e :
      derives Rule.comparison ts e -> derives Rule.equality ts e
  (* | equality _equality_operator comparison -> binary *)
  | d_equality ts1 l op ts2 r :
      derives Rule.equality ts1 l ->
      _equality_operator op = true ->
      derives Rule.comparison ts2 r ->
      derives Rule.equality (ts1 ++ op :: ts2) (binary l op r)
  (* ?comparison: term *)
  | d_comparison_term ts e :
      derives Rule.term ts e -> derives Rule.comparison ts e
  (* | comparison _comparison_operator term -> binary *)
  | d_comparison ts1 l op ts2 r :
      derives Rule.comparison ts1 l ->
      _comparison_operator op = true ->
      derives Rule.term ts2 r ->
      derives Rule.comparison (ts1 ++ op :: ts2) (binary l op r)
  (* ?term: factor *)
  | d_term_factor ts e :
      derives Rule.factor ts e -> derives Rule.term ts e
  (* | term _addition_operator factor -> binary *)
  | d_term ts1 l op ts2 r :
      derives Rule.term ts1 l ->
      _addition_operator op = true ->
      derives Rule.factor ts2 r ->
      derives Rule.term (ts1 ++ op :: ts2) (binary l op r)
  (* ?factor: unary_expr *)
  | d_factor_unary_expr ts e :
      derives Rule.unary_expr ts e -> derives Rule.factor ts e
  (* | factor _multipication_operator unary_expr -> binary *)
  | d_factor ts1 l op ts2 r :
      derives Rule.factor ts1 l ->
      _multipication_operator op = true ->
      derives Rule.unary_expr ts2 r ->
      derives Rule.factor (ts1 ++ op :: ts2) (binary l op r)
  (* ?unary_expr: call *)
  | d_unary_expr_call ts e :
      derives Rule.call ts e -> derives Rule.unary_expr ts e
  (* | _unary_operator unary_expr -> unary *)
  | d_unary op ts e :
      _unary_operator op = true ->
      derives Rule.unary_expr ts e ->
      derives Rule.unary_expr (op :: ts) (unary op e)
  (* ?call: primary *)
  | d_call_primary ts e :
      derives Rule.primary ts e -> derives Rule.call ts e
  (* | call "(" [arguments] _closing_paren -> call *)
  | d_call_no_arguments ts c :
      derives Rule.call ts c ->
      derives Rule.call (ts ++ [LPAR; RPAR]) (call c None RPAR)
  | d_call ts c tsa args :
      derives Rule.call ts c ->
      derives_arguments tsa args ->
      derives Rule.call (ts ++ LPAR :: tsa ++ [RPAR]) (call c (Some args) RPAR)
  (* | call "." IDENTIFIER -> get *)
  | d_get ts obj name :
      derives Rule.call ts obj ->
      derives Rule.call (ts ++ [DOT; IDENTIFIER name]) (get obj name)
  (* ?primary: NUMBER -> literal | STRING -> literal *)
  | d_literal_NUMBER text :
      derives Rule.primary [NUMBER text] (literal (lit_NUMBER text))
  | d_literal_STRING text :
      derives Rule.primary [STRING text] (literal (lit_STRING text))
  (* | const_true -> literal | const_false -> literal | const_nil -> literal *)
  | d_literal_true : derives Rule.primary [TRUE] (literal const_true)
  | d_literal_false : derives Rule.primary [FALSE] (literal const_false)
  | d_literal_nil : derives Rule.primary [NIL] (literal const_nil)
  (* | this *)
  | d_this : derives Rule.primary [THIS] this
  (* | "(" expression ")" -> grouping *)
  | d_grouping ts e :
      derives Rule.expression ts e ->
      derives Rule.primary (LPAR :: ts ++ [RPAR]) (grouping e)
  (* | variable *)
  | d_variable name : derives Rule.primary [IDENTIFIER name] (variable name)
  (* | _super_keyword "." IDENTIFIER -> super *)
  | d_super name :
      derives Rule.primary [SUPER; DOT; IDENTIFIER name] (super name)

(** [arguments: expression ( "," expression )*] *)
with derives_arguments : list token -> list expr -> Prop :=
  | d_arguments_one ts e :
      derives Rule.expression ts e -> derives_arguments ts [e]
  | d_arguments_more ts e tsa args :
      derives Rule.expression ts e ->
      derives_arguments tsa args ->
      derives_arguments (ts ++ COMMA :: tsa) (e :: args).

Scheme derives_ind2 := Minimality for derives Sort Prop
  with derives_arguments_ind2 := Minimality for derives_arguments Sort Prop.
Combined Scheme derives_mutind from derives_ind2, derives_arguments_ind2.

(** An optional part of a rule, [[x]] or [(x)?]: absent, it derives no
    token and leaves no tree. *)
Inductive optional {A : Type} (P : list token -> A -> Prop) :
    list token -> option A -> Prop :=
  | optional_absent : optional P [] None
  | optional_present ts a : P ts a -> optional P ts (Some a).

(** [parameters: IDENTIFIER ( "," IDENTIFIER )*] *)
Inductive derives_parameters : list token -> list string -> Prop :=
  | d_parameters_one name : derives_parameters [IDENTIFIER name] [name]
  | d_parameters_more name ts names :
      derives_parameters ts names ->
      derives_parameters (IDENTIFIER name :: COMMA :: ts) (name :: names).

(** The declaration and statement trees.  [for_statement] keeps its four
    children as the grammar lists them; [empty_initializer] is the tree of
    the rule of that name.  The [return] keyword and the [;] of
    [empty_initializer], kept by their [!] rules, are always the same and
    left out. *)
Inductive stmt : Type :=
  | class_declaration (name : string) (superclass : option expr)
      (methods : list stmt)
  | function (name : string) (params : option (list string)) (body : stmt)
  | variable_declaration (name : string) (initializer : option expr)
  | expression_statement (e : expr)
  | for_statement (init : stmt) (condition increment : option expr)
      (body : stmt)
  | empty_initializer
  | if_statement (condition : expr) (then_branch : stmt)
      (else_branch : option stmt)
  | print_statement (e : expr)
  | return_statement (value : option expr)
  | while_statement (condition : expr) (body : stmt)
  | block (declarations : list stmt).

Module SRule.
Inductive t : Type :=
  | declaration | class_declaration | method | function_declaration
  | variable_declaration | statement | for_statement | if_statement
  | while_statement | block | expression_statement | print_statement
  | return_statement.
End SRule.

(** [superclass] is [variable], that is one [IDENTIFIER]. *)
Definition derives_superclass (ts : list token) (e : expr) : Prop :=
  exists name, ts = [LESSTHAN; IDENTIFIER name] /\ e = variable name.

(** [derives_stmt r ts s], one constructor per alternative of the rules of
    lines 3 to 50; [derives_declarations] is [declaration*] and
    [derives_methods] is [method*]. *)
Inductive derives_stmt : SRule.t -> list token -> stmt -> Prop :=
  (* ?declaration: class_declaration | function_declaration
                 | variable_declaration | statement *)
  | d_declaration_class ts s :
      derives_stmt SRule.class_declaration ts s ->
      derives_stmt SRule.declaration ts s
  | d_declaration_function ts s :
      derives_stmt SRule.function_declaration ts s ->
      derives_stmt SRule.declaration ts s
  | d_declaration_variable ts s :
      derives_stmt SRule.variable_declaration ts s ->
      derives_stmt SRule.declaration ts s
  | d_declaration_statement ts s :
      derives_stmt SRule.statement ts s ->
      derives_stmt SRule.declaration ts s
  (* class_declaration: "class" IDENTIFIER [ "<" superclass ] "{" method* "}" *)
  | d_class_declaration name tss sup tsm methods :
      optional derives_superclass tss sup ->
      derives_methods tsm methods ->
      derives_stmt SRule.class_declaration
        (CLASS :: IDENTIFIER name :: tss ++ LBRACE :: tsm ++ [RBRACE])
        (class_declaration name sup methods)
  (* method: _function -> function
     _function: IDENTIFIER "(" [parameters] ")" block *)
  | d_method name tsp params tsb body :
      optional derives_parameters tsp params ->
      derives_stmt SRule.block tsb body ->
      derives_stmt SRule.method
        (IDENTIFIER name :: LPAR :: tsp ++ RPAR :: tsb)
        (function name params body)
  (* function_declaration: "fun" _function -> function *)
  | d_function_declaration name tsp params tsb body :
      optional derives_parameters tsp params ->
      derives_stmt SRule.block tsb body ->
      derives_stmt SRule.function_declaration
        (FUN :: IDENTIFIER name :: LPAR :: tsp ++ RPAR :: tsb)
        (function name params body)
  (* variable_declaration: "var" IDENTIFIER ( "=" expression )? ";" *)
  | d_variable_declaration name :
      derives_stmt SRule.variable_declaration
        [VAR; IDENTIFIER name; SEMICOLON] (variable_declaration name None)
  | d_variable_declaration_init name ts e :
      derives Rule.expression ts e ->
      derives_stmt SRule.variable_declaration
        (VAR :: IDENTIFIER name :: EQUAL :: ts ++ [SEMICOLON])
        (variable_declaration name (Some e))
  (* ?statement: expression_statement | for_statement | if_statement
               | print_statement | return_statement | while_statement | block *)
  | d_statement_expression ts s :
      derives_stmt SRule.expression_statement ts s ->
      derives_stmt SRule.statement ts s
  | d_statement_for ts s :
      derives_stmt SRule.for_statement ts s ->
      derives_stmt SRule.statement ts s
  | d_statement_if ts s :
      derives_stmt SRule.if_statement ts s ->
      derives_stmt SRule.statement ts s
  | d_statement_print ts s :
      derives_stmt SRule.print_statement ts s ->
      derives_stmt SRule.statement ts s
  | d_statement_return ts s :
      derives_stmt SRule.return_statement ts s ->
      derives_stmt SRule.statement ts s
  | d_statement_while ts s :
      derives_stmt SRule.while_statement ts s ->
      derives_stmt SRule.statement ts s
  | d_statement_block ts s :
      derives_stmt SRule.block ts s ->
      derives_stmt SRule.statement ts s
  (* for_statement: "for" "(" ( variable_declaration | expression_statement
       | empty_initializer ) [expression] ";" [expression] ")" statement *)
  | d_for_variable_declaration tsi init tsc cond tse incr tsb body :
      derives_stmt SRule.variable_declaration tsi init ->
      optional (derives Rule.expression) tsc cond ->
      optional (derives Rule.expression) tse incr ->
      derives_stmt SRule.statement tsb body ->
      derives_stmt SRule.for_statement
        (FOR :: LPAR :: tsi ++ tsc ++ SEMICOLON :: tse ++ RPAR :: tsb)
        (for_statement init cond incr body)
  | d_for_expression_statement tsi init tsc cond tse incr tsb body :
      derives_stmt SRule.expression_statement tsi init ->
      optional (derives Rule.expression) tsc cond ->
      optional (derives Rule.expression) tse incr ->
      derives_stmt SRule.statement tsb body ->
      derives_stmt SRule.for_statement
        (FOR :: LPAR :: tsi ++ tsc ++ SEMICOLON :: tse ++ RPAR :: tsb)
        (for_statement init cond incr body)
  (* !empty_initializer: ";" *)
  | d_for_empty_initializer tsc cond tse incr tsb body :
      optional (derives Rule.expression) tsc cond ->
      optional (derives Rule.expression) tse incr ->
      derives_stmt SRule.statement tsb body ->
      derives_stmt SRule.for_statement
        (FOR :: LPAR :: SEMICOLON :: tsc ++ SEMICOLON :: tse ++ RPAR :: tsb)
        (for_statement empty_initializer cond incr body)
  (* if_statement: "if" "(" expression ")" statement ( "else" statement )? *)
  | d_if tsc c tst th :
      derives Rule.expression tsc c ->
      derives_stmt SRule.statement tst th ->
      derives_stmt SRule.if_statement
        (IF :: LPAR :: tsc ++ RPAR :: tst) (if_statement c th None)
  | d_if_else tsc c tst th tse el :
      derives Rule.expression tsc c ->
      derives_stmt SRule.statement tst th ->
      derives_stmt SRule.statement tse el ->
      derives_stmt SRule.if_statement
        (IF :: LPAR :: tsc ++ RPAR :: tst ++ ELSE :: tse)
        (if_statement c th (Some el))
  (* while_statement: "while" "(" expression ")" statement *)
  | d_while tsc c tsb body :
      derives Rule.expression tsc c ->
      derives_stmt SRule.statement tsb body ->
      derives_stmt SRule.while_statement
        (WHILE :: LPAR :: tsc ++ RPAR :: tsb) (while_statement c body)
  (* block: "{" declaration* "}" *)
  | d_block ts decls :
      derives_declarations ts decls ->
      derives_stmt SRule.block (LBRACE :: ts ++ [RBRACE]) (block decls)
  (* expression_statement: expression ";" *)
  | d_expression_statement ts e :
      derives Rule.expression ts e ->
      derives_stmt SRule.expression_statement (ts ++ [SEMICOLON])
        (expression_statement e)
  (* print_statement: "print" expression ";" *)
  | d_print_statement ts e :
      derives Rule.expression ts e ->
      derives_stmt SRule.print_statement (PRINT :: ts ++ [SEMICOLON])
        (print_statement e)
  (* return_statement: _return_keyword [expression] ";" *)
  | d_return_statement ts value :
      optional (derives Rule.expression) ts value ->
      derives_stmt SRule.return_statement (RETURN :: ts ++ [SEMICOLON])
        (return_statement value)

with derives_declarations : list token -> list stmt -> Prop :=
  | d_declarations_nil : derives_declarations [] []
  | d_declarations_cons ts s tsr rest :
      derives_stmt SRule.declaration ts s ->
      derives_declarations tsr rest ->
      derives_declarations (ts ++ tsr) (s :: rest)

with derives_methods : list token -> list stmt -> Prop :=
  | d_methods_nil : derives_methods [] []
  | d_methods_cons ts s tsr rest :
      derives_stmt SRule.method ts s ->
      derives_methods tsr rest ->
      derives_methods (ts ++ tsr) (s :: rest).

Scheme derives_stmt_ind2 := Minimality for derives_stmt Sort Prop
  with derives_declarations_ind2 := Minimality for derives_declarations Sort Prop
  with derives_methods_ind2 := Minimality for derives_methods Sort Prop.
Combined Scheme derives_stmt_mutind
  from derives_stmt_ind2, derives_declarations_ind2, derives_methods_ind2.

(** [program: declaration*] *)
Definition derives_program (ts : list token) (decls : list stmt) : Prop :=
  derives_declarations ts decls.

End Grammar.

(** * Reading the grammar: precedence, operators, [super] *)

Module Precedence.
Import Grammar.
Local Open Scope list_scope.

(** A list of token sequences joined by commas. *)
Fixpoint comma_separated (tss : list (list token)) : list token :=
  match tss with
  | [] => []
  | [ts] => ts
  | ts :: tss' => ts ++ COMMA :: comma_separated tss'
  end.

(** The rules from the loosest to the tightest binding, in the order the
    grammar chains them ([expression] is [assignment]). *)
Definition level (r : Rule.t) : nat :=
  match r with
  | Rule.expression | Rule.assignment => 0
  | Rule.logic_or => 1
  | Rule.logic_and => 2
  | Rule.equality => 3
  | Rule.comparison => 4
  | Rule.term => 5
  | Rule.factor => 6
  | Rule.unary_expr => 7
  | Rule.call => 8
  | Rule.primary => 9
  end%nat.

(** The rule whose alternative builds a node with this root. *)
Definition rule_of (e : expr) : Rule.t :=
  match e with
  | assignment _ _ | set _ _ _ => Rule.assignment
  | logical_expression _ op _ =>
      if _logic_or_operator op then Rule.logic_or else Rule.logic_and
  | binary _ op _ =>
      if _equality_operator op then Rule.equality
      else if _comparison_operator op then Rule.comparison
      else if _addition_operator op then Rule.term
      else Rule.factor
  | unary _ _ => Rule.unary_expr
  | call _ _ _ | get _ _ => Rule.call
  | literal _ | this | grouping _ | variable _ | super _ => Rule.primary
  end.

Definition prec (e : expr) : nat := level (rule_of e).

Definition is_logical_operator (t : token) : bool :=
  _logic_or_operator t || _logic_and_operator t.

Definition is_binary_operator (t : token) : bool :=
  _equality_operator t || _comparison_operator t
  || _addition_operator t || _multipication_operator t.

(** A tree respects the precedence order when every operand binds at least as
    tightly as its position asks: the left operand of a binary or logical
    node as tightly as the node itself, the right operand strictly tighter
    (association to the left); the operand of a unary node at least as
    tightly as [unary_expr] (prefix operators nest to the right); the callee
    of a call and the object of a property access or of a [set] at least as
    tightly as [call] (postfix operations nest to the left); the value of an
    assignment, the inside of a grouping and the arguments of a call are any
    expression. *)
Fixpoint respects_precedence (e : expr) : bool :=
  match e with
  | assignment _ v => respects_precedence v
  | set obj _ v =>
      respects_precedence obj && (level Rule.call <=? prec obj)%nat
      && respects_precedence v
  | logical_expression l op r =>
      is_logical_operator op
      && respects_precedence l && (prec e <=? prec l)%nat
      && respects_precedence r && (S (prec e) <=? prec r)%nat
  | binary l op r =>
      is_binary_operator op
      && respects_precedence l && (prec e <=? prec l)%nat
      && respects_precedence r && (S (prec e) <=? prec r)%nat
  | unary op x =>
      _unary_operator op
      && respects_precedence x && (level Rule.unary_expr <=? prec x)%nat
  | call c args paren =>
      respects_precedence c && (level Rule.call <=? prec c)%nat
      && match args with
         | None => true
         | Some [] => false
         | Some l => forallb respects_precedence l
         end
      && match paren with RPAR => true | _ => false end
  | get obj _ =>
      respects_precedence obj && (level Rule.call <=? prec obj)%nat
  | grouping x => respects_precedence x
  | literal _ | this | variable _ | super _ => true
  end.

(** The token sequence a tree was built from. *)
Definition literal_token (c : literal_child) : token :=
  match c with
  | lit_NUMBER text => NUMBER text
  | lit_STRING text => STRING text
  | const_true => TRUE
  | const_false => FALSE
  | const_nil => NIL
  end.

Fixpoint tokens_of (e : expr) : list token :=
  match e with
  | assignment name v => IDENTIFIER name :: EQUAL :: tokens_of v
  | set obj name v =>
      tokens_of obj ++ DOT :: IDENTIFIER name :: EQUAL :: tokens_of v
  | logical_expression l op r | binary l op r =>
      tokens_of l ++ op :: tokens_of r
  | unary op x => op :: tokens_of x
  | call c args paren =>
      tokens_of c ++ LPAR ::
        match args with
        | None => []
        | Some l => comma_separated (map tokens_of l)
        end ++ [paren]
  | get obj name => tokens_of obj ++ [DOT; IDENTIFIER name]
  | literal c => [literal_token c]
  | this => [THIS]
  | grouping x => LPAR :: tokens_of x ++ [RPAR]
  | variable name => [IDENTIFIER name]
  | super m => [SUPER; DOT; IDENTIFIER m]
  end.

(** The operator nodes of a tree, in source order, each with its variant. *)
Inductive node_variant : Type := logical_node | binary_node | unary_node.

Fixpoint operator_nodes (e : expr) : list (node_variant * token) :=
  match e with
  | assignment _ v => operator_nodes v
  | set obj _ v => operator_nodes obj ++ operator_nodes v
  | logical_expression l op r =>
      operator_nodes l ++ (logical_node, op) :: operator_nodes r
  | binary l op r =>
      operator_nodes l ++ (binary_node, op) :: operator_nodes r
  | unary op x => (unary_node, op) :: operator_nodes x
  | call c args _ =>
      operator_nodes c ++
        match args with
        | None => []
        | Some l => flat_map operator_nodes l
        end
  | get obj _ => operator_nodes obj
  | grouping x => operator_nodes x
  | literal _ | this | variable _ | super _ => []
  end.

Definition is_operator_token (t : token) : bool :=
  is_logical_operator t || is_binary_operator t || _unary_operator t.

(** Which operators a node of each variant may carry. *)
Definition variant_carries (v : node_variant) (op : token) : bool :=
  match v with
  | logical_node => is_logical_operator op
  | binary_node => is_binary_operator op
  | unary_node => _unary_operator op
  end.

(** Every [super] keyword of the sequence is followed by [.] and an
    identifier. *)
Fixpoint super_well_placed (ts : list token) : bool :=
  match ts with
  | [] => true
  | SUPER :: rest =>
      match rest with
      | DOT :: IDENTIFIER _ :: _ => super_well_placed rest
      | _ => false
      end
  | _ :: rest => super_well_placed rest
  end.

(** The tokens of a parameter list with these names. *)
Definition parameter_tokens (names : list string) : list token :=
  comma_separated (map (fun name => [IDENTIFIER name]) names).

End Precedence.

(** * The lexer *)

Module Lexer.
Import Text.
Local Open Scope char_scope.

(** Modelled from the spec: the hand-written lexer ([scanner.c], with
    [initScanner] and [scanToken], is called by [compile] but is a separate
    translation unit; the terminals [NUMBER] and [ESCAPED_STRING] of the
    grammar are imported from the parser generator's library).  What follows
    is section 4.1 of the specification: a single pass over the characters,
    whitespace and line comments skipped, newlines counted, numbers, strings,
    identifiers and keywords, one- and two-character operators, and a
    diagnostic with a line and a message for anything else. *)
Inductive kind : Type :=
  | LEFT_PAREN | RIGHT_PAREN | LEFT_BRACE | RIGHT_BRACE
  | COMMA | DOT | MINUS | PLUS | SEMICOLON | SLASH | STAR
  | BANG | BANG_EQUAL | EQUAL | EQUAL_EQUAL
  | GREATER | GREATER_EQUAL | LESS | LESS_EQUAL
  | IDENTIFIER | STRING | NUMBER
  | AND | CLASS | ELSE | FALSE | FOR | FUN | IF | NIL | OR
  | PRINT | RETURN | SUPER | THIS | TRUE | VAR | WHILE
  | ERROR | EOF.

(** [{ kind, lexeme (slice of source), line }]; the lexeme of an [ERROR]
    token is the message of the diagnostic. *)
Record token : Type := mkToken
  { token_kind : kind;
    lexeme : string;
    token_line : Z }.

(** The text still to be read and the line counter. *)
Record scanner : Type := mkScanner
  { rest : string;
    line : Z }.

Definition newline : ascii := "010".
Definition quote : ascii := "034".
Definition backslash : ascii := "\".

Definition isDigit (c : ascii) : bool :=
  Ascii.leb "0" c && Ascii.leb c "9".

Definition isAlpha (c : ascii) : bool :=
  (Ascii.leb "a" c && Ascii.leb c "z")
  || (Ascii.leb "A" c && Ascii.leb c "Z")
  || (c =? "_").

(** Spaces, tabs and carriage returns; the newline is handled apart because
    it moves the line counter. *)
Definition isBlank (c : ascii) : bool :=
  (c =? " ") || (c =? "009") || (c =? "013").

(** A line comment runs to the end of the line: what is left of the text
    starts at the newline, or is empty. *)
Fixpoint comment_end (s : string) : string :=
  match s with
  | EmptyString => EmptyString
  | String c s' => if c =? newline then s else comment_end s'
  end.

(** Whitespace and comments are skipped, newlines counted.  [in_comment]
    tells that the characters read are those of a line comment; the newline
    that follows it is whitespace like any other. *)
Fixpoint skip (in_comment : bool) (s : string) (l : Z) : string * Z :=
  match s with
  | EmptyString => (s, l)
  | String c s' =>
      if c =? newline then skip false s' (l + 1)
      else if in_comment then skip true s' l
      else if isBlank c then skip false s' l
      else if c =? "/" then
        match s' with
        | String "/" s'' => skip true s'' l
        | _ => (s, l)
        end
      else (s, l)
  end.

Definition skipWhitespace (s : string) (l : Z) : string * Z := skip false s l.

(** Modelled from the spec: numbers are one or more digits, optionally
    followed by [.] and one or more digits; a [.] that no digit follows
    stays in the text. *)
Definition number (s : string) : string * string :=
  let (whole, after) := span isDigit s in
  match after with
  | String "." (String d _ as fraction) =>
      if isDigit d then
        let (digits, more) := span isDigit fraction in
        ((whole ++ String "." digits)%string, more)
      else (whole, after)
  | _ => (whole, after)
  end.

(** Modelled from the spec: strings are double-quoted and may span lines.
    The characters of a string after its opening quote, up to and with the
    closing quote; a backslash followed by a quote or by a backslash is an
    escape sequence and does not close the string.  [None] when the text
    ends first. *)
Fixpoint string_tail (s : string) (l : Z) : option (string * string * Z) :=
  match s with
  | EmptyString => None
  | String c s' =>
      if c =? quote then Some (String c EmptyString, s', l)
      else
        let plain :=
          match string_tail s' (if c =? newline then l + 1 else l) with
          | Some (body, more, l') => Some (String c body, more, l')
          | None => None
          end in
        match s' with
        | String d s'' =>
            if (c =? backslash) && ((d =? quote) || (d =? backslash)) then
              match string_tail s'' l with
              | Some (body, more, l') =>
                  Some (String c (String d body), more, l')
              | None => None
              end
            else plain
        | EmptyString => plain
        end
  end.

Definition keyword (text : string) : kind :=
  if (text =? "and")%string then AND
  else if (text =? "class")%string then CLASS
  else if (text =? "else")%string then ELSE
  else if (text =? "false")%string then FALSE
  else if (text =? "for")%string then FOR
  else if (text =? "fun")%string then FUN
  else if (text =? "if")%string then IF
  else if (text =? "nil")%string then NIL
  else if (text =? "or")%string then OR
  else if (text =? "print")%string then PRINT
  else if (text =? "return")%string then RETURN
  else if (text =? "super")%string then SUPER
  else if (text =? "this")%string then THIS
  else if (text =? "true")%string then TRUE
  else if (text =? "var")%string then VAR
  else if (text =? "while")%string then WHILE
  else IDENTIFIER.

(** A one-character operator [c], or the two-character one when [=]
    follows. *)
Definition operator (c : ascii) (one two : kind) (s' : string) (l : Z)
  : token * scanner :=
  match s' with
  | String "=" s'' =>
      (mkToken two (String c (String "=" EmptyString)) l, mkScanner s'' l)
  | _ => (mkToken one (String c EmptyString) l, mkScanner s' l)
  end.

Definition punctuation (c : ascii) : option kind :=
  if c =? "(" then Some LEFT_PAREN
  else if c =? ")" then Some RIGHT_PAREN
  else if c =? "{" then Some LEFT_BRACE
  else if c =? "}" then Some RIGHT_BRACE
  else if c =? "," then Some COMMA
  else if c =? "." then Some DOT
  else if c =? "-" then Some MINUS
  else if c =? "+" then Some PLUS
  else if c =? ";" then Some SEMICOLON
  else if c =? "/" then Some SLASH
  else if c =? "*" then Some STAR
  else None.

Definition initScanner (source : string) : scanner := mkScanner source 1.

(** Modelled from the spec: one token per call, after the whitespace and
    the comments in front of it. *)

Definition scanToken (sc : scanner) : token * scanner :=
  let (s, l) := skipWhitespace (rest sc) (line sc) in
  match s with
  | EmptyString => (mkToken EOF EmptyString l, mkScanner s l)
  | String c s' =>
      if isAlpha c then
        let (text, more) := span (fun d => isAlpha d || isDigit d) s in
        (mkToken (keyword text) text l, mkScanner more l)
      else if isDigit c then
        let (text, more) := number s in
        (mkToken NUMBER text l, mkScanner more l)
      else if c =? quote then
        match string_tail s' l with
        | Some (body, more, l') =>
            (mkToken STRING (String c body) l', mkScanner more l')
        | None =>
            (mkToken ERROR "Unterminated string." l, mkScanner EmptyString l)
        end
      else if c =? "!" then operator c BANG BANG_EQUAL s' l
      else if c =? "=" then operator c EQUAL EQUAL_EQUAL s' l
      else if c =? "<" then operator c LESS LESS_EQUAL s' l
      else if c =? ">" then operator c GREATER GREATER_EQUAL s' l
      else
        match punctuation c with
        | Some k => (mkToken k (String c EmptyString) l, mkScanner s' l)
        | None => (mkToken ERROR "Unexpected character." l, mkScanner s' l)
        end
  end.

(** The shape of a number: digits, or digits, [.] and digits. *)
Definition is_number (text : string) : Prop :=
  exists whole,
    whole <> EmptyString /\ all_chars isDigit whole = true /\
    (text = whole \/
     exists fraction,
       fraction <> EmptyString /\ all_chars isDigit fraction = true /\
       text = (whole ++ String "." fraction)%string).

(** The inside of a string: escape sequences (a backslash followed by a
    quote or by a backslash) and any other character but the quote; a
    backslash stands for itself only in front of a character that would not
    make an escape sequence with it. *)
Inductive string_inner : string -> Prop :=
  | inner_nil : string_inner EmptyString
  | inner_escape d s :
      d = quote \/ d = backslash ->
      string_inner s -> string_inner (String backslash (String d s))
  | inner_plain c s :
      c <> quote ->
      (c = backslash ->
       exists d s', s = String d s' /\ d <> quote /\ d <> backslash) ->
      string_inner s -> string_inner (String c s).

(** The tokens of a text up to the first [EOF] token; a token other than
    [EOF] takes at least one character, which bounds their number. *)
Fixpoint scan_tokens (fuel : nat) (sc : scanner) : list token :=
  let (t, sc') := scanToken sc in
  match token_kind t, fuel with
  | EOF, _ | _, O => [t]
  | _, S fuel' => t :: scan_tokens fuel' sc'
  end.

Definition tokens (source : string) : list token :=
  scan_tokens (String.length source) (initScanner source).

(** The scanner seen through [scanner.h] by [compile]: the kinds numbered in
    the order of their declaration, [start] the lexeme followed by the rest
    of the text (for a diagnostic, the message). *)
Definition code (k : kind) : Z :=
  match k with
  | LEFT_PAREN => 0 | RIGHT_PAREN => 1 | LEFT_BRACE => 2 | RIGHT_BRACE => 3
  | COMMA => 4 | DOT => 5 | MINUS => 6 | PLUS => 7 | SEMICOLON => 8
  | SLASH => 9 | STAR => 10
  | BANG => 11 | BANG_EQUAL => 12 | EQUAL => 13 | EQUAL_EQUAL => 14
  | GREATER => 15 | GREATER_EQUAL => 16 | LESS => 17 | LESS_EQUAL => 18
  | IDENTIFIER => 19 | STRING => 20 | NUMBER => 21
  | AND => 22 | CLASS => 23 | ELSE => 24 | FALSE => 25 | FOR => 26
  | FUN => 27 | IF => 28 | NIL => 29 | OR => 30 | PRINT => 31
  | RETURN => 32 | SUPER => 33 | THIS => 34 | TRUE => 35 | VAR => 36
  | WHILE => 37 | ERROR => 38 | EOF => 39
  end.

Definition kind_eq_dec (a b : kind) : {a = b} + {a <> b}.
Proof. decide equality. Defined.

Definition c_token (t : token) (after : scanner) : Clox.Token :=
  Clox.mkToken (code (token_kind t))
    (match token_kind t with
     | ERROR => lexeme t
     | _ => (lexeme t ++ rest after)%string
     end)
    (Z.of_nat (String.length (lexeme t)))
    (token_line t).

#[export] Instance scanner_api : Clox.ScannerApi :=
  {| Clox.Scanner := scanner;
     Clox.initScanner := initScanner;
     Clox.scanToken := fun sc =>
       let (t, sc') := scanToken sc in (c_token t sc', sc');
     Clox.TOKEN_EOF := code EOF |}.

End Lexer.

(** * The [COMMENT] terminal of the grammar *)

Module Comment.
Import Text.
Local Open Scope char_scope.

(** The regular expressions the terminal is made of. *)
Inductive regex : Type :=
  | Class (p : ascii -> bool)
  | Literal (text : string)
  | Seq (r1 r2 : regex)
  | Star (r : regex).

Inductive matches : regex -> string -> Prop :=
  | m_class (p : ascii -> bool) c :
      p c = true -> matches (Class p) (String c EmptyString)
  | m_literal text : matches (Literal text) text
  | m_seq r1 r2 s1 s2 :
      matches r1 s1 -> matches r2 s2 -> matches (Seq r1 r2) (s1 ++ s2)%string
  | m_star_nil r : matches (Star r) EmptyString
  | m_star_more r s1 s2 :
      matches r s1 -> matches (Star r) s2 -> matches (Star r) (s1 ++ s2)%string.

(** [\s]: the whitespace characters of the regular expression engine
    among the code points below 256, which the characters of a text stand
    for: 9 to 13, 28 to 32, 133 (next line) and 160 (no-break space). *)
Definition regex_space (c : ascii) : bool :=
  let n := nat_of_ascii c in
  ((9 <=? n) && (n <=? 13) || (28 <=? n) && (n <=? 32)
   || (n =? 133) || (n =? 160))%nat.

(** [[^\n]] *)
Definition not_newline (c : ascii) : bool := negb (c =? "010").

(** [COMMENT: /\s*/ "//" /[^\n]/*] *)
Definition COMMENT : regex :=
  Seq (Star (Class regex_space))
      (Seq (Literal "//") (Star (Class not_newline))).

(** The match of [COMMENT] at the start of a text: both stars are greedy,
    and giving back whitespace cannot help, since [/] is not whitespace. *)
Definition match_COMMENT (s : string) : option (string * string) :=
  let (ws, after) := span regex_space s in
  match after with
  | String "/" (String "/" body) =>
      let (text, left_over) := span not_newline body in
      Some ((ws ++ "//" ++ text)%string, left_over)
  | _ => None
  end.

End Comment.

(** * A recursive-descent reading of the expression rules *)

Module Parser.
Import Grammar Precedence.
Local Open Scope list_scope.
Local Open Scope nat_scope.

(** The operators of the rule at level [k], for the six left-recursive
    rules [logic_or] (1) to [factor] (6). *)
Definition operator_at (k : nat) (t : token) : bool :=
  match k with
  | 1 => _logic_or_operator t
  | 2 => _logic_and_operator t
  | 3 => _equality_operator t
  | 4 => _comparison_operator t
  | 5 => _addition_operator t
  | 6 => _multipication_operator t
  | _ => false
  end.

(** The node such a rule builds. *)
Definition node_at (k : nat) (l : expr) (op : token) (r : expr) : expr :=
  if k <=? 2 then logical_expression l op r else binary l op r.

(** The parsing functions: each takes the tokens still to be read and
    returns the tree it built and the tokens it left.  A left-recursive rule
    [r: next | r op next] becomes a loop over [next]; [assignment] reads a
    [logic_or] first and, when [=] follows, turns a [variable] into an
    [assignment] and a [get] into a [set], any other tree being a syntax
    error.  [fuel] bounds the depth of the calls. *)
Fixpoint parse_assignment (fuel : nat) (ts : list token)
  : option (expr * list token) :=
  match fuel with
  | O => None
  | S fuel =>
      match parse_binary fuel 1 ts with
      | Some (e, EQUAL :: rest) =>
          match e with
          | variable name =>
              match parse_assignment fuel rest with
              | Some (v, rest') => Some (assignment name v, rest')
              | None => None
              end
          | get obj name =>
              match parse_assignment fuel rest with
              | Some (v, rest') => Some (set obj name v, rest')
              | None => None
              end
          | _ => None
          end
      | r => r
      end
  end

with parse_binary (fuel : nat) (k : nat) (ts : list token)
  : option (expr * list token) :=
  match fuel with
  | O => None
  | S fuel =>
      if 7 <=? k then parse_unary fuel ts
      else
        match parse_binary fuel (S k) ts with
        | Some (l, rest) => parse_binary_loop fuel k l rest
        | None => None
        end
  end

with parse_binary_loop (fuel : nat) (k : nat) (l : expr) (ts : list token)
  : option (expr * list token) :=
  match fuel with
  | O => None
  | S fuel =>
      match ts with
      | op :: rest =>
          if operator_at k op then
            match parse_binary fuel (S k) rest with
            | Some (r, rest') =>
                parse_binary_loop fuel k (node_at k l op r) rest'
            | None => None
            end
          else Some (l, ts)
      | [] => Some (l, ts)
      end
  end

with parse_unary (fuel : nat) (ts : list token)
  : option (expr * list token) :=
  match fuel with
  | O => None
  | S fuel =>
      match ts with
      | op :: rest =>
          if _unary_operator op then
            match parse_unary fuel rest with
            | Some (e, rest') => Some (unary op e, rest')
            | None => None
            end
          else parse_call fuel ts
      | [] => None
      end
  end

with parse_call (fuel : nat) (ts : list token)
  : option (expr * list token) :=
  match fuel with
  | O => None
  | S fuel =>
      match parse_primary fuel ts with
      | Some (e, rest) => parse_call_loop fuel e rest
      | None => None
      end
  end

with parse_call_loop (fuel : nat) (c : expr) (ts : list token)
  : option (expr * list token) :=
  match fuel with
  | O => None
  | S fuel =>
      match ts with
      | LPAR :: RPAR :: rest => parse_call_loop fuel (call c None RPAR) rest
      | LPAR :: rest =>
          match parse_arguments fuel rest with
          | Some (args, RPAR :: rest') =>
              parse_call_loop fuel (call c (Some args) RPAR) rest'
          | _ => None
          end
      | DOT :: IDENTIFIER name :: rest => parse_call_loop fuel (get c name) rest
      | _ => Some (c, ts)
      end
  end

with parse_primary (fuel : nat) (ts : list token)
  : option (expr * list token) :=
  match fuel with
  | O => None
  | S fuel =>
      match ts with
      | NUMBER text :: rest => Some (literal (lit_NUMBER text), rest)
      | STRING text :: rest => Some (literal (lit_STRING text), rest)
      | TRUE :: rest => Some (literal const_true, rest)
      | FALSE :: rest => Some (literal const_false, rest)
      | NIL :: rest => Some (literal const_nil, rest)
      | THIS :: rest => Some (this, rest)
      | LPAR :: rest =>
          match parse_assignment fuel rest with
          | Some (e, RPAR :: rest') => Some (grouping e, rest')
          | _ => None
          end
      | IDENTIFIER name :: rest => Some (variable name, rest)
      | SUPER :: DOT :: IDENTIFIER m :: rest => Some (super m, rest)
      | _ => None
      end
  end

with parse_arguments (fuel : nat) (ts : list token)
  : option (list expr * list token) :=
  match fuel with
  | O => None
  | S fuel =>
      match parse_assignment fuel ts with
      | Some (e, COMMA :: rest) =>
          match parse_arguments fuel rest with
          | Some (args, rest') => Some (e :: args, rest')
          | None => None
          end
      | Some (e, rest) => Some ([e], rest)
      | None => None
      end
  end.

(** The rule read at level [k] by [parse_binary]. *)
Definition rule_at (k : nat) : Rule.t :=
  match k with
  | 0 => Rule.assignment
  | 1 => Rule.logic_or
  | 2 => Rule.logic_and
  | 3 => Rule.equality
  | 4 => Rule.comparison
  | 5 => Rule.term
  | 6 => Rule.factor
  | _ => Rule.unary_expr
  end.

(** [eventually run x]: with enough fuel, and then with any more, [run]
    returns [x]. *)
Definition eventually {A : Type} (run : nat -> option A) (x : A) : Prop :=
  exists fuel0, forall fuel, fuel0 <= fuel -> run fuel = Some x.

(** The number of nodes of a tree. *)
Fixpoint size (e : expr) : nat :=
  match e with
  | assignment _ v => S (size v)
  | set obj _ v => S (S (size obj + size v))
  | logical_expression l _ r | binary l _ r => S (size l + size r)
  | unary _ x => S (size x)
  | call c args _ =>
      S (size c + match args with
                  | None => 0
                  | Some l => list_sum (map size l)
                  end)
  | get obj _ => S (size obj)
  | grouping x => S (size x)
  | literal _ | this | variable _ | super _ => 1
  end.

(** The tokens an expression can start with. *)
Definition starts_primary (t : token) : bool :=
  match t with
  | NUMBER _ | STRING _ | TRUE | FALSE | NIL | THIS | LPAR | IDENTIFIER _
  | SUPER => true
  | _ => false
  end.

(** [continues k t]: after an expression read at level [k], the token [t]
    would be read as part of it: an operator of the levels [k] and above,
    [(] or [.], which continue a call, and [=] after an [assignment]. *)
Definition continues (k : nat) (t : token) : bool :=
  match t with
  | LPAR | DOT => true
  | EQUAL => k =? 0
  | _ =>
      (operator_at 1 t && (k <=? 1)) || (operator_at 2 t && (k <=? 2))
      || (operator_at 3 t && (k <=? 3)) || (operator_at 4 t && (k <=? 4))
      || (operator_at 5 t && (k <=? 5)) || (operator_at 6 t && (k <=? 6))
  end.

(** The tokens left start with none of those. *)
Definition may_follow (k : nat) (rest : list token) : Prop :=
  match rest with
  | [] => True
  | t :: _ => continues k t = false
  end.

(** Soundness, for a given amount of fuel: what a parsing function returns
    is derived by its rule from the tokens it read. *)
Definition sound_at (f : nat) : Prop :=
  (forall ts e r,
      parse_assignment f ts = Some (e, r) ->
      exists a, ts = a ++ r /\ derives Rule.assignment a e) /\
  (forall k ts e r,
      1 <= k -> parse_binary f k ts = Some (e, r) ->
      exists a, ts = a ++ r /\ derives (rule_at k) a e) /\
  (forall k l ts e r a0,
      1 <= k <= 6 -> derives (rule_at k) a0 l ->
      parse_binary_loop f k l ts = Some (e, r) ->
      exists b, ts = b ++ r /\ derives (rule_at k) (a0 ++ b) e) /\
  (forall ts e r,
      parse_unary f ts = Some (e, r) ->
      exists a, ts = a ++ r /\ derives Rule.unary_expr a e) /\
  (forall ts e r,
      parse_call f ts = Some (e, r) ->
      exists a, ts = a ++ r /\ derives Rule.call a e) /\
  (forall c ts e r a0,
      derives Rule.call a0 c ->
      parse_call_loop f c ts = Some (e, r) ->
      exists b, ts = b ++ r /\ derives Rule.call (a0 ++ b) e) /\
  (forall ts e r,
      parse_primary f ts = Some (e, r) ->
      exists a, ts = a ++ r /\ derives Rule.primary a e) /\
  (forall ts args r,
      parse_arguments f ts = Some (args, r) ->
      exists a, ts = a ++ r /\ derives_arguments a args).

(** Completeness, rule by rule, for one tree: reading the tokens of the tree
    gives the tree back.  For a rule read by a loop the statement is about
    the loop: whatever it returns when it holds the tree is returned by the
    function reading the tokens of the tree first. *)
Definition complete_primary (e : expr) : Prop :=
  prec e = 9 ->
  forall rest,
    eventually (fun f => parse_primary f (tokens_of e ++ rest)) (e, rest).

Definition complete_call (e : expr) : Prop :=
  8 <= prec e ->
  forall rest res,
    eventually (fun f => parse_call_loop f e rest) res ->
    eventually (fun f => parse_call f (tokens_of e ++ rest)) res.

Definition complete_unary (e : expr) : Prop :=
  7 <= prec e ->
  forall rest,
    may_follow 7 rest ->
    eventually (fun f => parse_unary f (tokens_of e ++ rest)) (e, rest).

Definition complete_binary (k : nat) (e : expr) : Prop :=
  k <= prec e ->
  forall rest res,
    may_follow (S k) rest ->
    eventually (fun f => parse_binary_loop f k e rest) res ->
    eventually (fun f => parse_binary f k (tokens_of e ++ rest)) res.

Definition complete_assignment (e : expr) : Prop :=
  forall rest,
    may_follow 0 rest ->
    eventually (fun f => parse_assignment f (tokens_of e ++ rest)) (e, rest).

Definition complete (e : expr) : Prop :=
  complete_primary e /\ complete_call e /\ complete_unary e /\
  (forall k, 1 <= k <= 6 -> complete_binary k e) /\
  complete_assignment e.

End Parser.

(** * Declarations and statements: trees, tokens and the [else] *)

Module Programs.
Import Grammar Precedence Parser.
Local Open Scope list_scope.

(** ** Brackets *)

(** Reading a token sequence from left to right with the closing brackets
    still expected, the innermost first; [None] when a closing bracket
    comes that is not the expected one. *)
Fixpoint brackets (expected : list token) (ts : list token)
  : option (list token) :=
  match ts with
  | [] => Some expected
  | t :: rest =>
      match t with
      | LPAR => brackets (RPAR :: expected) rest
      | LBRACE => brackets (RBRACE :: expected) rest
      | RPAR =>
          match expected with
          | RPAR :: expected' => brackets expected' rest
          | _ => None
          end
      | RBRACE =>
          match expected with
          | RBRACE :: expected' => brackets expected' rest
          | _ => None
          end
      | _ => brackets expected rest
      end
  end.

(** Parentheses and braces are balanced and properly nested. *)
Definition balanced (ts : list token) : bool :=
  match brackets [] ts with
  | Some [] => true
  | _ => false
  end.

(** The tokens open and close brackets of their own only: reading them
    leaves the brackets expected as they were. *)
Definition closed (ts : list token) : Prop :=
  forall expected rest, brackets expected (ts ++ rest) = brackets expected rest.

(** ** First and last tokens *)

(** The tokens an expression can end with. *)
Definition ends_expression (t : token) : bool :=
  match t with
  | NUMBER _ | STRING _ | TRUE | FALSE | NIL | THIS | RPAR | IDENTIFIER _ =>
      true
  | _ => false
  end.

Definition ends_declaration (t : token) : bool :=
  match t with
  | SEMICOLON | RBRACE => true
  | _ => false
  end.

Definition ends_with (p : token -> bool) (ts : list token) : Prop :=
  exists front t, ts = front ++ [t] /\ p t = true.

(** The alternative of [declaration] and [statement] a node belongs to;
    [empty_initializer] is an alternative of neither. *)
Definition alternative_of (s : stmt) : option SRule.t :=
  match s with
  | class_declaration _ _ _ => Some SRule.class_declaration
  | function _ _ _ => Some SRule.function_declaration
  | variable_declaration _ _ => Some SRule.variable_declaration
  | expression_statement _ => Some SRule.expression_statement
  | for_statement _ _ _ _ => Some SRule.for_statement
  | empty_initializer => None
  | if_statement _ _ _ => Some SRule.if_statement
  | print_statement _ => Some SRule.print_statement
  | return_statement _ => Some SRule.return_statement
  | while_statement _ _ => Some SRule.while_statement
  | block _ => Some SRule.block
  end.

(** The alternative a token opens: the keyword or brace of the rules that
    start with one, and for [expression_statement] the tokens an expression
    can start with. *)
Definition alternative_starting_with (t : token) : option SRule.t :=
  match t with
  | CLASS => Some SRule.class_declaration
  | FUN => Some SRule.function_declaration
  | VAR => Some SRule.variable_declaration
  | FOR => Some SRule.for_statement
  | IF => Some SRule.if_statement
  | PRINT => Some SRule.print_statement
  | RETURN => Some SRule.return_statement
  | WHILE => Some SRule.while_statement
  | LBRACE => Some SRule.block
  | _ =>
      if starts_primary t || _unary_operator t
      then Some SRule.expression_statement
      else None
  end.

(** ** The trees of declarations and statements *)

Definition is_function (s : stmt) : bool :=
  match s with function _ _ _ => true | _ => false end.

Definition is_block (s : stmt) : bool :=
  match s with block _ => true | _ => false end.

(** The nodes of the alternatives of [statement]. *)
Definition is_statement_node (s : stmt) : bool :=
  match s with
  | expression_statement _ | for_statement _ _ _ _ | if_statement _ _ _
  | print_statement _ | return_statement _ | while_statement _ _ | block _ =>
      true
  | _ => false
  end.

(** The nodes of the alternatives of [declaration]. *)
Definition is_declaration_node (s : stmt) : bool :=
  match s with
  | empty_initializer => false
  | _ => true
  end.

(** The first child of a [for_statement]. *)
Definition is_initializer (s : stmt) : bool :=
  match s with
  | variable_declaration _ _ | expression_statement _ | empty_initializer =>
      true
  | _ => false
  end.

Definition is_variable (e : expr) : bool :=
  match e with variable _ => true | _ => false end.

Definition optional_ok {A : Type} (p : A -> bool) (o : option A) : bool :=
  match o with
  | None => true
  | Some a => p a
  end.

Definition nonempty {A : Type} (l : list A) : bool :=
  match l with [] => false | _ => true end.

(** The trees the rules can build: every child is a node of the rule the
    grammar has at that place, and every expression respects the precedence
    order. *)
Fixpoint well_formed (s : stmt) : bool :=
  match s with
  | class_declaration _ sup methods =>
      optional_ok is_variable sup
      && forallb (fun m => is_function m && well_formed m) methods
  | function _ params body =>
      optional_ok nonempty params && is_block body && well_formed body
  | variable_declaration _ init => optional_ok respects_precedence init
  | expression_statement e => respects_precedence e
  | for_statement init cond incr body =>
      is_initializer init && well_formed init
      && optional_ok respects_precedence cond
      && optional_ok respects_precedence incr
      && is_statement_node body && well_formed body
  | empty_initializer => true
  | if_statement c th el =>
      respects_precedence c
      && is_statement_node th && well_formed th
      && match el with
         | None => true
         | Some s' => is_statement_node s' && well_formed s'
         end
  | print_statement e => respects_precedence e
  | return_statement value => optional_ok respects_precedence value
  | while_statement c body =>
      respects_precedence c && is_statement_node body && well_formed body
  | block decls =>
      forallb (fun d => is_declaration_node d && well_formed d) decls
  end.

Definition well_formed_program (decls : list stmt) : bool :=
  forallb (fun d => is_declaration_node d && well_formed d) decls.

(** The nodes a rule builds. *)
Definition derived_by (r : SRule.t) (s : stmt) : bool :=
  match r with
  | SRule.declaration => is_declaration_node s
  | SRule.statement => is_statement_node s
  | SRule.class_declaration =>
      match s with class_declaration _ _ _ => true | _ => false end
  | SRule.method | SRule.function_declaration => is_function s
  | SRule.variable_declaration =>
      match s with variable_declaration _ _ => true | _ => false end
  | SRule.for_statement =>
      match s with for_statement _ _ _ _ => true | _ => false end
  | SRule.if_statement =>
      match s with if_statement _ _ _ => true | _ => false end
  | SRule.while_statement =>
      match s with while_statement _ _ => true | _ => false end
  | SRule.block => is_block s
  | SRule.expression_statement =>
      match s with expression_statement _ => true | _ => false end
  | SRule.print_statement =>
      match s with print_statement _ => true | _ => false end
  | SRule.return_statement =>
      match s with return_statement _ => true | _ => false end
  end.

(** ** The tokens of a tree *)

Definition optional_tokens {A : Type} (f : A -> list token) (o : option A)
  : list token :=
  match o with
  | None => []
  | Some a => f a
  end.

(** The token sequence a declaration or statement was built from.  A
    [function] node stands for a function declaration, with [fun] in front,
    or for a method of a class ([in_class]), without. *)
Fixpoint stmt_tokens (in_class : bool) (s : stmt) {struct s} : list token :=
  match s with
  | class_declaration name sup methods =>
      CLASS :: IDENTIFIER name ::
        optional_tokens (fun e => LESSTHAN :: tokens_of e) sup
        ++ LBRACE :: flat_map (stmt_tokens true) methods ++ [RBRACE]
  | function name params body =>
      (if in_class then [] else [FUN])
      ++ IDENTIFIER name :: LPAR :: optional_tokens parameter_tokens params
      ++ RPAR :: stmt_tokens false body
  | variable_declaration name init =>
      VAR :: IDENTIFIER name ::
        optional_tokens (fun e => EQUAL :: tokens_of e) init ++ [SEMICOLON]
  | expression_statement e => tokens_of e ++ [SEMICOLON]
  | for_statement init cond incr body =>
      FOR :: LPAR :: stmt_tokens false init
        ++ optional_tokens tokens_of cond
        ++ SEMICOLON :: optional_tokens tokens_of incr
        ++ RPAR :: stmt_tokens false body
  | empty_initializer => [SEMICOLON]
  | if_statement c th el =>
      IF :: LPAR :: tokens_of c ++ RPAR :: stmt_tokens false th
        ++ match el with
           | None => []
           | Some s' => ELSE :: stmt_tokens false s'
           end
  | print_statement e => PRINT :: tokens_of e ++ [SEMICOLON]
  | return_statement value =>
      RETURN :: optional_tokens tokens_of value ++ [SEMICOLON]
  | while_statement c body =>
      WHILE :: LPAR :: tokens_of c ++ RPAR :: stmt_tokens false body
  | block decls => LBRACE :: flat_map (stmt_tokens false) decls ++ [RBRACE]
  end.

Definition program_tokens (decls : list stmt) : list token :=
  flat_map (stmt_tokens false) decls.

Definition is_method (r : SRule.t) : bool :=
  match r with SRule.method => true | _ => false end.

(** ** The [else] of nested [if] statements *)

(** The statement ends with an [if] that has no [else]: an [else] after it
    could be taken as its own. *)
Fixpoint open_if (s : stmt) : bool :=
  match s with
  | if_statement _ _ None => true
  | if_statement _ _ (Some el) => open_if el
  | while_statement _ body => open_if body
  | for_statement _ _ _ body => open_if body
  | _ => false
  end.

(** Every [else] of the tree belongs to the nearest [if] before it that
    has none yet: no [if] with an [else] has a then-branch ending with an
    [if] without. *)
Fixpoint else_to_nearest_if (s : stmt) : bool :=
  match s with
  | class_declaration _ _ methods => forallb else_to_nearest_if methods
  | function _ _ body => else_to_nearest_if body
  | for_statement init _ _ body =>
      else_to_nearest_if init && else_to_nearest_if body
  | if_statement _ th None => else_to_nearest_if th
  | if_statement _ th (Some el) =>
      negb (open_if th) && else_to_nearest_if th && else_to_nearest_if el
  | while_statement _ body => else_to_nearest_if body
  | block decls => forallb else_to_nearest_if decls
  | variable_declaration _ _ | expression_statement _ | empty_initializer
  | print_statement _ | return_statement _ => true
  end.

(** [attach_else s el]: the statement [s], which ends with an [if] without
    [else], with [el] as the [else] branch of the last such [if]. *)
Fixpoint attach_else (s el : stmt) : stmt :=
  match s with
  | if_statement c th None =>
      if open_if th then if_statement c (attach_else th el) None
      else if_statement c th (Some el)
  | if_statement c th (Some e) => if_statement c th (Some (attach_else e el))
  | while_statement c body => while_statement c (attach_else body el)
  | for_statement init cond incr body =>
      for_statement init cond incr (attach_else body el)
  | _ => s
  end.

(** The tree of the same text in which every [else] belongs to the nearest
    [if]: an [else] whose then-branch ends with an [if] without [else] is
    moved to that [if]. *)
Fixpoint nearest_else (s : stmt) : stmt :=
  match s with
  | class_declaration name sup methods =>
      class_declaration name sup (map nearest_else methods)
  | function name params body => function name params (nearest_else body)
  | for_statement init cond incr body =>
      for_statement (nearest_else init) cond incr (nearest_else body)
  | if_statement c th None => if_statement c (nearest_else th) None
  | if_statement c th (Some el) =>
      let th' := nearest_else th in
      let el' := nearest_else el in
      if open_if th' then if_statement c (attach_else th' el') None
      else if_statement c th' (Some el')
  | while_statement c body => while_statement c (nearest_else body)
  | block decls => block (map nearest_else decls)
  | variable_declaration _ _ | expression_statement _ | empty_initializer
  | print_statement _ | return_statement _ => s
  end.

(** The text holds an [else]. *)
Definition has_else (ts : list token) : bool :=
  existsb (fun t => match t with ELSE => true | _ => false end) ts.

(** The tokens left do not start with [else]. *)
Definition no_else (rest : list token) : Prop :=
  match rest with
  | ELSE :: _ => False
  | _ => True
  end.

(** What follows a list of declarations or methods: the end of the text or
    the closing brace. *)
Definition closing (tail : list token) : Prop :=
  match tail with
  | [] | RBRACE :: _ => True
  | _ => False
  end.

(** The trees among which a text has one reading: well-formed, every
    [else] with the nearest [if] and, for a method, a [function] node. *)
Definition canonical (in_class : bool) (s : stmt) : bool :=
  well_formed s && else_to_nearest_if s
  && (if in_class then is_function s else true).

(** The tokens of [s1], in front of any others, are read as [s1] only. *)
Definition read_in_one_way (in_class : bool) (s1 : stmt) : Prop :=
  forall s2 rest1 rest2,
    canonical in_class s1 = true -> canonical in_class s2 = true ->
    (open_if s1 = true -> no_else rest1) ->
    (open_if s2 = true -> no_else rest2) ->
    stmt_tokens in_class s1 ++ rest1 = stmt_tokens in_class s2 ++ rest2 ->
    s1 = s2 /\ rest1 = rest2.

End Programs.

(** * The parser: syntax errors, the arity limit and the [for] loop *)

Module Ast.
Import Grammar.

(** Modelled from the spec: the statement nodes of the syntax tree the
    parser builds (section 3), which belong to the Python sources that are
    not under [src/].  There is no node for [for]: the parser turns it into
    a block and a [while].  The expression nodes are the trees of the
    grammar, [Grammar.expr]; the parameters of a function are a list, empty
    when there are none; tokens carry no line here, so [return] keeps no
    keyword token. *)
Inductive stmt : Type :=
  | Expression (e : expr)
  | Print (e : expr)
  | Var (name : string) (initializer : option expr)
  | Block (declarations : list stmt)
  | If (condition : expr) (then_branch : stmt) (else_branch : option stmt)
  | While (condition : expr) (body : stmt)
  | Function (name : string) (parameters : list string) (body : stmt)
  | Return (value : option expr)
  | Class (name : string) (superclass : option expr) (methods : list stmt).

End Ast.

Module Syntax.
Import Grammar Parser Programs Ast.
Local Open Scope list_scope.
Local Open Scope nat_scope.

(** Modelled from the spec: what the parser reports (section 4.2) besides
    the tree: a call with more than 255 arguments, a declaration with more
    than 255 parameters, and a syntax error with its message. *)
Inductive report : Type :=
  | too_many_arguments
  | too_many_parameters
  | syntax_error (message : string).

(** Modelled from the spec: the two ways a parsing function of section 4.2
    returns.  [Parsed]: the node read, the tokens not consumed and the
    errors reported so far, those that do not stop the parser.  [Failed]: a
    syntax error, with its message and the tokens not consumed when it was
    found. *)
Inductive result (A : Type) : Type :=
  | Parsed (node : A) (rest : list token) (reported : list report)
  | Failed (message : string) (rest : list token) (reported : list report).
Arguments Parsed {A} node rest reported.
Arguments Failed {A} message rest reported.

(** A parsing function after another: a syntax error ends both ([None]:
    the fuel ran out). *)
Definition and_then {A B : Type} (r : option (result A))
    (k : A -> list token -> list report -> option (result B))
  : option (result B) :=
  match r with
  | None => None
  | Some (Failed message rest reported) => Some (Failed message rest reported)
  | Some (Parsed node rest reported) => k node rest reported
  end.

Definition arity_limit : nat := 255.

(** The report of a list longer than the limit. *)
Definition over_limit {A : Type} (what : report) (l : list A) : list report :=
  if arity_limit <? List.length l then [what] else [].

(** Modelled from the spec: the expression part of the recursive-descent
    parser of section 4.2 (parser.py is not under [src/]), one function per
    level of the precedence order.  [read_assignment] reads the left side
    as an expression and, when [=] follows, converts a [variable] into an
    [assignment] and a [get] into a [set]; any other left side is the
    syntax error with the message of the spec, found with the [=] not
    consumed.  A call with more than 255 arguments is reported and read
    like any other.  The spec words no other message: the others name what
    was expected. *)
Fixpoint read_assignment (fuel : nat) (ts : list token) (reported : list report)
  : option (result expr) :=
  match fuel with
  | O => None
  | S fuel =>
      and_then (read_binary fuel 1 ts reported) (fun e rest reported =>
        match rest with
        | EQUAL :: rest' =>
            match e with
            | variable name =>
                and_then (read_assignment fuel rest' reported)
                  (fun v rest'' reported =>
                     Some (Parsed (assignment name v) rest'' reported))
            | get obj name =>
                and_then (read_assignment fuel rest' reported)
                  (fun v rest'' reported =>
                     Some (Parsed (set obj name v) rest'' reported))
            | _ => Some (Failed "invalid assignment target" rest reported)
            end
        | _ => Some (Parsed e rest reported)
        end)
  end

with read_binary (fuel : nat) (k : nat) (ts : list token)
    (reported : list report) : option (result expr) :=
  match fuel with
  | O => None
  | S fuel =>
      if 7 <=? k then read_unary fuel ts reported
      else
        and_then (read_binary fuel (S k) ts reported) (fun l rest reported =>
          read_binary_loop fuel k l rest reported)
  end

with read_binary_loop (fuel : nat) (k : nat) (l : expr) (ts : list token)
    (reported : list report) : option (result expr) :=
  match fuel with
  | O => None
  | S fuel =>
      match ts with
      | op :: rest =>
          if operator_at k op then
            and_then (read_binary fuel (S k) rest reported)
              (fun r rest' reported =>
                 read_binary_loop fuel k (node_at k l op r) rest' reported)
          else Some (Parsed l ts reported)
      | [] => Some (Parsed l ts reported)
      end
  end

with read_unary (fuel : nat) (ts : list token) (reported : list report)
  : option (result expr) :=
  match fuel with
  | O => None
  | S fuel =>
      match ts with
      | op :: rest =>
          if _unary_operator op then
            and_then (read_unary fuel rest reported) (fun e rest' reported =>
              Some (Parsed (unary op e) rest' reported))
          else read_call fuel ts reported
      | [] => Some (Failed "expect expression" ts reported)
      end
  end

with read_call (fuel : nat) (ts : list token) (reported : list report)
  : option (result expr) :=
  match fuel with
  | O => None
  | S fuel =>
      and_then (read_primary fuel ts reported) (fun e rest reported =>
        read_call_loop fuel e rest reported)
  end

with read_call_loop (fuel : nat) (c : expr) (ts : list token)
    (reported : list report) : option (result expr) :=
  match fuel with
  | O => None
  | S fuel =>
      match ts with
      | LPAR :: RPAR :: rest =>
          read_call_loop fuel (call c None RPAR) rest reported
      | LPAR :: rest =>
          and_then (read_arguments fuel rest reported)
            (fun args rest' reported =>
               match rest' with
               | RPAR :: rest'' =>
                   read_call_loop fuel (call c (Some args) RPAR) rest''
                     (reported ++ over_limit too_many_arguments args)
               | _ => Some (Failed "expect ')' after arguments" rest' reported)
               end)
      | DOT :: IDENTIFIER name :: rest =>
          read_call_loop fuel (get c name) rest reported
      | _ => Some (Parsed c ts reported)
      end
  end

with read_primary (fuel : nat) (ts : list token) (reported : list report)
  : option (result expr) :=
  match fuel with
  | O => None
  | S fuel =>
      match ts with
      | NUMBER text :: rest =>
          Some (Parsed (literal (lit_NUMBER text)) rest reported)
      | STRING text :: rest =>
          Some (Parsed (literal (lit_STRING text)) rest reported)
      | TRUE :: rest => Some (Parsed (literal const_true) rest reported)
      | FALSE :: rest => Some (Parsed (literal const_false) rest reported)
      | NIL :: rest => Some (Parsed (literal const_nil) rest reported)
      | THIS :: rest => Some (Parsed this rest reported)
      | LPAR :: rest =>
          and_then (read_assignment fuel rest reported)
            (fun e rest' reported =>
               match rest' with
               | RPAR :: rest'' => Some (Parsed (grouping e) rest'' reported)
               | _ => Some (Failed "expect ')' after expression" rest' reported)
               end)
      | IDENTIFIER name :: rest => Some (Parsed (variable name) rest reported)
      | SUPER :: DOT :: IDENTIFIER m :: rest =>
          Some (Parsed (super m) rest reported)
      | SUPER :: DOT :: rest =>
          Some (Failed "expect superclass method name" rest reported)
      | SUPER :: rest => Some (Failed "expect '.' after 'super'" rest reported)
      | _ => Some (Failed "expect expression" ts reported)
      end
  end

with read_arguments (fuel : nat) (ts : list token) (reported : list report)
  : option (result (list expr)) :=
  match fuel with
  | O => None
  | S fuel =>
      and_then (read_assignment fuel ts reported) (fun e rest reported =>
        match rest with
        | COMMA :: rest' =>
            and_then (read_arguments fuel rest' reported)
              (fun args rest'' reported =>
                 Some (Parsed (e :: args) rest'' reported))
        | _ => Some (Parsed [e] rest reported)
        end)
  end.

Definition read_expression := read_assignment.

(** What reading the tokens of an expression reports: one error for each
    call of the tree with more than 255 arguments, in the order the calls
    are closed. *)
Fixpoint reports (e : expr) : list report :=
  match e with
  | assignment _ v => reports v
  | set obj _ v => reports obj ++ reports v
  | logical_expression l _ r | binary l _ r => reports l ++ reports r
  | unary _ x => reports x
  | call c args _ =>
      reports c
      ++ match args with
         | None => []
         | Some l => flat_map reports l ++ over_limit too_many_arguments l
         end
  | get obj _ => reports obj
  | grouping x => reports x
  | literal _ | this | variable _ | super _ => []
  end.

(** Modelled from the spec: the desugaring of section 4.2,
    [for (init; cond; incr) body] becomes
    [{ init; while (cond') { body; incr; } }]: the condition is the literal
    [true] when omitted, the increment an expression statement after the
    body when present, and there is no initializer when the
    [empty_initializer] alternative was taken ([init] is then empty). *)
Definition desugar_for (init : list stmt) (cond incr : option expr)
    (body : stmt) : stmt :=
  Block
    (init
     ++ [While
           (match cond with
            | Some c => c
            | None => literal const_true
            end)
           (Block
              (body :: match incr with
                       | Some e => [Expression e]
                       | None => []
                       end))]).

(** [parameters], after the opening parenthesis: identifiers separated by
    commas. *)
Fixpoint read_parameters (ts : list token) : option (list string * list token) :=
  match ts with
  | IDENTIFIER name :: COMMA :: rest =>
      match read_parameters rest with
      | Some (names, rest') => Some (name :: names, rest')
      | None => None
      end
  | IDENTIFIER name :: rest => Some ([name], rest)
  | _ => None
  end.

(** [expression ";"], as a statement or as the initializer of a [for]. *)
Definition read_expression_statement (fuel : nat) (ts : list token)
    (reported : list report) : option (result stmt) :=
  and_then (read_expression fuel ts reported) (fun e rest reported =>
    match rest with
    | SEMICOLON :: rest' => Some (Parsed (Expression e) rest' reported)
    | _ => Some (Failed "expect ';' after expression" rest reported)
    end).

(** [variable_declaration], after [var]. *)
Definition read_variable_declaration (fuel : nat) (ts : list token)
    (reported : list report) : option (result stmt) :=
  match ts with
  | IDENTIFIER name :: SEMICOLON :: rest =>
      Some (Parsed (Var name None) rest reported)
  | IDENTIFIER name :: EQUAL :: rest =>
      and_then (read_expression fuel rest reported) (fun e rest' reported =>
        match rest' with
        | SEMICOLON :: rest'' => Some (Parsed (Var name (Some e)) rest'' reported)
        | _ => Some (Failed "expect ';' after variable declaration" rest' reported)
        end)
  | IDENTIFIER name :: rest =>
      Some (Failed "expect ';' after variable declaration" rest reported)
  | _ => Some (Failed "expect variable name" ts reported)
  end.

(** An optional expression in front of the token [closing], which is not
    consumed. *)
Definition read_optional_expression (closing : token -> bool) (fuel : nat)
    (ts : list token) (reported : list report) : option (result (option expr)) :=
  match ts with
  | t :: _ =>
      if closing t then Some (Parsed None ts reported)
      else
        and_then (read_expression fuel ts reported) (fun e rest reported =>
          Some (Parsed (Some e) rest reported))
  | [] => Some (Failed "expect expression" ts reported)
  end.

Definition is_SEMICOLON (t : token) : bool :=
  match t with SEMICOLON => true | _ => false end.

Definition is_RPAR (t : token) : bool :=
  match t with RPAR => true | _ => false end.

(** The first clause of a [for]: a variable declaration, an expression
    statement or [;] alone, which leaves no statement. *)
Definition read_initializer (fuel : nat) (ts : list token)
    (reported : list report) : option (result (list stmt)) :=
  match ts with
  | SEMICOLON :: rest => Some (Parsed [] rest reported)
  | VAR :: rest =>
      and_then (read_variable_declaration fuel rest reported)
        (fun s rest' reported => Some (Parsed [s] rest' reported))
  | _ =>
      and_then (read_expression_statement fuel ts reported)
        (fun s rest' reported => Some (Parsed [s] rest' reported))
  end.

(** Modelled from the spec: the declaration and statement part of the
    recursive-descent parser of section 4.2 (parser.py is not under
    [src/]), one function per rule of the grammar; the first token selects
    the alternative and an [else] is read with the nearest [if].  A [for]
    is returned desugared; a function or method with more than 255
    parameters is reported and read like any other. *)
Fixpoint read_declaration (fuel : nat) (ts : list token)
    (reported : list report) : option (result stmt) :=
  match fuel with
  | O => None
  | S fuel =>
      match ts with
      | CLASS :: IDENTIFIER name :: LESSTHAN :: IDENTIFIER sup :: LBRACE :: rest =>
          and_then (read_methods fuel rest reported)
            (fun methods rest' reported =>
               match rest' with
               | RBRACE :: rest'' =>
                   Some (Parsed (Class name (Some (variable sup)) methods)
                           rest'' reported)
               | _ => Some (Failed "expect '}' after class body" rest' reported)
               end)
      | CLASS :: IDENTIFIER name :: LESSTHAN :: IDENTIFIER sup :: rest =>
          Some (Failed "expect '{' before class body" rest reported)
      | CLASS :: IDENTIFIER name :: LESSTHAN :: rest =>
          Some (Failed "expect superclass name" rest reported)
      | CLASS :: IDENTIFIER name :: LBRACE :: rest =>
          and_then (read_methods fuel rest reported)
            (fun methods rest' reported =>
               match rest' with
               | RBRACE :: rest'' =>
                   Some (Parsed (Class name None methods) rest'' reported)
               | _ => Some (Failed "expect '}' after class body" rest' reported)
               end)
      | CLASS :: IDENTIFIER name :: rest =>
          Some (Failed "expect '{' before class body" rest reported)
      | CLASS :: rest => Some (Failed "expect class name" rest reported)
      | FUN :: rest => read_function fuel rest reported
      | VAR :: rest => read_variable_declaration fuel rest reported
      | _ => read_statement fuel ts reported
      end
  end

with read_function (fuel : nat) (ts : list token) (reported : list report)
  : option (result stmt) :=
  match fuel with
  | O => None
  | S fuel =>
      match ts with
      | IDENTIFIER name :: LPAR :: RPAR :: rest =>
          and_then (read_block fuel rest reported) (fun body rest' reported =>
            Some (Parsed (Function name [] body) rest' reported))
      | IDENTIFIER name :: LPAR :: rest =>
          match read_parameters rest with
          | Some (params, RPAR :: rest') =>
              and_then
                (read_block fuel rest'
                   (reported ++ over_limit too_many_parameters params))
                (fun body rest'' reported =>
                   Some (Parsed (Function name params body) rest'' reported))
          | Some (_, rest') =>
              Some (Failed "expect ')' after parameters" rest' reported)
          | None => Some (Failed "expect parameter name" rest reported)
          end
      | IDENTIFIER name :: rest =>
          Some (Failed "expect '(' after function name" rest reported)
      | _ => Some (Failed "expect function name" ts reported)
      end
  end

with read_methods (fuel : nat) (ts : list token) (reported : list report)
  : option (result (list stmt)) :=
  match fuel with
  | O => None
  | S fuel =>
      match ts with
      | [] | RBRACE :: _ => Some (Parsed [] ts reported)
      | _ =>
          and_then (read_function fuel ts reported) (fun m rest reported =>
            and_then (read_methods fuel rest reported)
              (fun methods rest' reported =>
                 Some (Parsed (m :: methods) rest' reported)))
      end
  end

with read_statement (fuel : nat) (ts : list token) (reported : list report)
  : option (result stmt) :=
  match fuel with
  | O => None
  | S fuel =>
      match ts with
      | FOR :: LPAR :: rest =>
          and_then (read_initializer fuel rest reported)
            (fun init rest reported =>
          and_then (read_optional_expression is_SEMICOLON fuel rest reported)
            (fun cond rest reported =>
          match rest with
          | SEMICOLON :: rest =>
              and_then (read_optional_expression is_RPAR fuel rest reported)
                (fun incr rest reported =>
              match rest with
              | RPAR :: rest =>
                  and_then (read_statement fuel rest reported)
                    (fun body rest reported =>
                       Some (Parsed (desugar_for init cond incr body)
                               rest reported))
              | _ => Some (Failed "expect ')' after for clauses" rest reported)
              end)
          | _ => Some (Failed "expect ';' after loop condition" rest reported)
          end))
      | FOR :: rest => Some (Failed "expect '(' after 'for'" rest reported)
      | IF :: LPAR :: rest =>
          and_then (read_expression fuel rest reported)
            (fun c rest reported =>
          match rest with
          | RPAR :: rest =>
              and_then (read_statement fuel rest reported)
                (fun th rest reported =>
              match rest with
              | ELSE :: rest =>
                  and_then (read_statement fuel rest reported)
                    (fun el rest reported =>
                       Some (Parsed (If c th (Some el)) rest reported))
              | _ => Some (Parsed (If c th None) rest reported)
              end)
          | _ => Some (Failed "expect ')' after if condition" rest reported)
          end)
      | IF :: rest => Some (Failed "expect '(' after 'if'" rest reported)
      | PRINT :: rest =>
          and_then (read_expression fuel rest reported)
            (fun e rest reported =>
          match rest with
          | SEMICOLON :: rest => Some (Parsed (Print e) rest reported)
          | _ => Some (Failed "expect ';' after value" rest reported)
          end)
      | RETURN :: rest =>
          and_then (read_optional_expression is_SEMICOLON fuel rest reported)
            (fun value rest reported =>
          match rest with
          | SEMICOLON :: rest => Some (Parsed (Return value) rest reported)
          | _ => Some (Failed "expect ';' after return value" rest reported)
          end)
      | WHILE :: LPAR :: rest =>
          and_then (read_expression fuel rest reported)
            (fun c rest reported =>
          match rest with
          | RPAR :: rest =>
              and_then (read_statement fuel rest reported)
                (fun body rest reported =>
                   Some (Parsed (While c body) rest reported))
          | _ => Some (Failed "expect ')' after condition" rest reported)
          end)
      | WHILE :: rest => Some (Failed "expect '(' after 'while'" rest reported)
      | LBRACE :: _ => read_block fuel ts reported
      | _ => read_expression_statement fuel ts reported
      end
  end

with read_block (fuel : nat) (ts : list token) (reported : list report)
  : option (result stmt) :=
  match fuel with
  | O => None
  | S fuel =>
      match ts with
      | LBRACE :: rest =>
          and_then (read_declarations fuel rest reported)
            (fun decls rest' reported =>
               match rest' with
               | RBRACE :: rest'' => Some (Parsed (Block decls) rest'' reported)
               | _ => Some (Failed "expect '}' after block" rest' reported)
               end)
      | _ => Some (Failed "expect '{' before body" ts reported)
      end
  end

with read_declarations (fuel : nat) (ts : list token) (reported : list report)
  : option (result (list stmt)) :=
  match fuel with
  | O => None
  | S fuel =>
      match ts with
      | [] | RBRACE :: _ => Some (Parsed [] ts reported)
      | _ =>
          and_then (read_declaration fuel ts reported) (fun d rest reported =>
            and_then (read_declarations fuel rest reported)
              (fun decls rest' reported =>
                 Some (Parsed (d :: decls) rest' reported)))
      end
  end.

(** Modelled from the spec: the synchronization of section 4.2, after a
    syntax error: tokens are discarded until a [;], discarded as well, or a
    token that begins a statement. *)
Definition begins_statement (t : token) : bool :=
  match t with
  | CLASS | FUN | VAR | FOR | IF | WHILE | PRINT | RETURN => true
  | _ => false
  end.

Fixpoint synchronize (ts : list token) : list token :=
  match ts with
  | [] => []
  | SEMICOLON :: rest => rest
  | t :: rest => if begins_statement t then ts else synchronize rest
  end.

(** Modelled from the spec: a program is read declaration by declaration;
    a syntax error is reported, the parser synchronizes and resumes.  The
    result is the declarations read and everything reported. *)
Fixpoint read_program (fuel : nat) (ts : list token) (reported : list report)
  : option (list stmt * list report) :=
  match fuel with
  | O => None
  | S fuel =>
      match ts with
      | [] => Some ([], reported)
      | t :: after =>
          match read_declaration fuel ts reported with
          | None => None
          | Some (Parsed d rest reported') =>
              match read_program fuel rest reported' with
              | Some (decls, all) => Some (d :: decls, all)
              | None => None
              end
          | Some (Failed message rest reported') =>
              read_program fuel (synchronize rest)
                (reported' ++ [syntax_error message])
          end
      end
  end.

(** ** The tree of the grammar and the tree of the parser *)

(** The statement a tree of the grammar stands for: node for node, except
    that a [for_statement] is its desugaring. *)
Fixpoint ast_of (s : Grammar.stmt) : Ast.stmt :=
  match s with
  | class_declaration name sup methods => Class name sup (map ast_of methods)
  | function name params body =>
      Function name (match params with Some l => l | None => [] end)
        (ast_of body)
  | variable_declaration name init => Var name init
  | expression_statement e => Expression e
  | for_statement init cond incr body =>
      desugar_for
        (match init with
         | empty_initializer => []
         | _ => [ast_of init]
         end)
        cond incr (ast_of body)
  | empty_initializer => Block []
  | if_statement c th el =>
      If c (ast_of th)
        (match el with
         | Some s' => Some (ast_of s')
         | None => None
         end)
  | print_statement e => Print e
  | return_statement value => Return value
  | while_statement c body => While c (ast_of body)
  | block decls => Block (map ast_of decls)
  end.

Definition optional_reports (o : option expr) : list report :=
  match o with
  | Some e => reports e
  | None => []
  end.

(** What reading the tokens of a declaration or statement reports, in the
    order of the text. *)
Fixpoint stmt_reports (s : Grammar.stmt) : list report :=
  match s with
  | class_declaration _ _ methods => flat_map stmt_reports methods
  | function _ params body =>
      match params with
      | Some l => over_limit too_many_parameters l
      | None => []
      end ++ stmt_reports body
  | variable_declaration _ init => optional_reports init
  | expression_statement e => reports e
  | for_statement init cond incr body =>
      stmt_reports init ++ optional_reports cond ++ optional_reports incr
      ++ stmt_reports body
  | empty_initializer => []
  | if_statement c th el =>
      reports c ++ stmt_reports th
      ++ match el with
         | Some s' => stmt_reports s'
         | None => []
         end
  | print_statement e => reports e
  | return_statement value => optional_reports value
  | while_statement c body => reports c ++ stmt_reports body
  | block decls => flat_map stmt_reports decls
  end.

(** The text of the desugared form of a [for] statement,
    [{ init while ( cond' ) { body incr ; } }]: [init] ends with its own
    [;], the condition is [true] when omitted. *)
Definition desugared_tokens (init : Grammar.stmt) (cond incr : option expr)
    (body : Grammar.stmt) : list token :=
  LBRACE
    :: match init with
       | empty_initializer => []
       | _ => stmt_tokens false init
       end
    ++ WHILE :: LPAR
    :: match cond with
       | Some c => Precedence.tokens_of c
       | None => [TRUE]
       end
    ++ RPAR :: LBRACE
    :: stmt_tokens false body
    ++ match incr with
       | Some e => Precedence.tokens_of e ++ [SEMICOLON]
       | None => []
       end
    ++ [RBRACE; RBRACE].

(** The tree the grammar gives the desugared text: a block holding the
    initializer, if any, and a [while] whose body is a block holding the
    body of the [for] and the increment, if any, as a statement. *)
Definition desugared_tree (init : Grammar.stmt) (cond incr : option expr)
    (body : Grammar.stmt) : Grammar.stmt :=
  block
    (match init with
     | empty_initializer => []
     | _ => [init]
     end
     ++ [while_statement
           (match cond with
            | Some c => c
            | None => literal const_true
            end)
           (block
              (body :: match incr with
                       | Some e => [expression_statement e]
                       | None => []
                       end))]).

(** ** What is proved of the parser, function by function *)

(** The parser with errors reads what the parsing functions of the grammar
    read, and reports the calls over the limit. *)
Definition reads_as (f : nat) : Prop :=
  (forall ts e r rep,
      parse_assignment f ts = Some (e, r) ->
      read_assignment f ts rep = Some (Parsed e r (rep ++ reports e))) /\
  (forall k ts e r rep,
      parse_binary f k ts = Some (e, r) ->
      read_binary f k ts rep = Some (Parsed e r (rep ++ reports e))) /\
  (forall k l ts e r rep,
      parse_binary_loop f k l ts = Some (e, r) ->
      read_binary_loop f k l ts (rep ++ reports l)
      = Some (Parsed e r (rep ++ reports e))) /\
  (forall ts e r rep,
      parse_unary f ts = Some (e, r) ->
      read_unary f ts rep = Some (Parsed e r (rep ++ reports e))) /\
  (forall ts e r rep,
      parse_call f ts = Some (e, r) ->
      read_call f ts rep = Some (Parsed e r (rep ++ reports e))) /\
  (forall c ts e r rep,
      parse_call_loop f c ts = Some (e, r) ->
      read_call_loop f c ts (rep ++ reports c)
      = Some (Parsed e r (rep ++ reports e))) /\
  (forall ts e r rep,
      parse_primary f ts = Some (e, r) ->
      read_primary f ts rep = Some (Parsed e r (rep ++ reports e))) /\
  (forall ts args r rep,
      parse_arguments f ts = Some (args, r) ->
      read_arguments f ts rep
      = Some (Parsed args r (rep ++ flat_map reports args))).

(** Reading the tokens of a tree of the grammar gives the statement the
    tree stands for and reports what the tree holds over the limit: through
    [read_declaration] for a node of [declaration], [read_statement] for a
    node of [statement], [read_function] for a method and [read_block] for
    a block. *)
Definition reads_stmt (s : Grammar.stmt) : Prop :=
  well_formed s = true -> else_to_nearest_if s = true ->
  forall rest rep,
    (open_if s = true -> no_else rest) ->
    (is_declaration_node s = true ->
     eventually (fun f => read_declaration f (stmt_tokens false s ++ rest) rep)
       (Parsed (ast_of s) rest (rep ++ stmt_reports s))) /\
    (is_statement_node s = true ->
     eventually (fun f => read_statement f (stmt_tokens false s ++ rest) rep)
       (Parsed (ast_of s) rest (rep ++ stmt_reports s))) /\
    (is_function s = true ->
     eventually (fun f => read_function f (stmt_tokens true s ++ rest) rep)
       (Parsed (ast_of s) rest (rep ++ stmt_reports s))) /\
    (is_block s = true ->
     eventually (fun f => read_block f (stmt_tokens false s ++ rest) rep)
       (Parsed (ast_of s) rest (rep ++ stmt_reports s))).

End Syntax.

(** * Facts about text *)

Module TextFacts.
Import Text.

Lemma append_nil_r (s : string) : s ++ "" = s.
Proof. induction s as [|c s IH]; simpl; [reflexivity | now rewrite IH]. Qed.

Lemma append_assoc (a b c : string) : (a ++ b) ++ c = a ++ (b ++ c).
Proof. induction a as [|x a IH]; simpl; [reflexivity | now rewrite IH]. Qed.

Lemma length_append (a b : string) :
  String.length (a ++ b) = (String.length a + String.length b)%nat.
Proof. induction a as [|x a IH]; simpl; [reflexivity | now rewrite IH]. Qed.

Lemma all_chars_append p a b :
  all_chars p (a ++ b) = all_chars p a && all_chars p b.
Proof.
  induction a as [|x a IH]; simpl; [reflexivity|].
  now rewrite IH, andb_assoc.
Qed.

Lemma count_newlines_append a b :
  count_newlines (a ++ b) = count_newlines a + count_newlines b.
Proof. induction a as [|x a IH]; simpl; [reflexivity | rewrite IH; lia]. Qed.

(** What [span] returns: the text split in two, the first part made of
    characters of the class, the second not starting with one. *)
Lemma span_spec p s taken more :
  span p s = (taken, more) ->
  s = taken ++ more /\ all_chars p taken = true /\
  match more with
  | EmptyString => True
  | String c _ => p c = false
  end.
Proof.
  revert taken more. induction s as [|c s IH]; intros taken more H; simpl in H.
  - inversion H; subst. repeat split.
  - destruct (p c) eqn:Hc.
    + destruct (span p s) as [t m]. inversion H; subst.
      destruct (IH t more eq_refl) as (-> & Hall & Hmore).
      repeat split; simpl; [now rewrite Hc, Hall | exact Hmore].
    + inversion H; subst. repeat split. exact Hc.
Qed.

(** [span] takes the longest such prefix. *)
Lemma span_longest p a :
  forall r taken more,
    all_chars p a = true -> span p (a ++ r) = (taken, more) ->
    exists a', taken = a ++ a' /\ span p r = (a', more).
Proof.
  induction a as [|c a IH]; intros r taken more Hall H; simpl in *.
  - exists taken. split; [reflexivity | exact H].
  - apply andb_prop in Hall. destruct Hall as [Hc Hall]. rewrite Hc in H.
    destruct (span p (a ++ r)) as [t m] eqn:E. inversion H; subst.
    destruct (IH r t more Hall E) as (a' & -> & Hr).
    exists a'. split; [reflexivity | exact Hr].
Qed.

End TextFacts.

(** * Facts about clox's [compile] *)

Module CloxFacts.
Import Clox TextFacts.

Section Compile.

Context `{api : ScannerApi}.

(** Whatever branch is taken, [line] holds the line of the token just
    printed when the iteration ends. *)
Lemma print_line_prefix_line token l :
  snd (print_line_prefix token l) = line token.
Proof.
  unfold print_line_prefix.
  destruct (Z.eqb_spec (line token) l) as [E|E]; simpl; congruence.
Qed.

Lemma print_line_prefix_listing token l :
  fst (print_line_prefix token l) = listing_prefix (Some l) token.
Proof.
  unfold print_line_prefix, listing_prefix.
  destruct (line token =? l); reflexivity.
Qed.

Lemma first_eof_at_next sc n :
  first_eof_at sc (S n) -> first_eof_at (snd (scanToken sc)) n.
Proof.
  intros [Heof Hbefore]. split.
  - exact Heof.
  - intros i Hi. apply (Hbefore (S i)). lia.
Qed.

Lemma compile_loop_listing n :
  forall sc l fuel,
    first_eof_at sc n ->
    compile_loop fuel sc l =
      if (n <? fuel)%nat then Some (listing (Some l) (take_tokens n sc)) else None.
Proof.
  induction n as [|n IH]; intros sc l fuel Hfirst.
  - destruct fuel as [|fuel]; [reflexivity|].
    destruct Hfirst as [Heof _]. unfold nth_token in Heof. simpl in Heof.
    cbn [compile_loop take_tokens].
    destruct (scanToken sc) as [token sc'] eqn:Hscan. simpl in Heof.
    pose proof (print_line_prefix_listing token l) as Hpre.
    destruct (print_line_prefix token l) as [pre l']. simpl in Hpre.
    rewrite Heof, Z.eqb_refl. subst pre.
    cbn [listing]. now rewrite append_nil_r.
  - destruct fuel as [|fuel]; [reflexivity|].
    pose proof (first_eof_at_next _ _ Hfirst) as Hnext.
    destruct Hfirst as [_ Hbefore].
    specialize (Hbefore O ltac:(lia)). unfold nth_token in Hbefore.
    simpl in Hbefore.
    cbn [compile_loop take_tokens].
    destruct (scanToken sc) as [token sc'] eqn:Hscan. simpl in Hbefore, Hnext.
    pose proof (print_line_prefix_listing token l) as Hpre.
    pose proof (print_line_prefix_line token l) as Hline.
    destruct (print_line_prefix token l) as [pre l']. simpl in Hpre, Hline.
    subst pre l'.
    destruct (Z.eqb_spec (type token) TOKEN_EOF) as [E|_]; [contradiction|].
    rewrite (IH sc' (line token) fuel Hnext).
    change (S n <? S fuel)%nat with (n <? fuel)%nat.
    destruct (n <? fuel)%nat; [|reflexivity].
    cbn [listing]. now rewrite append_assoc.
Qed.

Lemma listing_first_token l tokens :
  match tokens with
  | [] => True
  | token :: _ => line token <> l
  end ->
  listing (Some l) tokens = listing None tokens.
Proof.
  destruct tokens as [|token rest]; [reflexivity|].
  intros Hne. cbn [listing listing_prefix].
  destruct (Z.eqb_spec (line token) l); [contradiction | reflexivity].
Qed.

Lemma take_tokens_length n : forall sc, List.length (take_tokens n sc) = S n.
Proof.
  induction n as [|n IH]; intros sc; simpl;
    destruct (scanToken sc) as [token sc']; simpl; [reflexivity|].
  now rewrite IH.
Qed.

Lemma take_tokens_head n sc :
  exists rest, take_tokens n sc = nth_token sc 0 :: rest.
Proof.
  unfold nth_token. simpl.
  destruct n; simpl; destruct (scanToken sc) as [token sc']; simpl; eauto.
Qed.

End Compile.

End CloxFacts.

(** * Facts about the grammar *)

Module GrammarFacts.
Import Grammar Precedence.
Local Open Scope list_scope.
Local Open Scope nat_scope.

(** An induction principle for [expr] that reaches the arguments of a call. *)
Lemma expr_ind' (P : expr -> Prop) :
  (forall name v, P v -> P (assignment name v)) ->
  (forall obj name v, P obj -> P v -> P (set obj name v)) ->
  (forall l op r, P l -> P r -> P (logical_expression l op r)) ->
  (forall l op r, P l -> P r -> P (binary l op r)) ->
  (forall op x, P x -> P (unary op x)) ->
  (forall c paren, P c -> P (call c None paren)) ->
  (forall c args paren, P c -> Forall P args -> P (call c (Some args) paren)) ->
  (forall obj name, P obj -> P (get obj name)) ->
  (forall c, P (literal c)) ->
  P this ->
  (forall x, P x -> P (grouping x)) ->
  (forall name, P (variable name)) ->
  (forall m, P (super m)) ->
  forall e, P e.
Proof.
  intros Hassign Hset Hlog Hbin Hun Hcall0 Hcall Hget Hlit Hthis Hgrp Hvar Hsup.
  fix IH 1. intros [name v|obj name v|l op r|l op r|op x|c [args|] paren
                    |obj name|c| |x|name|m].
  - apply Hassign, IH.
  - apply Hset; apply IH.
  - apply Hlog; apply IH.
  - apply Hbin; apply IH.
  - apply Hun, IH.
  - apply Hcall; [apply IH|].
    induction args as [|a args IHargs]; constructor; [apply IH | exact IHargs].
  - apply Hcall0, IH.
  - apply Hget, IH.
  - apply Hlit.
  - apply Hthis.
  - apply Hgrp, IH.
  - apply Hvar.
  - apply Hsup.
Qed.

(** A rule derives whatever a tighter rule derives: the first alternative of
    each [?rule] passes the tree on unchanged. *)
Lemma derives_looser r r' ts e :
  derives r ts e -> level r' <= level r -> derives r' ts e.
Proof.
  intros H Hle.
  assert (Ha : r = Rule.expression -> derives Rule.assignment ts e)
    by (intros ->; inversion H; assumption).
  destruct r; destruct r'; simpl in Hle; try lia;
    try specialize (Ha eq_refl);
    repeat first
      [ assumption
      | apply d_expression | apply d_assignment_logic_or
      | apply d_logic_or_logic_and | apply d_logic_and_equality
      | apply d_equality_comparison | apply d_comparison_term
      | apply d_term_factor | apply d_factor_unary_expr
      | apply d_unary_expr_call | apply d_call_primary ].
Qed.

Ltac split_andb :=
  repeat match goal with
         | H : _ && _ = true |- _ => apply andb_prop in H; destruct H
         | |- _ && _ = true => apply andb_true_intro; split
         | H : (_ <=? _) = true |- _ => apply Nat.leb_le in H
         | |- (_ <=? _) = true => apply Nat.leb_le
         end.

Ltac destruct_operator :=
  match goal with
  | H : _logic_or_operator ?op = true |- _ => destruct op; try discriminate H
  | H : _logic_and_operator ?op = true |- _ => destruct op; try discriminate H
  | H : _equality_operator ?op = true |- _ => destruct op; try discriminate H
  | H : _comparison_operator ?op = true |- _ => destruct op; try discriminate H
  | H : _addition_operator ?op = true |- _ => destruct op; try discriminate H
  | H : _multipication_operator ?op = true |- _ =>
      destruct op; try discriminate H
  | H : _unary_operator ?op = true |- _ => destruct op; try discriminate H
  end.

Local Arguments Nat.leb : simpl never.

Lemma comma_separated_cons ts tss :
  tss <> [] -> comma_separated (ts :: tss) = ts ++ COMMA :: comma_separated tss.
Proof. destruct tss; [congruence | reflexivity]. Qed.

(** From derivations to trees: what a rule derives respects the precedence
    order, binds at least as tightly as the rule, and spells the tokens. *)
Lemma derives_shape :
  (forall r ts e,
      derives r ts e ->
      respects_precedence e = true /\ level r <= prec e /\ tokens_of e = ts) /\
  (forall ts args,
      derives_arguments ts args ->
      args <> [] /\ forallb respects_precedence args = true /\
      comma_separated (map tokens_of args) = ts).
Proof.
  apply derives_mutind; intros;
    repeat match goal with
           | H : _ /\ _ |- _ => destruct H
           end;
    try destruct_operator;
    unfold prec in *; simpl in *; subst;
    try (repeat split; solve [ lia | reflexivity | assumption | congruence
                             | split_andb; solve [assumption | lia] ]).
  - (* a call with arguments *)
    repeat split; try lia.
    destruct args as [|a args]; [congruence|].
    unfold prec. split_andb; solve [assumption | lia | reflexivity].
  - (* one more argument *)
    repeat split; try congruence.
    + split_andb; assumption.
    + destruct args as [|b args]; [congruence | reflexivity].
Qed.

Ltac lvl := unfold prec in *; simpl in *; lia.

(** From trees to derivations: a tree that respects the precedence order is
    derived, from its own tokens, by every rule that binds no tighter than
    its root. *)
Lemma respects_precedence_derives e :
  respects_precedence e = true ->
  forall r, level r <= prec e -> derives r (tokens_of e) e.
Proof.
  induction e using expr_ind'; intros Hwf rule Hle;
    cbn [respects_precedence] in Hwf; split_andb; cbn [tokens_of].
  - apply derives_looser with (r := Rule.assignment); [|lvl].
    apply d_assignment. apply IHe; [assumption | lvl].
  - apply derives_looser with (r := Rule.assignment); [|lvl].
    apply d_set; [apply IHe1 | apply IHe2]; solve [assumption | lvl].
  - unfold is_logical_operator in *.
    destruct op; try discriminate; unfold prec in *; simpl in *.
    + apply derives_looser with (r := Rule.logic_or); [|lvl].
      apply d_logic_or; [apply IHe1 | reflexivity | apply IHe2];
        solve [assumption | lvl].
    + apply derives_looser with (r := Rule.logic_and); [|lvl].
      apply d_logic_and; [apply IHe1 | reflexivity | apply IHe2];
        solve [assumption | lvl].
  - unfold is_binary_operator in *.
    destruct op; try discriminate; unfold prec in *; simpl in *.
    1-2: apply derives_looser with (r := Rule.equality); [|lvl];
      apply d_equality; [apply IHe1 | reflexivity | apply IHe2];
        solve [assumption | lvl].
    1-4: apply derives_looser with (r := Rule.comparison); [|lvl];
      apply d_comparison; [apply IHe1 | reflexivity | apply IHe2];
        solve [assumption | lvl].
    1-2: apply derives_looser with (r := Rule.term); [|lvl];
      apply d_term; [apply IHe1 | reflexivity | apply IHe2];
        solve [assumption | lvl].
    1-2: apply derives_looser with (r := Rule.factor); [|lvl];
      apply d_factor; [apply IHe1 | reflexivity | apply IHe2];
        solve [assumption | lvl].
  - apply derives_looser with (r := Rule.unary_expr);
      [|lvl].
    apply d_unary; [assumption|]. apply IHe; assumption.
  - destruct paren; try discriminate.
    apply derives_looser with (r := Rule.call);
      [|lvl].
    apply (d_call_no_arguments (tokens_of e)). apply IHe; assumption.
  - destruct paren; try discriminate.
    apply derives_looser with (r := Rule.call);
      [|lvl].
    apply d_call; [apply IHe; assumption|].
    destruct args as [|a args]; [discriminate|].
    match goal with H : forallb _ _ = true |- _ => revert H end.
    match goal with H : Forall _ _ |- _ => revert H end.
    clear. revert a. induction args as [|b args IHargs]; intros a HF Hall.
    + apply Forall_inv in HF. simpl in Hall. split_andb.
      apply d_arguments_one. apply HF; [assumption | lvl].
    + rewrite map_cons, comma_separated_cons by discriminate.
      pose proof (Forall_inv HF) as Ha. apply Forall_inv_tail in HF.
      cbn [forallb] in Hall. apply andb_prop in Hall. destruct Hall as [Hwa Hall].
      apply d_arguments_more.
      * apply Ha; [assumption | lvl].
      * apply IHargs; assumption.
  - apply derives_looser with (r := Rule.call);
      [|lvl].
    apply (d_get (tokens_of e)). apply IHe; assumption.
  - apply derives_looser with (r := Rule.primary);
      [|lvl].
    destruct c; constructor.
  - apply derives_looser with (r := Rule.primary);
      [|lvl].
    constructor.
  - apply derives_looser with (r := Rule.primary);
      [|lvl].
    apply d_grouping. apply IHe; [assumption | lvl].
  - apply derives_looser with (r := Rule.primary);
      [|lvl].
    constructor.
  - apply derives_looser with (r := Rule.primary);
      [|lvl].
    constructor.
Qed.

(** ** Operators and node variants *)

Lemma filter_operator_app (a b : list token) :
  filter is_operator_token (a ++ b)
  = filter is_operator_token a ++ filter is_operator_token b.
Proof. apply filter_app. Qed.

Lemma derives_operator_nodes :
  (forall r ts e,
      derives r ts e ->
      map snd (operator_nodes e) = filter is_operator_token ts /\
      Forall (fun vo => variant_carries (fst vo) (snd vo) = true)
        (operator_nodes e)) /\
  (forall ts args,
      derives_arguments ts args ->
      map snd (flat_map operator_nodes args) = filter is_operator_token ts /\
      Forall (fun vo => variant_carries (fst vo) (snd vo) = true)
        (flat_map operator_nodes args)).
Proof.
  apply derives_mutind; intros;
    repeat match goal with
           | H : _ /\ _ |- _ => destruct H
           end;
    try destruct_operator;
    cbn [operator_nodes flat_map];
    repeat (rewrite ?map_app, ?map_cons, ?filter_operator_app, ?app_nil_r;
            cbn [filter is_operator_token is_logical_operator
                   is_binary_operator _logic_or_operator _logic_and_operator
                   _equality_operator _comparison_operator _addition_operator
                   _multipication_operator _unary_operator orb snd map app]);
    (split;
     [ congruence
     | repeat first [ assumption
                    | apply Forall_app; split
                    | apply Forall_cons; [reflexivity|]
                    | apply Forall_nil ] ]).
Qed.

(** ** [super] *)

Lemma super_well_placed_app a b :
  super_well_placed a = true ->
  super_well_placed (a ++ b) = super_well_placed b.
Proof.
  induction a as [|t a IH]; intros Ha; [reflexivity|].
  destruct t; cbn [super_well_placed app] in *; try (apply IH; exact Ha).
  destruct a as [|[] a]; try discriminate Ha.
  destruct a as [|[] a]; try discriminate Ha.
  cbn [app]. apply IH. exact Ha.
Qed.

Lemma super_well_placed_app_true a b :
  super_well_placed a = true -> super_well_placed b = true ->
  super_well_placed (a ++ b) = true.
Proof. intros Ha Hb. now rewrite super_well_placed_app. Qed.

Lemma super_well_placed_cons t a :
  t <> SUPER -> super_well_placed a = true -> super_well_placed (t :: a) = true.
Proof. intros Ht Ha. destruct t; try exact Ha. congruence. Qed.

Ltac super_placed :=
  repeat first
    [ assumption
    | reflexivity
    | apply super_well_placed_app_true
    | apply super_well_placed_cons; [discriminate|] ].

Lemma derives_super_well_placed :
  (forall r ts e, derives r ts e -> super_well_placed ts = true) /\
  (forall ts args, derives_arguments ts args -> super_well_placed ts = true).
Proof.
  apply derives_mutind; intros; try destruct_operator; super_placed.
Qed.

Lemma optional_super_well_placed {A} (P : list token -> A -> Prop) ts o :
  (forall ts a, P ts a -> super_well_placed ts = true) ->
  optional P ts o -> super_well_placed ts = true.
Proof. intros HP [|ts' a H]; [reflexivity | eapply HP, H]. Qed.

Lemma parameters_super_well_placed ts names :
  derives_parameters ts names -> super_well_placed ts = true.
Proof. induction 1; super_placed. Qed.

Lemma superclass_super_well_placed ts e :
  derives_superclass ts e -> super_well_placed ts = true.
Proof. intros (name & -> & _). reflexivity. Qed.

Lemma derives_stmt_super_well_placed :
  (forall r ts s, derives_stmt r ts s -> super_well_placed ts = true) /\
  (forall ts l, derives_declarations ts l -> super_well_placed ts = true) /\
  (forall ts l, derives_methods ts l -> super_well_placed ts = true).
Proof.
  pose proof (proj1 derives_super_well_placed) as He.
  apply derives_stmt_mutind; intros;
    repeat match goal with
           | H : optional (derives _) _ _ |- _ =>
               apply (optional_super_well_placed _ _ _ (He _)) in H
           | H : optional derives_parameters _ _ |- _ =>
               apply (optional_super_well_placed _ _ _
                        parameters_super_well_placed) in H
           | H : optional derives_superclass _ _ |- _ =>
               apply (optional_super_well_placed _ _ _
                        superclass_super_well_placed) in H
           | H : derives _ _ _ |- _ => apply He in H
           end;
    super_placed.
Qed.

Lemma super_well_placed_occurrence pre post :
  super_well_placed (pre ++ SUPER :: post) = true ->
  exists m post', post = DOT :: IDENTIFIER m :: post'.
Proof.
  induction pre as [|t pre IH]; intros H.
  - cbn [app super_well_placed] in H.
    destruct post as [|[] post]; try discriminate H.
    destruct post as [|[] post]; try discriminate H.
    eauto.
  - destruct t; cbn [app super_well_placed] in H; try (apply IH; exact H).
    destruct (pre ++ SUPER :: post) as [|[] l] eqn:E; try discriminate H.
    destruct l as [|[] l]; try discriminate H.
    apply IH. exact H.
Qed.

(** ** Argument and parameter lists *)

Lemma arguments_of_any_length tss :
  forall es,
    Forall2 (derives Rule.expression) tss es -> es <> [] ->
    derives_arguments (comma_separated tss) es.
Proof.
  induction tss as [|ts tss IH]; intros es HF Hne.
  - inversion HF; subst. congruence.
  - inversion HF as [|? e ? es' He HF']; subst.
    destruct tss as [|ts' tss].
    + inversion HF'; subst. apply d_arguments_one, He.
    + rewrite comma_separated_cons by discriminate.
      apply d_arguments_more; [exact He|].
      apply IH; [exact HF'|]. inversion HF'; discriminate.
Qed.

Lemma parameters_of_any_length names :
  names <> [] -> derives_parameters (parameter_tokens names) names.
Proof.
  unfold parameter_tokens.
  induction names as [|name names IH]; intros Hne; [congruence|].
  destruct names as [|name' names].
  - apply d_parameters_one.
  - rewrite map_cons, comma_separated_cons by discriminate.
    apply d_parameters_more. apply IH. discriminate.
Qed.

(** ** Precedence, node variants, [super] and arity *)

(** C8. The trees a rule derives are exactly the trees that respect the
    precedence order and bind at least as tightly as the rule, the rules
    being ordered from [assignment] (loosest) through [logic_or],
    [logic_and], [equality], [comparison], [term], [factor], [unary_expr]
    and [call] to [primary] (tightest): binary and logical nodes associate
    to the left, assignments and prefix operators nest to the right, calls
    and property accesses to the left. *)
Theorem grammar_implements_precedence_order (r : Rule.t) (ts : list token)
    (e : expr) :
  (derives r ts e <->
   respects_precedence e = true /\ level r <= prec e /\ tokens_of e = ts) /\
  map level
    [Rule.assignment; Rule.logic_or; Rule.logic_and; Rule.equality;
     Rule.comparison; Rule.term; Rule.factor; Rule.unary_expr; Rule.call;
     Rule.primary]
  = [0; 1; 2; 3; 4; 5; 6; 7; 8; 9].
Proof.
  split; [|reflexivity]. split.
  - apply (proj1 derives_shape).
  - intros (Hwf & Hle & <-). now apply respects_precedence_derives.
Qed.

(** C9. In a derived tree the operator nodes are, in order, the operator
    tokens of the source; [or] and [and] sit in [logical_expression] nodes
    and nowhere else, the equality, comparison, addition and multiplication
    operators in [binary] nodes (a [-] possibly in a [unary] node, as
    prefix), and a [binary] node never carries [or] or [and]. *)
Theorem logical_and_binary_nodes_are_distinct (r : Rule.t) (ts : list token)
    (e : expr) :
  derives r ts e ->
  map snd (operator_nodes e) = filter is_operator_token ts /\
  Forall (fun vo : node_variant * token =>
            let (v, op) := vo in
            (v = logical_node <-> is_logical_operator op = true) /\
            (v = binary_node -> is_binary_operator op = true) /\
            (is_binary_operator op = true -> op <> MINUS -> v = binary_node))
    (operator_nodes e).
Proof.
  intros H. destruct (proj1 derives_operator_nodes _ _ _ H) as [Hmap Hall].
  split; [exact Hmap|].
  eapply Forall_impl; [|exact Hall].
  intros [v op] Hc. simpl in Hc.
  destruct v; destruct op; try discriminate Hc;
    (repeat split; intros; solve [reflexivity | discriminate | congruence]).
Qed.

Lemma logical_and_binary_nodes_are_distinct_witness :
  map snd
    (operator_nodes
       (logical_expression (variable "a") OR
          (binary (variable "b") EQUAL_EQUAL (variable "c"))))
  = [OR; EQUAL_EQUAL].
Proof.
  refine (proj1 (logical_and_binary_nodes_are_distinct Rule.expression
           [IDENTIFIER "a"; OR; IDENTIFIER "b"; EQUAL_EQUAL; IDENTIFIER "c"]
           (logical_expression (variable "a") OR
              (binary (variable "b") EQUAL_EQUAL (variable "c"))) _)).
  apply (respects_precedence_derives
           (logical_expression (variable "a") OR
              (binary (variable "b") EQUAL_EQUAL (variable "c"))));
    [reflexivity | unfold prec; simpl; lia].
Defined.

(** C7. In a program the grammar derives, every [super] keyword is followed
    by [.] and an identifier; the only alternative that starts with [super]
    is [_super_keyword "." IDENTIFIER], which builds a [super] node. *)
Theorem super_only_before_dot_identifier (ts : list token)
    (decls : list stmt) :
  derives_program ts decls ->
  (forall pre post,
      ts = pre ++ SUPER :: post ->
      exists m post', post = DOT :: IDENTIFIER m :: post') /\
  (forall m, derives Rule.primary [SUPER; DOT; IDENTIFIER m] (super m)) /\
  (forall rest e,
      derives Rule.primary (SUPER :: rest) e ->
      exists m, rest = [DOT; IDENTIFIER m] /\ e = super m).
Proof.
  intros H. split; [|split].
  - intros pre post ->.
    apply super_well_placed_occurrence with (pre := pre).
    destruct derives_stmt_super_well_placed as (_ & Hd & _).
    apply (Hd _ _ H).
  - intros m. apply d_super.
  - intros rest e Hp. inversion Hp; subst. eauto.
Qed.

Lemma super_only_before_dot_identifier_witness :
  exists m post', [DOT; IDENTIFIER "m"; SEMICOLON] = DOT :: IDENTIFIER m :: post'.
Proof.
  refine (proj1 (super_only_before_dot_identifier
            [PRINT; SUPER; DOT; IDENTIFIER "m"; SEMICOLON]
            [print_statement (super "m")] _)
            [PRINT] [DOT; IDENTIFIER "m"; SEMICOLON] eq_refl).
  unfold derives_program.
  apply (d_declarations_cons [PRINT; SUPER; DOT; IDENTIFIER "m"; SEMICOLON]
           (print_statement (super "m")) [] []); [|apply d_declarations_nil].
  apply d_declaration_statement, d_statement_print.
  apply (d_print_statement [SUPER; DOT; IDENTIFIER "m"]).
  apply (respects_precedence_derives (super "m")); [reflexivity | unfold prec; simpl; lia].
Defined.

(** The grammar itself bounds neither the number of arguments of a call nor
    the number of parameters of a function or method, the limit being the
    parser's: any non-empty list of expressions, separated by commas, is
    an argument list, and any non-empty list of identifiers a parameter
    list. *)
Lemma grammar_has_no_arity_limit :
  (forall tss es ts c,
      Forall2 (derives Rule.expression) tss es -> es <> [] ->
      derives Rule.call ts c ->
      derives Rule.call (ts ++ LPAR :: comma_separated tss ++ [RPAR])
        (call c (Some es) RPAR)) /\
  (forall name names tsb body,
      names <> [] ->
      derives_stmt SRule.block tsb body ->
      derives_stmt SRule.function_declaration
        (FUN :: IDENTIFIER name :: LPAR :: parameter_tokens names ++ RPAR :: tsb)
        (function name (Some names) body) /\
      derives_stmt SRule.method
        (IDENTIFIER name :: LPAR :: parameter_tokens names ++ RPAR :: tsb)
        (function name (Some names) body)).
Proof.
  split.
  - intros tss es ts c HF Hne Hc.
    apply d_call; [exact Hc|]. now apply arguments_of_any_length.
  - intros name names tsb body Hne Hb.
    pose proof (parameters_of_any_length names Hne) as Hp.
    split; [apply d_function_declaration | apply d_method];
      solve [now apply optional_present | exact Hb].
Qed.

End GrammarFacts.

(** * Facts about the [COMMENT] terminal *)

Module CommentFacts.
Import Text TextFacts Comment.
Local Open Scope char_scope.

Lemma star_class_all_chars p s :
  matches (Star (Class p)) s <-> all_chars p s = true.
Proof.
  split.
  - intros H. remember (Star (Class p)) as r eqn:Hr.
    induction H as [| | |r0|r0 s1 s2 H1 _ H2 IH2]; try discriminate Hr.
    + reflexivity.
    + inversion Hr; subst. inversion H1; subst.
      simpl. rewrite IH2 by reflexivity.
      match goal with H : p _ = true |- _ => now rewrite H end.
  - induction s as [|c s IH]; simpl; intros H.
    + apply m_star_nil.
    + apply andb_prop in H. destruct H as [Hc Hs].
      apply (m_star_more (Class p) (String c EmptyString) s).
      * now apply m_class.
      * now apply IH.
Qed.

(** The texts [COMMENT] matches: whitespace, the two slashes, and
    characters that are not newlines. *)
Lemma matches_COMMENT m :
  matches COMMENT m <->
  exists ws text,
    m = (ws ++ "//" ++ text)%string /\
    all_chars regex_space ws = true /\ all_chars not_newline text = true.
Proof.
  unfold COMMENT. split.
  - intros H. inversion H as [| |? ? ws tail Hws Htail| |]; subst.
    inversion Htail as [| |? ? lit text Hlit Htext| |]; subst.
    inversion Hlit; subst.
    exists ws, text. repeat split; now apply star_class_all_chars.
  - intros (ws & text & -> & Hws & Htext).
    apply m_seq; [now apply star_class_all_chars|].
    apply m_seq; [apply m_literal | now apply star_class_all_chars].
Qed.

Lemma match_COMMENT_spec s m left_over :
  match_COMMENT s = Some (m, left_over) ->
  exists ws text,
    Text.span regex_space s = (ws, ("//" ++ text ++ left_over)%string) /\
    Text.span not_newline (text ++ left_over) = (text, left_over) /\
    m = (ws ++ "//" ++ text)%string.
Proof.
  unfold match_COMMENT. intros H.
  destruct (span regex_space s) as [ws after] eqn:Hws.
  destruct after as [|c1 [|c2 body]]; try discriminate H.
  - destruct c1 as [[] [] [] [] [] [] [] []]; discriminate H.
  - destruct (ascii_dec c1 "/") as [->|Hc1];
      [|destruct c1 as [[] [] [] [] [] [] [] []]; try discriminate H;
        exfalso; apply Hc1; reflexivity].
    destruct (ascii_dec c2 "/") as [->|Hc2];
      [|destruct c2 as [[] [] [] [] [] [] [] []]; try discriminate H;
        exfalso; apply Hc2; reflexivity].
    destruct (span not_newline body) as [text lo] eqn:Htext.
    inversion H; subst.
    destruct (span_spec _ _ _ _ Htext) as (-> & _ & _).
    exists ws, text. repeat split. exact Htext.
Qed.



End CommentFacts.

(** * Facts about the lexer *)

Module LexerFacts.
Import Text TextFacts Lexer.
Local Open Scope char_scope.

Ltac by_cases_on_char c :=
  destruct c as [[] [] [] [] [] [] [] []]; try discriminate; try reflexivity.

Lemma digit_starts_token c s' l :
  isDigit c = true -> skipWhitespace (String c s') l = (String c s', l).
Proof. intros H. unfold skipWhitespace. by_cases_on_char c. Qed.

Lemma digit_not_alpha c : isDigit c = true -> isAlpha c = false.
Proof. intros H. by_cases_on_char c. Qed.

Lemma span_nonempty p c s' taken more :
  p c = true -> span p (String c s') = (taken, more) -> taken <> EmptyString.
Proof.
  intros Hc H. simpl in H. rewrite Hc in H.
  destruct (span p s'). inversion H. discriminate.
Qed.

(** What [number] takes from a text that starts with a digit. *)
Lemma number_spec c s' text more :
  isDigit c = true ->
  number (String c s') = (text, more) ->
  String c s' = (text ++ more)%string /\
  is_number text /\
  match more with
  | String d r =>
      isDigit d = false /\
      (d = "." -> all_chars isDigit text = true ->
       match r with
       | String d' _ => isDigit d' = false
       | EmptyString => True
       end)
  | EmptyString => True
  end.
Proof.
  intros Hc H. unfold number in H.
  destruct (span isDigit (String c s')) as [whole after] eqn:Hwhole.
  pose proof (span_nonempty _ _ _ _ _ Hc Hwhole) as Hne.
  destruct (span_spec _ _ _ _ Hwhole) as (Hs & Hall & Hafter).
  assert (Hplain : (text, more) = (whole, after) ->
                   match after with
                   | String "." (String d' _) => isDigit d' = false
                   | _ => True
                   end ->
                   String c s' = (text ++ more)%string /\
                   is_number text /\
                   match more with
                   | String d r =>
                       isDigit d = false /\
                       (d = "." -> all_chars isDigit text = true ->
                        match r with
                        | String d' _ => isDigit d' = false
                        | EmptyString => True
                        end)
                   | EmptyString => True
                   end).
  { intros Heq Hdot. inversion Heq; subst text more.
    split; [exact Hs|]. split.
    - exists whole. repeat split; try assumption. now left.
    - destruct after as [|d r]; [exact I|]. split; [exact Hafter|].
      intros -> _. destruct r as [|d' r]; [exact I | exact Hdot]. }
  destruct after as [|d [|d' r]].
  - apply Hplain; [now inversion H | exact I].
  - apply Hplain; [|destruct d as [[] [] [] [] [] [] [] []]; exact I].
    destruct d as [[] [] [] [] [] [] [] []]; now inversion H.
  - destruct (ascii_dec d ".") as [->|Hd].
    + destruct (isDigit d') eqn:Hd'.
      * destruct (span isDigit (String d' r)) as [digits left_over] eqn:Hfrac.
        inversion H; subst text more.
        pose proof (span_nonempty _ _ _ _ _ Hd' Hfrac) as Hfne.
        destruct (span_spec _ _ _ _ Hfrac) as (Hr & Hfall & Hleft).
        split; [|split].
        -- rewrite Hs, Hr. rewrite append_assoc. reflexivity.
        -- exists whole. repeat split; try assumption. right.
           exists digits. repeat split; assumption.
        -- destruct left_over as [|e r']; [exact I|]. split; [exact Hleft|].
           intros _ Hdigits. rewrite all_chars_append in Hdigits.
           apply andb_prop in Hdigits. destruct Hdigits as [_ Hdigits].
           discriminate Hdigits.
      * apply Hplain; [now inversion H | reflexivity].
    + apply Hplain.
      * destruct d as [[] [] [] [] [] [] [] []];
          solve [now inversion H | exfalso; apply Hd; reflexivity].
      * destruct d as [[] [] [] [] [] [] [] []];
          solve [exact I | exfalso; apply Hd; reflexivity].
Qed.

(** C2. A text that starts with a digit yields a [NUMBER] token whose
    lexeme is one or more digits, optionally followed by [.] and one or
    more digits, taken as long as possible: after the lexeme comes no
    digit, and after a lexeme without fraction no [.] followed by a digit.
    A [.] that no digit follows is left in the text, so that [123.] is the
    number [123] and then the token [.]. *)
Theorem number_excludes_trailing_dot (c : ascii) (s' : string) (l : Z) :
  isDigit c = true ->
  (let (t, sc') := scanToken (mkScanner (String c s') l) in
   token_kind t = NUMBER /\ token_line t = l /\ line sc' = l /\
   String c s' = (lexeme t ++ rest sc')%string /\
   is_number (lexeme t) /\
   match rest sc' with
   | String d r =>
       isDigit d = false /\
       (d = "." -> all_chars isDigit (lexeme t) = true ->
        match r with
        | String d' _ => isDigit d' = false
        | EmptyString => True
        end)
   | EmptyString => True
   end) /\
  tokens "123."
  = [mkToken NUMBER "123" 1; mkToken DOT "." 1; mkToken EOF "" 1].
Proof.
  intros Hc. split; [|reflexivity].
  unfold scanToken. cbn [rest line].
  rewrite (digit_starts_token c s' l Hc), (digit_not_alpha c Hc), Hc.
  destruct (number (String c s')) as [text more] eqn:Hnum.
  destruct (number_spec _ _ _ _ Hc Hnum) as (Hs & Hshape & Hmore).
  cbn [token_kind token_line lexeme rest line]. repeat split; assumption.
Qed.

Lemma number_excludes_trailing_dot_witness :
  tokens "123."
  = [mkToken NUMBER "123" 1; mkToken DOT "." 1; mkToken EOF "" 1].
Proof.
  exact (proj2 (number_excludes_trailing_dot "1" "23." 1 eq_refl)).
Defined.

(** ** Comments *)

(** Inside a line comment everything is skipped up to the newline, and the
    newline is then skipped as whitespace, counting one line. *)
Lemma skip_comment s l : skip true s l = skip false (comment_end s) l.
Proof.
  revert l. induction s as [|c s IH]; intros l; [reflexivity|].
  cbn [skip comment_end].
  destruct (c =? newline) eqn:Hc; [|apply IH].
  cbn [skip]. now rewrite Hc.
Qed.

Lemma skipWhitespace_comment s l :
  skipWhitespace (String "/" (String "/" s)) l
  = skipWhitespace (comment_end s) l.
Proof. unfold skipWhitespace. cbn [skip]. apply skip_comment. Qed.

Lemma comment_end_spec s :
  exists text,
    s = (text ++ comment_end s)%string /\
    count_newlines text = 0%Z /\
    (comment_end s = EmptyString \/
     exists s', comment_end s = String newline s').
Proof.
  induction s as [|c s (text & Hs & Hn & Hend)].
  - exists EmptyString. repeat split. now left.
  - cbn [comment_end]. destruct (Ascii.eqb_spec c newline) as [->|Hc].
    + exists EmptyString. repeat split. right. now exists s.
    + exists (String c text). repeat split.
      * simpl. now rewrite <- Hs.
      * cbn [count_newlines]. apply Ascii.eqb_neq in Hc.
        unfold newline in Hc. rewrite Hc. exact Hn.
      * exact Hend.
Qed.

(** ** Strings *)

Lemma quote_or_backslash_not_newline d :
  d = quote \/ d = backslash -> (d =? newline) = false.
Proof. now intros [-> | ->]. Qed.

Lemma is_escape_true c d :
  (c =? backslash) && ((d =? quote) || (d =? backslash)) = true <->
  c = backslash /\ (d = quote \/ d = backslash).
Proof.
  rewrite andb_true_iff, orb_true_iff, !Ascii.eqb_eq. tauto.
Qed.

Lemma is_escape_false_plain c d :
  (c = backslash -> d <> quote /\ d <> backslash) ->
  (c =? backslash) && ((d =? quote) || (d =? backslash)) = false.
Proof.
  intros H. destruct (Ascii.eqb_spec c backslash) as [Hc|Hc]; [|reflexivity].
  destruct (H Hc) as [Hq Hb].
  apply Ascii.eqb_neq in Hq, Hb. now rewrite Hq, Hb.
Qed.

(** A string closes at the first quote that is not part of an escape
    sequence. *)
Lemma string_tail_closes inner :
  string_inner inner ->
  forall more l,
    string_tail (inner ++ String quote more)%string l
    = Some ((inner ++ String quote EmptyString)%string, more,
            (l + count_newlines inner)%Z).
Proof.
  induction 1 as [|d s Hd Hs IH|c s Hq Hb Hs IH]; intros more l.
  - simpl. now rewrite Z.add_0_r.
  - cbn [append string_tail].
    change (backslash =? quote) with false. cbv iota.
    replace ((backslash =? backslash) && ((d =? quote) || (d =? backslash)))
      with true by (symmetry; apply is_escape_true; auto).
    rewrite IH. cbn [count_newlines].
    change (backslash =? newline) with false.
    fold newline. rewrite (quote_or_backslash_not_newline d Hd).
    repeat f_equal.
  - cbn [append string_tail].
    apply Ascii.eqb_neq in Hq. rewrite Hq.
    rewrite IH. cbn [count_newlines]. fold newline.
    assert (Hplain :
             Some (String c (s ++ String quote EmptyString)%string, more,
                   ((if (c =? newline)%char then l + 1 else l) + count_newlines s)%Z)
             = Some (String c (s ++ String quote EmptyString)%string, more,
                     (l + ((if (c =? newline)%char then 1 else 0)
                           + count_newlines s))%Z)).
    { destruct (c =? newline); f_equal; f_equal; lia. }
    destruct (s ++ String quote more)%string as [|d s''] eqn:Hs'.
    + exact Hplain.
    + rewrite is_escape_false_plain; [exact Hplain|].
      intros Hc. destruct (Hb Hc) as (d0 & s0 & -> & Hd0).
      simpl in Hs'. inversion Hs'; subst. exact Hd0.
Qed.

(** A text that ends inside a string does not close it. *)
Lemma string_tail_unterminated inner :
  string_inner inner ->
  forall l,
    string_tail inner l = None /\
    string_tail (inner ++ String backslash EmptyString)%string l = None.
Proof.
  induction 1 as [|d s Hd Hs IH|c s Hq Hb Hs IH]; intros l.
  - split; reflexivity.
  - cbn [append string_tail].
    change (backslash =? quote) with false. cbv iota.
    replace ((backslash =? backslash) && ((d =? quote) || (d =? backslash)))
      with true by (symmetry; apply is_escape_true; auto).
    destruct (IH l) as [-> ->]. split; reflexivity.
  - cbn [append string_tail].
    apply Ascii.eqb_neq in Hq. rewrite Hq.
    destruct (IH (if (c =? newline)%char then (l + 1)%Z else l)) as [H1 H2].
    rewrite H1, H2.
    assert (Hesc : forall tail d s'',
               (s ++ tail)%string = String d s'' ->
               tail = EmptyString \/ tail = String backslash EmptyString ->
               (c =? backslash) && ((d =? quote) || (d =? backslash)) = false).
    { intros tail d s'' Heq Htail. apply is_escape_false_plain.
      intros Hc. destruct (Hb Hc) as (d0 & s0 & -> & Hd0).
      simpl in Heq. inversion Heq; subst. exact Hd0. }
    split.
    + destruct s as [|d s'']; [reflexivity|].
      rewrite (Hesc EmptyString d s''); [reflexivity | | now left].
      now rewrite append_nil_r.
    + destruct (s ++ String backslash EmptyString)%string as [|d s''] eqn:E;
        [reflexivity|].
      rewrite (Hesc _ d s'' E); [reflexivity | now right].
Qed.

(** Whatever [string_tail] accepts has that form. *)
Lemma string_tail_inner n :
  forall s l body more l',
    (String.length s <= n)%nat ->
    string_tail s l = Some (body, more, l') ->
    exists inner,
      string_inner inner /\
      body = (inner ++ String quote EmptyString)%string /\
      s = (body ++ more)%string /\
      l' = (l + count_newlines inner)%Z.
Proof.
  induction n as [|n IH]; intros s l body more l' Hlen H;
    destruct s as [|c s']; try discriminate H; [simpl in Hlen; lia|].
  cbn [string_tail] in H. simpl in Hlen.
  destruct (Ascii.eqb_spec c quote) as [Hq|Hq].
  - inversion H; subst. exists EmptyString.
    split; [apply inner_nil|]. repeat split. simpl. lia.
  - assert (Hplain :
             match string_tail s' (if (c =? newline)%char then (l + 1)%Z else l) with
             | Some (body0, more0, l0) => Some (String c body0, more0, l0)
             | None => None
             end = Some (body, more, l') ->
             (c = backslash ->
              exists d s'', s' = String d s'' /\ d <> quote /\ d <> backslash) ->
             exists inner,
               string_inner inner /\
               body = (inner ++ String quote EmptyString)%string /\
               String c s' = (body ++ more)%string /\
               l' = (l + count_newlines inner)%Z).
    { intros Hp Hb.
      destruct (string_tail s' (if (c =? newline)%char then (l + 1)%Z else l))
        as [[[body0 more0] l0]|] eqn:Ht; [|discriminate Hp].
      inversion Hp; subst.
      assert (Hn : (String.length s' <= n)%nat) by lia.
      destruct (IH _ _ _ _ _ Hn Ht) as (inner & Hi & -> & Hs & Hl).
      exists (String c inner). repeat split.
      - apply inner_plain; [exact Hq | | exact Hi].
        intros Hc. destruct (Hb Hc) as (d & s'' & Hs' & Hd).
        destruct inner as [|d0 inner0].
        + simpl in Hs. rewrite Hs' in Hs. inversion Hs; subst.
          destruct Hd as [Hd _]. now contradiction Hd.
        + simpl in Hs. rewrite Hs' in Hs. inversion Hs; subst. eauto.
      - simpl. now rewrite <- Hs.
      - cbn [count_newlines]. fold newline. subst l'.
        destruct (c =? newline); lia. }
    destruct s' as [|d s'']; [apply Hplain; [exact H|]|].
    { intros Hc. subst c. simpl in H. discriminate H. }
    destruct ((c =? backslash) && ((d =? quote) || (d =? backslash))) eqn:Hesc.
    + apply is_escape_true in Hesc. destruct Hesc as [-> Hd].
      destruct (string_tail s'' l) as [[[body0 more0] l0]|] eqn:Ht;
        [|discriminate H].
      inversion H; subst. simpl in Hlen.
      assert (Hn : (String.length s'' <= n)%nat) by lia.
      destruct (IH _ _ _ _ _ Hn Ht) as (inner & Hi & -> & Hs & Hl).
      exists (String backslash (String d inner)). repeat split.
      * now apply inner_escape.
      * simpl. now rewrite <- Hs.
      * cbn [count_newlines]. fold newline.
        change (backslash =? newline) with false.
        rewrite (quote_or_backslash_not_newline d Hd). lia.
    + apply Hplain; [exact H|].
      intros ->. exists d, s''. split; [reflexivity|].
      change (backslash =? backslash) with true in Hesc. simpl in Hesc.
      apply orb_false_iff in Hesc. destruct Hesc as [H1 H2].
      apply Ascii.eqb_neq in H1, H2. now split.
Qed.

Lemma scanToken_at_quote s l :
  scanToken (mkScanner (String quote s) l)
  = match string_tail s l with
    | Some (body, more, l') =>
        (mkToken STRING (String quote body) l', mkScanner more l')
    | None =>
        (mkToken ERROR "Unterminated string." l, mkScanner EmptyString l)
    end.
Proof. reflexivity. Qed.

(** C4. A string literal starts at a quote and ends at the next quote that
    is not part of an escape sequence, the only escape sequences being a
    backslash followed by a quote or by a backslash; the characters between
    may be newlines, which are counted.  A text that ends before the closing
    quote yields the diagnostic of an unterminated string. *)
Theorem string_literals_and_their_escapes :
  (forall inner more l,
      string_inner inner ->
      scanToken (mkScanner (String quote (inner ++ String quote more)) l)
      = (mkToken STRING (String quote (inner ++ String quote EmptyString))
           (l + count_newlines inner),
         mkScanner more (l + count_newlines inner))) /\
  (forall s l t sc',
      scanToken (mkScanner (String quote s) l) = (t, sc') ->
      token_kind t = STRING ->
      exists inner,
        string_inner inner /\
        lexeme t = String quote (inner ++ String quote EmptyString) /\
        String quote s = (lexeme t ++ rest sc')%string /\
        token_line t = (l + count_newlines inner)%Z) /\
  (forall inner l,
      string_inner inner ->
      scanToken (mkScanner (String quote inner) l)
      = (mkToken ERROR "Unterminated string." l, mkScanner EmptyString l) /\
      scanToken
        (mkScanner (String quote (inner ++ String backslash EmptyString)) l)
      = (mkToken ERROR "Unterminated string." l, mkScanner EmptyString l)).
Proof.
  split; [|split].
  - intros inner more l Hi.
    now rewrite scanToken_at_quote, (string_tail_closes inner Hi).
  - intros s l t sc' Hscan Hkind. rewrite scanToken_at_quote in Hscan.
    destruct (string_tail s l) as [[[body more] l']|] eqn:Ht.
    + inversion Hscan; subst. cbn [lexeme rest token_line].
      destruct (string_tail_inner _ _ _ _ _ _ (Nat.le_refl _) Ht)
        as (inner & Hi & -> & Hs & Hl).
      exists inner. repeat split; try assumption.
      simpl. now rewrite <- Hs.
    + inversion Hscan; subst. discriminate Hkind.
  - intros inner l Hi. rewrite !scanToken_at_quote.
    destruct (string_tail_unterminated inner Hi l) as [-> ->].
    split; reflexivity.
Qed.

Lemma string_literals_and_their_escapes_witness :
  scanToken
    (mkScanner
       (String quote
          (String "a" (String newline
             (String backslash (String quote (String "b" EmptyString))))
           ++ String quote ";"%string)) 1)
  = (mkToken STRING
       (String quote
          (String "a" (String newline
             (String backslash (String quote (String "b" EmptyString))))
           ++ String quote EmptyString)) 2,
     mkScanner ";"%string 2).
Proof.
  apply (proj1 string_literals_and_their_escapes
           (String "a" (String newline
              (String backslash (String quote (String "b" EmptyString)))))
           ";"%string 1).
  apply inner_plain; [discriminate | discriminate |].
  apply inner_plain; [discriminate | discriminate |].
  apply inner_escape; [now left |].
  apply inner_plain; [discriminate | discriminate |].
  apply inner_nil.
Defined.

(** ** Every text is scanned to its end *)

Lemma skip_suffix b :
  forall s l s' l',
    skip b s l = (s', l') ->
    (String.length s' <= String.length s)%nat /\ (l <= l')%Z.
Proof.
  intros s. revert b. induction s as [|c s IH]; intros b l s' l' H.
  - destruct b; inversion H; subst; split; simpl; lia.
  - cbn [skip] in H.
    destruct (c =? newline).
    { destruct (IH _ _ _ _ H). split; simpl; lia. }
    destruct b.
    { destruct (IH _ _ _ _ H). split; simpl; lia. }
    destruct (isBlank c).
    { destruct (IH _ _ _ _ H). split; simpl; lia. }
    assert (Hstop : (String c s, l) = (s', l') ->
                    (String.length s' <= String.length (String c s))%nat /\
                    (l <= l')%Z)
      by (intros Heq; inversion Heq; subst; split; simpl; lia).
    destruct (c =? "/"); [|now apply Hstop].
    destruct s as [|d s'']; [now apply Hstop|].
    destruct (ascii_dec d "/") as [->|Hd].
    + cbn [skip] in IH.
      specialize (IH true l s' l').
      change ("/" =? newline) with false in IH. cbv iota in IH.
      destruct (IH H). split; simpl in *; lia.
    + destruct d as [[] [] [] [] [] [] [] []];
        solve [now apply Hstop | exfalso; apply Hd; reflexivity].
Qed.

Lemma operator_progress c one two s' l t sc' :
  operator c one two s' l = (t, sc') ->
  (String.length (rest sc') <= String.length s')%nat /\
  token_line t = l /\ line sc' = l /\
  (token_kind t = one \/ token_kind t = two).
Proof.
  unfold operator. intros H.
  destruct s' as [|d s''].
  - inversion H; subst. repeat split; simpl; auto.
  - destruct (ascii_dec d "=") as [->|Hd].
    + inversion H; subst. repeat split; simpl; auto.
    + destruct d as [[] [] [] [] [] [] [] []];
        solve [ inversion H; subst; repeat split; simpl; auto
              | exfalso; apply Hd; reflexivity ].
Qed.

Lemma keyword_not_EOF text : keyword text <> EOF.
Proof.
  unfold keyword.
  repeat match goal with
         | |- context [if ?b then _ else _] => destruct b
         end; discriminate.
Qed.

(** A call of [scanToken] that does not return [EOF] takes at least one
    character; the line counter never moves back. *)
Lemma scanToken_progress sc t sc' :
  scanToken sc = (t, sc') ->
  (line sc <= token_line t)%Z /\ (line sc <= line sc')%Z /\
  (token_kind t <> EOF ->
   (String.length (rest sc') < String.length (rest sc))%nat) /\
  (token_kind t = EOF -> sc' = mkScanner EmptyString (token_line t)).
Proof.
  unfold scanToken. intros H.
  destruct (skipWhitespace (rest sc) (line sc)) as [s l] eqn:Hskip.
  destruct (skip_suffix _ _ _ _ _ Hskip) as [Hlen Hline].
  destruct s as [|c s'].
  { inversion H; subst. cbn. repeat split; try lia; try congruence;
      try (intros; lia). }
  destruct (isAlpha c) eqn:Halpha.
  { destruct (span (fun d => isAlpha d || isDigit d) (String c s'))
      as [text more] eqn:Hspan.
    inversion H; subst; cbn [token_kind token_line rest line].
    assert (Hp : (fun d => isAlpha d || isDigit d) c = true)
      by (cbv beta; now rewrite Halpha).
    pose proof (span_nonempty _ _ _ _ _ Hp Hspan) as Hne.
    destruct (span_spec _ _ _ _ Hspan) as (Hs & _ & _).
    assert (String.length (String c s')
            = (String.length text + String.length more)%nat)
      by (rewrite Hs; apply length_append).
    destruct text as [|x text]; [congruence|]. simpl in *.
    repeat split; try lia.
    intros Hk. exfalso. exact (keyword_not_EOF _ Hk). }
  destruct (isDigit c) eqn:Hdigit.
  { destruct (number (String c s')) as [text more] eqn:Hnum.
    inversion H; subst; cbn [token_kind token_line rest line].
    destruct (number_spec _ _ _ _ Hdigit Hnum)
      as (Hs & (whole & Hne & _ & Hshape) & _).
    assert (String.length (String c s')
            = (String.length text + String.length more)%nat)
      by (rewrite Hs; apply length_append).
    assert (1 <= String.length text)%nat.
    { destruct Hshape as [->|(fraction & _ & _ & ->)];
        destruct whole; try congruence; simpl; lia. }
    simpl in *. repeat split; try lia; try discriminate; try (intros; lia). }
  destruct (c =? quote).
  { destruct (string_tail s' l) as [[[body more] l']|] eqn:Htail.
    - inversion H; subst; cbn [token_kind token_line rest line].
      destruct (string_tail_inner _ _ _ _ _ _ (Nat.le_refl _) Htail)
        as (inner & _ & _ & Hs & Hl).
      assert (String.length s'
              = (String.length body + String.length more)%nat)
        by (rewrite Hs at 1; apply length_append).
      assert (0 <= count_newlines inner)%Z.
      { clear. induction inner as [|x inner IH]; simpl; [lia|].
        destruct (x =? "010"); lia. }
      simpl in *. repeat split; try lia; try discriminate; try (intros; lia).
    - inversion H; subst; cbn [token_kind token_line rest line].
      simpl in *. repeat split; try lia; try discriminate; try (intros; lia). }
  assert (Hop : forall one two,
             one <> EOF -> two <> EOF ->
             operator c one two s' l = (t, sc') ->
             (line sc <= token_line t)%Z /\ (line sc <= line sc')%Z /\
             (token_kind t <> EOF ->
              (String.length (rest sc') < String.length (rest sc))%nat) /\
             (token_kind t = EOF ->
              sc' = mkScanner EmptyString (token_line t))).
  { intros one two H1 H2 Ho.
    destruct (operator_progress _ _ _ _ _ _ _ Ho) as (Hl' & -> & -> & Hk).
    simpl in *. repeat split; try lia.
    intros Heof. destruct Hk; congruence. }
  destruct (c =? "!"); [now apply (Hop BANG BANG_EQUAL)|].
  destruct (c =? "="); [now apply (Hop EQUAL EQUAL_EQUAL)|].
  destruct (c =? "<"); [now apply (Hop LESS LESS_EQUAL)|].
  destruct (c =? ">"); [now apply (Hop GREATER GREATER_EQUAL)|].
  destruct (punctuation c) as [k|] eqn:Hp.
  - inversion H; subst; cbn [token_kind token_line rest line].
    simpl in *. repeat split; try lia.
    intros ->. unfold punctuation in Hp.
    repeat match type of Hp with
           | context [if ?b then _ else _] => destruct b
           end; discriminate Hp.
  - inversion H; subst; cbn [token_kind token_line rest line].
    simpl in *. repeat split; try lia; try discriminate; try (intros; lia).
Qed.

(** The scanner reaches [EOF] after at most as many tokens as the text has
    characters, and no token has a line before the scanner's. *)
Lemma scanner_reaches_EOF n :
  forall sc,
    (String.length (rest sc) <= n)%nat ->
    exists k,
      (k <= n)%nat /\
      Clox.first_eof_at sc k /\
      forall i, (line sc <= Clox.line (Clox.nth_token sc i))%Z.
Proof.
  induction n as [|n IH]; intros sc Hlen.
  - exists 0%nat. split; [lia|].
    destruct sc as [s l]. destruct s; simpl in Hlen; [|lia].
    split; [split; [reflexivity | intros i Hi; lia]|].
    intros i. induction i as [|i IHi]; [simpl; lia | exact IHi].
  - destruct (scanToken sc) as [t sc'] eqn:Hscan.
    destruct (scanToken_progress _ _ _ Hscan) as (Hl1 & Hl2 & Hprog & Heof).
    assert (Hnth0 : Clox.nth_token sc 0 = c_token t sc').
    { unfold Clox.nth_token. cbn. now rewrite Hscan. }
    assert (Hnext : forall i, Clox.nth_token sc (S i) = Clox.nth_token sc' i).
    { intros i. unfold Clox.nth_token. cbn. now rewrite Hscan. }
    assert (Hlines : (forall i, (line sc' <= Clox.line (Clox.nth_token sc' i))%Z) ->
                     forall i, (line sc <= Clox.line (Clox.nth_token sc i))%Z).
    { intros Hi [|i]; [rewrite Hnth0; simpl; lia|].
      rewrite Hnext. specialize (Hi i). lia. }
    destruct (kind_eq_dec (token_kind t) EOF) as [Hk|Hk].
    + exists 0%nat. split; [lia|]. split.
      * split; [rewrite Hnth0; simpl; now rewrite Hk | intros i Hi; lia].
      * apply Hlines. rewrite (Heof Hk). simpl.
        clear. intros i. induction i as [|i IHi]; [simpl; lia | exact IHi].
    + specialize (Hprog Hk).
      destruct (IH sc' ltac:(lia)) as (k & Hkn & [Hat Hbefore] & Hli).
      exists (S k). split; [lia|]. split.
      * split; [now rewrite Hnext|].
        intros [|i] Hi.
        -- rewrite Hnth0. simpl. intros Hc. apply Hk.
           destruct (token_kind t); try discriminate Hc. reflexivity.
        -- rewrite Hnext. apply Hbefore. lia.
      * now apply Hlines.
Qed.

(** ** The scanner under [compile] *)

(** With this scanner [compile] ends on every text, after at most one
    iteration per character and one more, and the first token shows its
    line number. *)
Lemma compile_ends_on_every_text source :
  exists n,
    (n <= String.length source)%nat /\
    forall fuel,
      Clox.compile fuel source =
        if (n <? fuel)%nat
        then Some (Clox.listing None
                     (Clox.take_tokens n (Clox.initScanner source)))
        else None.
Proof.
  destruct (scanner_reaches_EOF (String.length source) (initScanner source)
              (Nat.le_refl _)) as (n & Hn & Hfirst & Hlines).
  exists n. split; [exact Hn|]. intros fuel. unfold Clox.compile.
  rewrite (CloxFacts.compile_loop_listing n _ _ _ Hfirst).
  destruct (n <? fuel)%nat; [|reflexivity].
  f_equal. apply CloxFacts.listing_first_token.
  destruct (CloxFacts.take_tokens_head n (Clox.initScanner source))
    as [more ->].
  specialize (Hlines 0%nat). simpl in Hlines. cbn in *. lia.
Qed.

(** What [compile] prints for the text [var a = 1;] and a second line [a]. *)
Example compile_prints_two_lines :
  Clox.compile 7 ("var a = 1;" ++ String newline "a")%string
  = Some ("   1 36 'var'" ++ String newline
          ("   | 19 'a'" ++ String newline
          ("   | 13 '='" ++ String newline
          ("   | 21 '1'" ++ String newline
          ("   |  8 ';'" ++ String newline
          ("   2 19 'a'" ++ String newline
          ("   | 39 ''" ++ String newline "")))))))%string.
Proof. vm_compute. reflexivity. Qed.

End LexerFacts.

(** * More facts about [compile]: the end of the loop, line numbers and
      columns *)

Module CompileFacts.
Import Text TextFacts Clox CloxFacts Lines.

Section Compile.

Context `{api : ScannerApi}.

Lemma nth_token_S sc n :
  nth_token sc (S n) = nth_token (snd (scanToken sc)) n.
Proof. reflexivity. Qed.

(** The loop ends only on a [TOKEN_EOF] token. *)
Lemma compile_loop_ends fuel :
  forall sc l out,
    compile_loop fuel sc l = Some out ->
    exists n, (n < fuel)%nat /\ type (nth_token sc n) = TOKEN_EOF.
Proof.
  induction fuel as [|fuel IH]; intros sc l out H; [discriminate|].
  cbn [compile_loop] in H.
  destruct (scanToken sc) as [token sc'] eqn:Hscan.
  destruct (print_line_prefix token l) as [pre l'].
  destruct (Z.eqb_spec (type token) TOKEN_EOF) as [E|E].
  - exists 0%nat. split; [lia|]. unfold nth_token. simpl. now rewrite Hscan.
  - destruct (compile_loop fuel sc' l') as [rest|] eqn:Hrest; [|discriminate].
    destruct (IH _ _ _ Hrest) as (n & Hn & Heof).
    exists (S n). split; [lia|]. rewrite nth_token_S, Hscan. exact Heof.
Qed.

(** Some call returns [TOKEN_EOF]: one of them is the first. *)
Lemma first_eof_exists n :
  forall sc,
    type (nth_token sc n) = TOKEN_EOF ->
    exists m, (m <= n)%nat /\ first_eof_at sc m.
Proof.
  induction n as [|n IH]; intros sc H.
  - exists 0%nat. split; [lia|]. split; [exact H | intros i Hi; lia].
  - destruct (Z.eq_dec (type (nth_token sc 0)) TOKEN_EOF) as [E|E].
    + exists 0%nat. split; [lia|]. split; [exact E | intros i Hi; lia].
    + rewrite nth_token_S in H. destruct (IH _ H) as (m & Hm & Heof & Hbefore).
      exists (S m). split; [lia|]. split.
      * rewrite nth_token_S. exact Heof.
      * intros [|i] Hi; [exact E|]. rewrite nth_token_S. apply Hbefore. lia.
Qed.

(** X1. [compile] returns exactly when some call of [scanToken] returns a token
    of type [TOKEN_EOF]: the [break] is the only way out of the loop, and
    with a scanner that never produces such a token the loop runs for
    ever. *)
Theorem compile_ends_iff_scanner_returns_eof (source : string) :
  (exists fuel out, compile fuel source = Some out) <->
  (exists n, type (nth_token (initScanner source) n) = TOKEN_EOF).
Proof.
  split.
  - intros (fuel & out & H). unfold compile in H.
    destruct (compile_loop_ends _ _ _ _ H) as (n & _ & Hn). now exists n.
  - intros (n & Hn).
    destruct (first_eof_exists _ _ Hn) as (m & _ & Hfirst).
    exists (S m). eexists. unfold compile.
    rewrite (compile_loop_listing m _ _ _ Hfirst).
    replace (m <? S m)%nat with true by (symmetry; apply Nat.ltb_lt; lia).
    reflexivity.
Qed.

(** ** The decimal conversion *)

Lemma string_of_uint_decimal d :
  all_chars decimal_char (NilEmpty.string_of_uint d) = true.
Proof. induction d; simpl; auto. Qed.

Lemma dec_decimal n : all_chars decimal_char (dec n) = true /\ dec n <> "".
Proof.
  unfold dec.
  assert (H : forall d, all_chars decimal_char (NilZero.string_of_uint d) = true
                        /\ NilZero.string_of_uint d <> "").
  { intros d. split.
    - destruct d; try apply (string_of_uint_decimal (_ _)); reflexivity.
    - destruct d; discriminate. }
  destruct n as [|p|p]; simpl.
  - split; [reflexivity | discriminate].
  - apply H.
  - destruct (H (Pos.to_uint p)) as [Ha _]. split; [exact Ha | discriminate].
Qed.

Lemma length_spaces n : String.length (spaces n) = n.
Proof. induction n; simpl; congruence. Qed.

(** [%<w>d] pads and never truncates. *)
Lemma length_fmt_d w n :
  String.length (fmt_d w n) = Nat.max w (String.length (dec n)).
Proof. unfold fmt_d. rewrite length_append, length_spaces. lia. Qed.

(** A line number never reads as the filler. *)
Lemma fmt_d_not_filler n : fmt_d 4 n ++ " " <> "   | ".
Proof.
  unfold fmt_d. destruct (dec_decimal n) as [Hall Hne].
  destruct (dec n) as [|c1 [|c2 [|c3 [|c4 s]]]]; try congruence;
    simpl in *; intros H; inversion H; subst;
    repeat match goal with
           | H : _ && _ = true |- _ => apply andb_prop in H; destruct H
           end; discriminate.
Qed.


(** ** Line numbers that never go back *)

Lemma last_cons {A} (a : A) l d : last (a :: l) d = last l a.
Proof.
  revert a d. induction l as [|b l IH]; intros a d; [reflexivity|].
  change (last (a :: b :: l) d) with (last (b :: l) d).
  now rewrite !IH.
Qed.

(** The listing of a stream cut in front of one of its tokens. *)
Lemma listing_app before :
  forall l0 token after,
    listing (Some l0) (before ++ token :: after)%list
    = listing (Some l0) before
      ++ listing_prefix (Some (last (map line before) l0)) token
      ++ print_token_body token ++ listing (Some (line token)) after.
Proof.
  induction before as [|b before IH]; intros l0 token after.
  - reflexivity.
  - cbn [app listing map]. rewrite last_cons, IH.
    now rewrite !append_assoc.
Qed.

Lemma nondecreasing_ends ls :
  forall a x, nondecreasing (a :: (ls ++ [x])%list) = true -> a <= x.
Proof.
  induction ls as [|b ls IH]; intros a x H; cbn [app nondecreasing] in H;
    apply andb_prop in H; destruct H as [Hab H]; apply Z.leb_le in Hab.
  - exact Hab.
  - specialize (IH _ _ H). lia.
Qed.

(** In such a stream the line of a token is that of the token before it
    exactly when some earlier token is on that line. *)
Lemma nondecreasing_last ls :
  forall l0 x,
    nondecreasing (l0 :: (ls ++ [x])%list) = true ->
    (x =? last ls l0) = existsb (Z.eqb x) (l0 :: ls).
Proof.
  induction ls as [|a ls IH]; intros l0 x H.
  - simpl. now rewrite orb_false_r.
  - rewrite last_cons. cbn [app nondecreasing] in H.
    apply andb_prop in H. destruct H as [Hle H]. apply Z.leb_le in Hle.
    rewrite (IH _ _ H). cbn [existsb].
    destruct (Z.eqb_spec x l0) as [->|Hne]; [|reflexivity].
    pose proof (nondecreasing_ends _ _ _ H) as Hax.
    replace a with l0 by lia. now rewrite Z.eqb_refl.
Qed.

(** X2. When the line numbers of the tokens never go back, as with a scanner
    that counts the newlines it passes, [compile] prints the number of a
    line once, in front of the first token of the line: a token after the
    first is printed behind its line number when no token before it is on
    that line and behind the filler otherwise; the first token is printed
    behind its line number unless its line is [-1], the initial value of
    the local [line]; and a line number never reads as the filler. *)
Theorem compile_shows_line_number_once_per_line (source : string) (n : nat)
    (before : list Token) (token : Token) (after : list Token) :
  first_eof_at (initScanner source) n ->
  take_tokens n (initScanner source) = (before ++ token :: after)%list ->
  nondecreasing (map line before ++ [line token])%list = true ->
  compile (S n) source
  = Some (listing (Some (-1)) before
          ++ (if match before with
                 | [] => line token =? -1
                 | _ :: _ => existsb (Z.eqb (line token)) (map line before)
                 end
              then "   | " else fmt_d 4 (line token) ++ " ")
          ++ print_token_body token
          ++ listing (Some (line token)) after) /\
  fmt_d 4 (line token) ++ " " <> "   | ".
Proof.
  intros Hfirst Htokens Hlines. split; [|apply fmt_d_not_filler].
  unfold compile. rewrite (compile_loop_listing n _ _ _ Hfirst).
  replace (n <? S n)%nat with true by (symmetry; apply Nat.ltb_lt; lia).
  rewrite Htokens, listing_app. do 2 f_equal.
  unfold listing_prefix. destruct before as [|b before]; [reflexivity|].
  change (map line (b :: before)) with (line b :: map line before) in *.
  rewrite last_cons.
  now rewrite (nondecreasing_last (map line before) (line b) (line token)
                 Hlines).
Qed.

(** ** The layout of a line *)

Lemma dec_width_4 n : -999 <= n <= 9999 -> (String.length (dec n) <= 4)%nat.
Proof.
  intros Hn.
  assert (H : forallb (fun k => (String.length (dec (Z.of_nat k - 999)) <=? 4)%nat)
                (seq 0 (Z.to_nat 10999)) = true) by (vm_compute; reflexivity).
  rewrite forallb_forall in H.
  specialize (H (Z.to_nat (n + 999))).
  replace (Z.of_nat (Z.to_nat (n + 999)) - 999) with n in H by lia.
  apply Nat.leb_le, H, in_seq. lia.
Qed.

Lemma dec_width_2 n : -9 <= n <= 99 -> (String.length (dec n) <= 2)%nat.
Proof.
  intros Hn.
  assert (H : forallb (fun k => (String.length (dec (Z.of_nat k - 9)) <=? 2)%nat)
                (seq 0 109) = true) by (vm_compute; reflexivity).
  rewrite forallb_forall in H.
  specialize (H (Z.to_nat (n + 9))).
  replace (Z.of_nat (Z.to_nat (n + 9)) - 9) with n in H by lia.
  apply Nat.leb_le, H, in_seq. lia.
Qed.

Lemma substring_prefix a b : substring 0 (String.length a) (a ++ b) = a.
Proof.
  induction a as [|c a IH]; simpl.
  - destruct b; reflexivity.
  - now rewrite IH.
Qed.

(** X3. The columns of the listing.  For a line number of at most four
    characters (from -999 to 9999) the first field is five characters wide,
    as the filler is, and for a token type of at most two characters the
    second field is two wide; between the quotes stand exactly the
    [length] characters of the lexeme, and nothing of the text that follows
    it at [start]. *)
Theorem compile_line_layout (token : Token) (l : Z) (lexeme more : string) :
  -999 <= line token <= 9999 ->
  -9 <= type token <= 99 ->
  start token = lexeme ++ more ->
  length token = Z.of_nat (String.length lexeme) ->
  String.length (fst (print_line_prefix token l)) = 5%nat /\
  String.length (fmt_d 2 (type token)) = 2%nat /\
  print_token_body token
  = fmt_d 2 (type token) ++ " '" ++ lexeme ++ "'" ++ String "010" "".
Proof.
  intros Hline Htype Hstart Hlength. split; [|split].
  - unfold print_line_prefix.
    destruct (negb (line token =? l)); [|reflexivity].
    cbn [fst]. rewrite length_append, length_fmt_d.
    pose proof (dec_width_4 _ Hline).
    change (String.length " ") with 1%nat. lia.
  - rewrite length_fmt_d. pose proof (dec_width_2 _ Htype). lia.
  - unfold print_token_body, fmt_prec_s. rewrite Hstart, Hlength.
    destruct (Z.ltb_spec (Z.of_nat (String.length lexeme)) 0) as [Hneg|_];
      [lia|].
    now rewrite Nat2Z.id, substring_prefix.
Qed.

(** ** Lines of output *)

Lemma count_newlines_decimal s :
  all_chars decimal_char s = true -> count_newlines s = 0.
Proof.
  induction s as [|c s IH]; simpl; intros H; [reflexivity|].
  apply andb_prop in H. destruct H as [Hc Hs]. rewrite (IH Hs).
  destruct c as [[] [] [] [] [] [] [] []]; try discriminate Hc; reflexivity.
Qed.

Lemma count_newlines_spaces n : count_newlines (spaces n) = 0.
Proof. induction n as [|n IH]; simpl; [reflexivity | now rewrite IH]. Qed.

Lemma count_newlines_fmt_d w n : count_newlines (fmt_d w n) = 0.
Proof.
  unfold fmt_d. rewrite count_newlines_append, count_newlines_spaces.
  now rewrite (count_newlines_decimal _ (proj1 (dec_decimal n))).
Qed.

Lemma count_newlines_listing prev tokens :
  count_newlines (listing prev tokens)
  = Z.of_nat (List.length tokens) + lexeme_newlines tokens.
Proof.
  revert prev. induction tokens as [|token tokens IH]; intros prev;
    [reflexivity|].
  cbn [listing lexeme_newlines List.length].
  rewrite !count_newlines_append, IH.
  assert (Hpre : count_newlines (listing_prefix prev token) = 0).
  { unfold listing_prefix.
    destruct prev as [l|]; [destruct (line token =? l)|];
      rewrite ?count_newlines_append, ?count_newlines_fmt_d; reflexivity. }
  assert (Hbody : count_newlines (print_token_body token)
                  = 1 + count_newlines (lexeme token)).
  { unfold print_token_body, lexeme.
    rewrite !count_newlines_append, count_newlines_fmt_d.
    change (count_newlines " '") with 0.
    change (count_newlines "'") with 0.
    change (count_newlines (String "010" "")) with 1. lia. }
  rewrite Hpre, Hbody. lia.
Qed.

(** X15. The listing holds one newline for each token, the one that ends its
    line, and the newlines of the lexemes: when the [n]-th call of
    [scanToken] is the first to return [TOKEN_EOF] the output has [n + 1]
    lines exactly when no lexeme printed holds a newline, and a token that
    spans lines, as a string literal may, is printed over as many. *)
Theorem compile_prints_one_newline_per_token (source : string) (n : nat) :
  first_eof_at (initScanner source) n ->
  exists out,
    compile (S n) source = Some out /\
    count_newlines out
    = Z.of_nat (S n) + lexeme_newlines (take_tokens n (initScanner source)).
Proof.
  intros Hfirst. unfold compile.
  rewrite (compile_loop_listing n _ _ _ Hfirst).
  replace (n <? S n)%nat with true by (symmetry; apply Nat.ltb_lt; lia).
  eexists. split; [reflexivity|].
  now rewrite count_newlines_listing, take_tokens_length.
Qed.

End Compile.

Lemma compile_line_layout_witness :
  print_token_body (mkToken 36 "var a = 1;" 3 1)
  = "36 'var'" ++ String "010" "".
Proof.
  refine (proj2 (proj2 (compile_line_layout (mkToken 36 "var a = 1;" 3 1) (-1)
                          "var" " a = 1;" _ _ _ _))); simpl;
    solve [lia | reflexivity].
Defined.

End CompileFacts.

(** [compile] on the lexer modelled above. *)

Module CompileOnLexerFacts.
Import Text Clox Lines.

(** The second line of [var a = 1;], newline, [a]: its one token shows the
    line number, the tokens of the first line after [var] do not. *)
Lemma compile_shows_line_number_once_per_line_witness :
  exists before token after,
    @compile Lexer.scanner_api 7 ("var a = 1;" ++ String "010" "a")
    = Some (@listing (Some (-1)) before
            ++ (fmt_d 4 2 ++ " ") ++ print_token_body token
            ++ @listing (Some 2) after).
Proof.
  pose (source := "var a = 1;" ++ String "010" "a").
  pose (tokens := @take_tokens Lexer.scanner_api 6
                    (@initScanner Lexer.scanner_api source)).
  exists (firstn 5 tokens), (nth 5 tokens (mkToken 0 "" 0 0)), (skipn 6 tokens).
  refine (proj1 (@CompileFacts.compile_shows_line_number_once_per_line
                   Lexer.scanner_api source 6
                   (firstn 5 tokens) (nth 5 tokens (mkToken 0 "" 0 0))
                   (skipn 6 tokens) _ _ _)).
  - split; [reflexivity|].
    intros i Hi. do 6 (destruct i as [|i]; [vm_compute; discriminate|]). lia.
  - vm_compute. reflexivity.
  - vm_compute. reflexivity.
Defined.

(** The seven tokens of that text, one line each. *)
Lemma compile_prints_one_newline_per_token_witness :
  exists out,
    @compile Lexer.scanner_api 7 ("var a = 1;" ++ String "010" "a") = Some out /\
    count_newlines out = 7.
Proof.
  refine (@CompileFacts.compile_prints_one_newline_per_token
            Lexer.scanner_api ("var a = 1;" ++ String "010" "a") 6 _).
  split; [reflexivity|].
  intros i Hi. do 6 (destruct i as [|i]; [vm_compute; discriminate|]). lia.
Defined.

End CompileOnLexerFacts.

(** * The listing is the records of the tokens *)

Module ListingFacts.
Import Text TextFacts Clox CloxFacts Listing LibraryDigits.

Ltac digit_cases k :=
  assert (k = 0 \/ k = 1 \/ k = 2 \/ k = 3 \/ k = 4 \/ k = 5 \/ k = 6 \/ k = 7
          \/ k = 8 \/ k = 9) as Hcases by lia;
  repeat destruct Hcases as [Hcases|Hcases]; subst k.

Lemma string_of_digit k d :
  0 <= k < 10 ->
  NilEmpty.string_of_uint (digit_of k d)
  = String (ascii_of_nat (48 + Z.to_nat k)) (NilEmpty.string_of_uint d).
Proof. intros Hk. digit_cases k; reflexivity. Qed.

Lemma revapp_digit k d acc :
  0 <= k < 10 ->
  Decimal.revapp (digit_of k d) acc = Decimal.revapp d (digit_of k acc).
Proof. intros Hk. digit_cases k; reflexivity. Qed.

Lemma of_lu_digit k d :
  0 <= k < 10 ->
  DecimalPos.Unsigned.of_lu (digit_of k d)
  = (Z.to_N k + 10 * DecimalPos.Unsigned.of_lu d)%N.
Proof. intros Hk. digit_cases k; reflexivity. Qed.

Lemma string_of_little fuel :
  forall n acc,
    0 <= n ->
    NilEmpty.string_of_uint (Decimal.revapp (little fuel n) acc)
    = digits fuel n (NilEmpty.string_of_uint acc).
Proof.
  induction fuel as [|fuel IH]; intros n acc Hn; [reflexivity|].
  cbn [little digits].
  assert (Hk : 0 <= n mod 10 < 10) by (apply Z.mod_pos_bound; lia).
  rewrite revapp_digit by exact Hk.
  destruct (n <? 10).
  - cbn [Decimal.revapp]. now apply string_of_digit.
  - rewrite IH by (apply Z.div_pos; lia). now rewrite string_of_digit.
Qed.

Lemma log2_tenth n : 10 <= n -> Z.log2 (n / 10) < Z.log2 n.
Proof.
  intros Hn.
  apply Z.le_lt_trans with (m := Z.log2 (n / 2)).
  - apply Z.log2_le_mono. apply Z.div_le_compat_l; lia.
  - rewrite <- Z.div2_div, Z.div2_spec, Z.log2_shiftr by lia.
    assert (1 <= Z.log2 n) by (apply Z.log2_le_pow2; simpl; lia). lia.
Qed.

Lemma of_lu_little fuel :
  forall n,
    0 <= n -> (Z.to_nat (Z.log2 n) < fuel)%nat ->
    DecimalPos.Unsigned.of_lu (little fuel n) = Z.to_N n.
Proof.
  induction fuel as [|fuel IH]; intros n Hn Hfuel; [lia|].
  cbn [little].
  assert (Hk : 0 <= n mod 10 < 10) by (apply Z.mod_pos_bound; lia).
  rewrite of_lu_digit by exact Hk.
  destruct (Z.ltb_spec n 10) as [Hsmall|Hbig].
  - cbn [DecimalPos.Unsigned.of_lu]. rewrite Z.mod_small by lia. lia.
  - rewrite IH.
    + pose proof (Z.div_mod n 10 ltac:(lia)).
      assert (0 <= n / 10) by (apply Z.div_pos; lia). lia.
    + apply Z.div_pos; lia.
    + pose proof (log2_tenth n Hbig).
      pose proof (Z.log2_nonneg (n / 10)). lia.
Qed.

(** The first digit is not a zero. *)
Lemma little_top fuel :
  forall n acc,
    1 <= n -> (Z.to_nat (Z.log2 n) < fuel)%nat ->
    Decimal.unorm (Decimal.revapp (little fuel n) acc) = Decimal.revapp (little fuel n) acc.
Proof.
  induction fuel as [|fuel IH]; intros n acc Hn Hfuel; [lia|].
  cbn [little].
  assert (Hk : 0 <= n mod 10 < 10) by (apply Z.mod_pos_bound; lia).
  rewrite revapp_digit by exact Hk.
  destruct (Z.ltb_spec n 10) as [Hsmall|Hbig].
  - cbn [Decimal.revapp]. rewrite Z.mod_small by lia.
    digit_cases n; try lia; reflexivity.
  - apply IH.
    + apply Z.div_le_lower_bound; lia.
    + pose proof (log2_tenth n Hbig).
      pose proof (Z.log2_nonneg (n / 10)). lia.
Qed.

Lemma to_uint_little p :
  Pos.to_uint p = Decimal.rev (little (S (Z.to_nat (Z.log2 (Z.pos p)))) (Z.pos p)).
Proof.
  change (Pos.to_uint p) with (N.to_uint (N.pos p)).
  unfold Decimal.rev.
  rewrite <- (little_top (S (Z.to_nat (Z.log2 (Z.pos p)))) (Z.pos p) Decimal.Nil)
    by lia.
  fold (Decimal.rev (little (S (Z.to_nat (Z.log2 (Z.pos p)))) (Z.pos p))).
  rewrite <- DecimalPos.Unsigned.to_of, DecimalPos.Unsigned.of_lu_rev, of_lu_little by lia.
  reflexivity.
Qed.

Lemma string_of_pos p :
  NilZero.string_of_uint (Pos.to_uint p) = natural (Z.pos p).
Proof.
  unfold natural.
  rewrite <- (string_of_little _ (Z.pos p) Decimal.Nil) by lia.
  fold (Decimal.rev (little (S (Z.to_nat (Z.log2 (Z.pos p)))) (Z.pos p))).
  rewrite <- to_uint_little.
  pose proof (DecimalPos.Unsigned.to_uint_nonnil p).
  destruct (Pos.to_uint p); [congruence | reflexivity..].
Qed.

(** The decimal notation of the library is the one computed digit by
    digit. *)
Lemma dec_decimal_eq n : dec n = decimal n.
Proof.
  unfold dec, decimal. destruct n as [|p|p].
  - reflexivity.
  - change (Z.pos p <? 0) with false. cbv iota. apply string_of_pos.
  - change (Z.neg p <? 0) with true. cbv iota.
    change (- Z.neg p) with (Z.pos p). simpl Z.to_int.
    cbn [NilZero.string_of_int]. f_equal. apply string_of_pos.
Qed.

Lemma spaces_blanks n : spaces n = blanks n.
Proof. induction n as [|n IH]; simpl; congruence. Qed.

Lemma fmt_d_right_justified w n : fmt_d w n = right_justified w (decimal n).
Proof.
  unfold fmt_d, right_justified. now rewrite dec_decimal_eq, spaces_blanks.
Qed.

Lemma substring_first_chars n : forall s, substring 0 n s = first_chars n s.
Proof.
  induction n as [|n IH]; intros [|c s]; simpl; try reflexivity.
  now rewrite IH.
Qed.

Lemma lexeme_shown token : Lines.lexeme token = shown_lexeme token.
Proof.
  unfold Lines.lexeme, fmt_prec_s, shown_lexeme.
  destruct (length token <? 0); [reflexivity | apply substring_first_chars].
Qed.

Lemma listing_records tokens :
  forall l, listing (Some l) tokens = concat (records l tokens).
Proof.
  induction tokens as [|token tokens IH]; intros l; [reflexivity|].
  cbn [listing records concat fold_right]. fold (concat (records (line token) tokens)).
  rewrite IH. unfold record, listing_prefix, print_token_body.
  fold (Lines.lexeme token).
  rewrite !fmt_d_right_justified, lexeme_shown.
  destruct (line token =? l); now rewrite !append_assoc.
Qed.

Lemma records_length tokens : forall l, List.length (records l tokens) = List.length tokens.
Proof. induction tokens as [|t tokens IH]; intros l; simpl; congruence. Qed.

Section Compile.

Context `{api : ScannerApi}.

Lemma take_tokens_nth n :
  forall sc i, (i <= n)%nat -> nth_error (take_tokens n sc) i = Some (nth_token sc i).
Proof.
  induction n as [|n IH]; intros sc i Hi.
  - replace i with 0%nat by lia. unfold nth_token. simpl.
    destruct (scanToken sc); reflexivity.
  - destruct i as [|i].
    + unfold nth_token. simpl. destruct (scanToken sc); reflexivity.
    + rewrite CompileFacts.nth_token_S. cbn [take_tokens].
      destruct (scanToken sc) as [token sc']. simpl. apply IH. lia.
Qed.

(** C10. When call [n] of [scanToken] is the first to return a [TOKEN_EOF]
    token, [compile] leaves its loop after exactly [n + 1] iterations and
    has then printed the records of the tokens [0] to [n], one for each and
    in that order.  A record is the line number, when it differs from the
    line of the token printed before, or the filler, then the type and the
    lexeme between quotes, and it ends with a newline; the line before the
    first token counts as [-1], the initial value of the local [line], so
    the first token shows its line number when its line is not [-1].  A
    record is one line of output when the lexeme holds no newline and one
    more for each newline it holds. *)
Theorem compile_prints_a_record_per_token (source : string) (n : nat) :
  first_eof_at (initScanner source) n ->
  let tokens := take_tokens n (initScanner source) in
  (forall fuel,
      compile fuel source =
        if (n <? fuel)%nat then Some (concat (records (-1) tokens)) else None) /\
  List.length (records (-1) tokens) = S n /\
  (forall i, (i <= n)%nat ->
     nth_error tokens i = Some (nth_token (initScanner source) i)) /\
  (forall previous token,
     count_newlines (record previous token)
     = 1 + count_newlines (shown_lexeme token)) /\
  (forall token rest,
     tokens = token :: rest -> line token <> -1 ->
     exists body,
       concat (records (-1) tokens)
       = right_justified 4 (decimal (line token)) ++ " " ++ body).
Proof.
  intros Hfirst tokens. split; [|split; [|split; [|split]]].
  - intros fuel. unfold compile.
    rewrite (compile_loop_listing n _ _ _ Hfirst).
    now rewrite listing_records.
  - rewrite records_length. apply take_tokens_length.
  - intros i Hi. now apply take_tokens_nth.
  - intros previous token.
    pose proof (CompileFacts.count_newlines_listing (Some previous) [token])
      as H.
    rewrite listing_records in H. cbn [records concat fold_right] in H.
    rewrite append_nil_r in H. rewrite H. cbn [Lines.lexeme_newlines List.length].
    rewrite lexeme_shown. lia.
  - intros token rest Htokens Hline. rewrite Htokens.
    cbn [records concat fold_right]. unfold record.
    destruct (Z.eqb_spec (line token) (-1)) as [E|_]; [contradiction|].
    eexists. rewrite !append_assoc. reflexivity.
Qed.

End Compile.

(** [compile] applied to the text [var a = 1;] and a second line [a]. *)
Lemma compile_prints_a_record_per_token_witness :
  @compile Lexer.scanner_api 7 ("var a = 1;" ++ String "010" "a")
  = Some ("   1 36 'var'" ++ String "010"
          ("   | 19 'a'" ++ String "010"
          ("   | 13 '='" ++ String "010"
          ("   | 21 '1'" ++ String "010"
          ("   |  8 ';'" ++ String "010"
          ("   2 19 'a'" ++ String "010"
          ("   | 39 ''" ++ String "010" ""))))))).
Proof.
  refine (proj1 (@compile_prints_a_record_per_token Lexer.scanner_api
                   ("var a = 1;" ++ String "010" "a") 6 _) 7%nat).
  split; [reflexivity|].
  intros i Hi.
  do 6 (destruct i as [|i]; [vm_compute; discriminate|]).
  lia.
Defined.

(** Two tokens printed over three lines: the string literal of the text
    spans two lines, and so does its record.  And a first token that does
    not show its line number: with a scanner whose first token has the line
    [-1], that token is printed behind the filler. *)
Lemma compile_line_per_token_counterexample :
  (@first_eof_at Lexer.scanner_api
     (@initScanner Lexer.scanner_api
        (String "034" ("a" ++ String "010" ("b" ++ String "034" "")))) 1 /\
   exists out,
     @compile Lexer.scanner_api 2
       (String "034" ("a" ++ String "010" ("b" ++ String "034" "")))
     = Some out /\
     count_newlines out = 3) /\
  (@first_eof_at (replay [] (mkToken 0 "" 0 (-1)))
     (@initScanner (replay [] (mkToken 0 "" 0 (-1))) "") 0 /\
   @compile (replay [] (mkToken 0 "" 0 (-1))) 1 ""
   = Some ("   |  0 ''" ++ String "010" "")).
Proof.
  split; [split|split].
  - split; [reflexivity|].
    intros i Hi. destruct i as [|i]; [vm_compute; discriminate | lia].
  - eexists. split; vm_compute; reflexivity.
  - split; [reflexivity | intros i Hi; lia].
  - vm_compute. reflexivity.
Qed.

End ListingFacts.

(** * Facts about the recursive-descent reading *)

Module ParserFacts.
Import Grammar Precedence Parser GrammarFacts.
Local Open Scope list_scope.
Local Open Scope nat_scope.

Lemma level_rule_at k : k <= 7 -> level (rule_at k) = k.
Proof.
  intros H. do 8 (destruct k as [|k]; [reflexivity|]). lia.
Qed.

Lemma derives_rule_at_next k a e :
  1 <= k <= 6 -> derives (rule_at (S k)) a e -> derives (rule_at k) a e.
Proof.
  intros Hk H. apply derives_looser with (r := rule_at (S k)); [exact H|].
  rewrite !level_rule_at by lia. lia.
Qed.

Lemma derives_node_at k a l op b r :
  1 <= k <= 6 ->
  derives (rule_at k) a l -> operator_at k op = true ->
  derives (rule_at (S k)) b r ->
  derives (rule_at k) (a ++ op :: b) (node_at k l op r).
Proof.
  intros Hk Hl Hop Hr.
  do 7 (destruct k as [|k]; [first [lia | now constructor]|]). lia.
Qed.

(** What derives a [get] node derived its object as a [call]. *)
Lemma derives_get_inv r a obj name :
  derives r a (get obj name) ->
  a = tokens_of obj ++ [DOT; IDENTIFIER name] /\
  derives Rule.call (tokens_of obj) obj.
Proof.
  intros H. apply (proj1 derives_shape) in H. destruct H as (Hwf & _ & <-).
  split; [reflexivity|].
  cbn [respects_precedence] in Hwf. split_andb.
  now apply respects_precedence_derives.
Qed.

(** ** Soundness: what a parsing function returns is derived by its rule *)

Ltac solve_app :=
  repeat (cbn [app]; rewrite <- ?app_assoc); reflexivity.

Ltac same_tokens H :=
  match type of H with
  | derives ?r ?a ?e =>
      match goal with
      | |- derives r ?b e => replace b with a by solve_app; exact H
      end
  end.

Lemma parse_sound f : sound_at f.
Proof.
  induction f as [|f IH].
  - unfold sound_at. repeat split; intros; discriminate.
  - destruct IH as (IHa & IHb & IHbl & IHu & IHc & IHcl & IHp & IHargs).
    unfold sound_at. repeat split.
    + (* assignment *)
      intros ts e r H. cbn [parse_assignment] in H.
      destruct (parse_binary f 1 ts) as [[e1 r1]|] eqn:Hb; [|discriminate H].
      destruct (IHb 1 _ _ _ (le_n 1) Hb) as (a & -> & Ha).
      assert (Hplain : Some (e1, r1) = Some (e, r) ->
                       exists a0, a ++ r1 = a0 ++ r /\
                                  derives Rule.assignment a0 e).
      { intros Heq. inversion Heq; subst. exists a. split; [reflexivity|].
        now apply d_assignment_logic_or. }
      destruct r1 as [|t r1]; [now apply Hplain|].
      destruct t; try (now apply Hplain).
      destruct e1; try discriminate H.
      * (* a get becomes a set *)
        destruct (parse_assignment f r1) as [[v r']|] eqn:Hv; [|discriminate H].
        inversion H; subst.
        destruct (IHa _ _ _ Hv) as (b & -> & Hb').
        destruct (derives_get_inv _ _ _ _ Ha) as (-> & Hobj).
        exists (tokens_of e1 ++ DOT :: IDENTIFIER name :: EQUAL :: b).
        split; [solve_app|].
        now apply d_set.
      * (* a variable becomes an assignment *)
        destruct (parse_assignment f r1) as [[v r']|] eqn:Hv; [|discriminate H].
        inversion H; subst.
        destruct (IHa _ _ _ Hv) as (b & -> & Hb').
        assert (a = [IDENTIFIER name]) as ->.
        { apply (proj1 derives_shape) in Ha. destruct Ha as (_ & _ & <-).
          reflexivity. }
        exists (IDENTIFIER name :: EQUAL :: b). split; [reflexivity|].
        now apply d_assignment.
    + (* logic_or to factor, and unary_expr *)
      intros k ts e r Hk H. cbn [parse_binary] in H.
      destruct (Nat.leb_spec 7 k) as [H7|H7].
      * destruct (IHu _ _ _ H) as (a & -> & Ha).
        exists a. split; [reflexivity|].
        do 7 (destruct k as [|k]; [lia|]). exact Ha.
      * destruct (parse_binary f (S k) ts) as [[l rest]|] eqn:Hl;
          [|discriminate H].
        destruct (IHb (S k) _ _ _ ltac:(lia) Hl) as (a & -> & Ha).
        apply derives_rule_at_next in Ha; [|lia].
        destruct (IHbl k l rest e r a ltac:(lia) Ha H) as (b & -> & Hb).
        exists (a ++ b). split; [solve_app | exact Hb].
    + (* the loop of a left-recursive rule *)
      intros k l ts e r a0 Hk Hl H. cbn [parse_binary_loop] in H.
      destruct ts as [|op rest].
      * inversion H; subst. exists []. split; [reflexivity | now rewrite app_nil_r].
      * destruct (operator_at k op) eqn:Hop.
        -- destruct (parse_binary f (S k) rest) as [[r1 rest']|] eqn:Hr;
             [|discriminate H].
           destruct (IHb (S k) _ _ _ ltac:(lia) Hr) as (b & -> & Hb).
           pose proof (derives_node_at k a0 l op b r1 Hk Hl Hop Hb) as Hnode.
           destruct (IHbl k _ rest' e r _ Hk Hnode H) as (b' & -> & Hb').
           exists (op :: b ++ b'). split; [solve_app | same_tokens Hb'].
        -- inversion H; subst. exists []. split; [reflexivity | now rewrite app_nil_r].
    + (* unary_expr *)
      intros ts e r H. cbn [parse_unary] in H.
      destruct ts as [|op rest]; [discriminate H|].
      destruct (_unary_operator op) eqn:Hop.
      * destruct (parse_unary f rest) as [[x rest']|] eqn:Hx; [|discriminate H].
        inversion H; subst.
        destruct (IHu _ _ _ Hx) as (a & -> & Ha).
        exists (op :: a). split; [reflexivity | now apply d_unary].
      * destruct (IHc _ _ _ H) as (a & Hts & Ha).
        exists a. split; [exact Hts | now apply d_unary_expr_call].
    + (* call *)
      intros ts e r H. cbn [parse_call] in H.
      destruct (parse_primary f ts) as [[c rest]|] eqn:Hc; [|discriminate H].
      destruct (IHp _ _ _ Hc) as (a & -> & Ha).
      apply d_call_primary in Ha.
      destruct (IHcl _ _ _ _ _ Ha H) as (b & -> & Hb).
      exists (a ++ b). split; [solve_app | exact Hb].
    + (* the loop of call *)
      intros c ts e r a0 Hc H. cbn [parse_call_loop] in H.
      assert (Hstop : Some (c, ts) = Some (e, r) ->
                      exists b, ts = b ++ r /\ derives Rule.call (a0 ++ b) e).
      { intros Heq. inversion Heq; subst. exists []. split; [reflexivity | now rewrite app_nil_r]. }
      destruct ts as [|t rest]; [now apply Hstop|].
      destruct t; try (now apply Hstop).
      * (* ( *)
        assert (Hargs :
                 match parse_arguments f rest with
                 | Some (args, RPAR :: rest') =>
                     parse_call_loop f (call c (Some args) RPAR) rest'
                 | _ => None
                 end = Some (e, r) ->
                 exists b, LPAR :: rest = b ++ r /\
                           derives Rule.call (a0 ++ b) e).
        { intros Hm.
          destruct (parse_arguments f rest) as [[args rest1]|] eqn:Ha;
            [|discriminate Hm].
          destruct rest1 as [|[] rest']; try discriminate Hm.
          destruct (IHargs _ _ _ Ha) as (ta & -> & Hta).
          pose proof (d_call a0 c ta args Hc Hta) as Hcall.
          destruct (IHcl _ _ _ _ _ Hcall Hm) as (b & -> & Hb).
          exists (LPAR :: ta ++ RPAR :: b).
          split; [solve_app | same_tokens Hb]. }
        destruct rest as [|t rest']; [now apply Hargs|].
        destruct t; try (now apply Hargs).
        pose proof (d_call_no_arguments a0 c Hc) as Hcall.
        destruct (IHcl _ _ _ _ _ Hcall H) as (b & -> & Hb).
        exists (LPAR :: RPAR :: b). split; [reflexivity | same_tokens Hb].
      * (* . *)
        destruct rest as [|t rest']; [now apply Hstop|].
        destruct t; try (now apply Hstop).
        pose proof (d_get a0 c name Hc) as Hget.
        destruct (IHcl _ _ _ _ _ Hget H) as (b & -> & Hb).
        exists (DOT :: IDENTIFIER name :: b).
        split; [reflexivity | same_tokens Hb].
    + (* primary *)
      intros ts e r H. cbn [parse_primary] in H.
      destruct ts as [|t rest]; [discriminate H|].
      destruct t; try discriminate H;
        try (inversion H; subst;
             eexists [_]; split; [reflexivity | constructor]).
      * (* super *)
        destruct rest as [|[] rest]; try discriminate H.
        destruct rest as [|[] rest]; try discriminate H.
        inversion H; subst.
        exists [SUPER; DOT; IDENTIFIER name].
        split; [reflexivity | constructor].
      * (* a grouping *)
        destruct (parse_assignment f rest) as [[x rest1]|] eqn:Hx;
          [|discriminate H].
        destruct rest1 as [|[] rest']; try discriminate H.
        inversion H; subst.
        destruct (IHa _ _ _ Hx) as (a & -> & Ha).
        exists (LPAR :: a ++ [RPAR]).
        split; [solve_app|].
        now apply d_grouping, d_expression.
    + (* arguments *)
      intros ts args r H. cbn [parse_arguments] in H.
      destruct (parse_assignment f ts) as [[e rest]|] eqn:He; [|discriminate H].
      destruct (IHa _ _ _ He) as (a & -> & Ha).
      apply d_expression in Ha.
      assert (Hone : Some ([e], rest) = Some (args, r) ->
                     exists a1, a ++ rest = a1 ++ r /\ derives_arguments a1 args).
      { intros Heq. inversion Heq; subst. exists a.
        split; [reflexivity | now apply d_arguments_one]. }
      destruct rest as [|t rest']; [now apply Hone|].
      destruct t; try (now apply Hone).
      destruct (parse_arguments f rest') as [[more rest1]|] eqn:Hmore;
        [|discriminate H].
      inversion H; subst.
      destruct (IHargs _ _ _ Hmore) as (b & -> & Hb).
      exists (a ++ COMMA :: b). split; [solve_app|].
      now apply d_arguments_more.
Qed.

(** ** Completeness: the tokens of a tree are read back as the tree *)

Local Arguments Nat.leb : simpl never.

Lemma prec_le_9 e : prec e <= 9.
Proof.
  unfold prec. destruct e as [name v|obj name v|l op r|l op r|op x|c args paren|obj name|c| |x|name|m];
    simpl; try lia.
  - destruct (_logic_or_operator op); simpl; lia.
  - destruct (_equality_operator op), (_comparison_operator op),
      (_addition_operator op); simpl; lia.
Qed.

(** The first token of a tree. *)
Lemma tokens_of_starts e :
  respects_precedence e = true ->
  exists t ts',
    tokens_of e = t :: ts' /\
    (starts_primary t = true \/ _unary_operator t = true) /\
    (8 <= prec e -> starts_primary t = true).
Proof.
  induction e using expr_ind'; intros Hwf;
    cbn [respects_precedence] in Hwf; split_andb; cbn [tokens_of];
    try (destruct (IHe1 ltac:(assumption)) as (t & ts' & -> & Ht & Ht8));
    try (destruct (IHe ltac:(assumption)) as (t & ts' & -> & Ht & Ht8));
    try (exists t; eexists; split; [reflexivity|]; split; [exact Ht|]);
    try solve [ intros _; apply Ht8; assumption
              | unfold prec; simpl; intros; lia ].
  - (* an assignment *)
    eexists _, _. split; [reflexivity|]. split; [now left|].
    unfold prec; simpl; intros; lia.
  - (* a logical node *)
    unfold prec. simpl. destruct (_logic_or_operator op); simpl; lia.
  - (* a binary node *)
    unfold prec. simpl.
    destruct (_equality_operator op), (_comparison_operator op),
      (_addition_operator op); simpl; lia.
  - (* a unary node *)
    eexists _, _. split; [reflexivity|]. split; [now right|].
    unfold prec; simpl; intros; lia.
  - (* a literal *)
    destruct c; eexists _, _; (split; [reflexivity|]); split;
      solve [left; reflexivity | reflexivity].
  - eexists _, _. split; [reflexivity|]. split; [now left | reflexivity].
  - eexists _, _. split; [reflexivity|]. split; [now left | reflexivity].
  - eexists _, _. split; [reflexivity|]. split; [now left | reflexivity].
  - eexists _, _. split; [reflexivity|]. split; [now left | reflexivity].
Qed.

Lemma starts_primary_not_unary t :
  starts_primary t = true -> _unary_operator t = false.
Proof. destruct t; simpl; congruence. Qed.

Lemma may_follow_weaken k k' rest :
  k <= k' -> may_follow k rest -> may_follow k' rest.
Proof.
  intros Hk. destruct rest as [|t rest]; [trivial|]. simpl.
  destruct t; simpl; try congruence;
    repeat match goal with
           | |- context [?a <=? ?b] => destruct (Nat.leb_spec a b)
           | |- context [?a =? ?b] => destruct (Nat.eqb_spec a b)
           end; simpl; try congruence; try lia.
Qed.

Lemma continues_operator_at k j t :
  continues k t = false -> k <= j -> operator_at j t = false.
Proof.
  intros H Hj.
  destruct (operator_at j t) eqn:Hop; [|reflexivity].
  destruct j as [|[|[|[|[|[|[|j]]]]]]]; try discriminate Hop;
    destruct t; try discriminate Hop; simpl in H;
    repeat match type of H with
           | context [?a <=? ?b] => destruct (Nat.leb_spec a b)
           end; simpl in H; try discriminate H; lia.
Qed.

Lemma operator_at_may_follow k op rest :
  1 <= k <= 6 -> operator_at k op = true -> may_follow (S k) (op :: rest).
Proof.
  intros Hk Hop. simpl.
  destruct k as [|[|[|[|[|[|[|k]]]]]]]; try lia;
    destruct op; try discriminate Hop; reflexivity.
Qed.

(** A tree whose root binds at level [k], between 1 and 6, is a node of the
    rule of that level. *)
Lemma node_at_level e k :
  respects_precedence e = true -> prec e = k -> 1 <= k <= 6 ->
  exists l op r,
    e = node_at k l op r /\ operator_at k op = true /\
    respects_precedence l = true /\ k <= prec l /\
    respects_precedence r = true /\ S k <= prec r /\
    tokens_of e = tokens_of l ++ op :: tokens_of r /\
    size l < size e /\ size r < size e.
Proof.
  intros Hwf Hprec Hk.
  destruct e as [name v|obj name v|l op r|l op r|op x|c args paren|obj name|c| |x|name|m];
    unfold prec in Hprec; simpl in Hprec; try lia;
    cbn [respects_precedence] in Hwf; split_andb.
  - exists l, op, r.
    unfold is_logical_operator in *.
    destruct op; try discriminate; unfold prec in *; simpl in *; subst k;
      repeat split; solve [assumption | lia | reflexivity].
  - exists l, op, r.
    unfold is_binary_operator in *.
    destruct op; try discriminate; unfold prec in *; simpl in *; subst k;
      repeat split; solve [assumption | lia | reflexivity].
Qed.

(** A loop stops in front of a token that does not continue its rule. *)
Lemma parse_binary_loop_stops k e rest :
  may_follow k rest ->
  eventually (fun f => parse_binary_loop f k e rest) (e, rest).
Proof.
  intros H. exists 1. intros [|f] Hf; [lia|]. cbn [parse_binary_loop].
  destruct rest as [|t rest]; [reflexivity|]. simpl in H.
  now rewrite (continues_operator_at k k t H (le_n k)).
Qed.

Lemma parse_call_loop_stops e rest :
  may_follow 7 rest ->
  eventually (fun f => parse_call_loop f e rest) (e, rest).
Proof.
  intros H. exists 1. intros [|f] Hf; [lia|]. cbn [parse_call_loop].
  destruct rest as [|t rest]; [reflexivity|].
  destruct t; try reflexivity; discriminate H.
Qed.

Lemma parse_call_loop_arguments f c t rest :
  t <> RPAR ->
  parse_call_loop (S f) c (LPAR :: t :: rest)
  = match parse_arguments f (t :: rest) with
    | Some (args, RPAR :: rest') =>
        parse_call_loop f (call c (Some args) RPAR) rest'
    | _ => None
    end.
Proof. intros Ht. destruct t; try reflexivity. congruence. Qed.

Lemma prec_cases e :
  match e with
  | assignment _ _ | set _ _ _ => prec e = 0
  | logical_expression _ _ _ => 1 <= prec e <= 2
  | binary _ _ _ => 3 <= prec e <= 6
  | unary _ _ => prec e = 7
  | call _ _ _ | get _ _ => prec e = 8
  | _ => prec e = 9
  end.
Proof.
  unfold prec.
  destruct e as [name v|obj name v|l op r|l op r|op x|c args paren
                |obj name|c| |x|name|m];
    simpl; try lia.
  - destruct (_logic_or_operator op); simpl; lia.
  - destruct (_equality_operator op), (_comparison_operator op),
      (_addition_operator op); simpl; lia.
Qed.

Lemma size_pos e : 1 <= size e.
Proof. destruct e; simpl; lia. Qed.

Lemma size_in a args : In a args -> size a <= list_sum (map size args).
Proof.
  induction args as [|b args IH]; intros Hin; [contradiction|].
  simpl. destruct Hin as [->|Hin]; [lia|]. specialize (IH Hin). lia.
Qed.

Lemma comma_separated_starts args :
  args <> [] -> forallb respects_precedence args = true ->
  exists t cs, comma_separated (map tokens_of args) = t :: cs /\ t <> RPAR.
Proof.
  destruct args as [|a args]; [congruence|]. intros _ Hall.
  cbn [forallb] in Hall. apply andb_prop in Hall. destruct Hall as [Ha _].
  destruct (tokens_of_starts a Ha) as (t & ts' & Ht & Hstart & _).
  exists t. destruct args as [|b args]; cbn [map comma_separated];
    rewrite Ht; eexists; (split; [reflexivity|]);
    intros ->; destruct Hstart; discriminate.
Qed.

(** An argument list is read back when each argument is. *)
Lemma complete_arguments args :
  args <> [] ->
  Forall complete_assignment args ->
  forall rest,
    eventually
      (fun f =>
         parse_arguments f (comma_separated (map tokens_of args) ++ RPAR :: rest))
      (args, RPAR :: rest).
Proof.
  induction args as [|a args IH]; [congruence|]. intros _ Hall rest.
  pose proof (Forall_inv Hall) as Ha. apply Forall_inv_tail in Hall.
  destruct args as [|b args].
  - destruct (Ha (RPAR :: rest) eq_refl) as [f1 H1].
    exists (S f1). intros [|f] Hf; [lia|].
    cbn [map comma_separated parse_arguments].
    rewrite H1 by lia. reflexivity.
  - destruct (IH ltac:(discriminate) Hall rest) as [f2 H2].
    destruct (Ha (COMMA :: comma_separated (map tokens_of (b :: args))
                    ++ RPAR :: rest) eq_refl) as [f1 H1].
    exists (S (f1 + f2)). intros [|f] Hf; [lia|].
    rewrite map_cons, comma_separated_cons by discriminate.
    rewrite <- app_assoc. cbn [app parse_arguments].
    rewrite H1 by lia. rewrite H2 by lia. reflexivity.
Qed.

(** From the statement about the loop to the plain one. *)
Lemma complete_binary_plain e k rest :
  1 <= k <= 7 ->
  (k = 7 -> complete_unary e) ->
  (k <= 6 -> complete_binary k e) ->
  k <= prec e -> may_follow k rest ->
  eventually (fun f => parse_binary f k (tokens_of e ++ rest)) (e, rest).
Proof.
  intros Hk H7 HB Hprec Hfollow.
  destruct (Nat.eq_dec k 7) as [->|Hne].
  - destruct (H7 eq_refl Hprec rest Hfollow) as [f1 H1].
    exists (S f1). intros [|f] Hf; [lia|]. cbn [parse_binary].
    change (7 <=? 7) with true. cbv iota. apply H1. lia.
  - apply (HB ltac:(lia) Hprec).
    + apply may_follow_weaken with (k := k); [lia | exact Hfollow].
    + now apply parse_binary_loop_stops.
Qed.

Ltac tokens_as e rest ts :=
  replace (tokens_of e ++ rest) with ts by (cbn [tokens_of]; solve_app).

Lemma parse_complete n :
  forall e, size e < n -> respects_precedence e = true -> complete e.
Proof.
  induction n as [|n IH]; intros e Hsize Hwf; [lia|].
  assert (IHsub : forall e', size e' < size e ->
                             respects_precedence e' = true -> complete e')
    by (intros e' He' Hwf'; apply IH; [lia | exact Hwf']).
  clear IH Hsize.
  pose proof (prec_cases e) as Hcases.
  (* primary *)
  assert (H9 : complete_primary e).
  { intros Hp rest.
    destruct e as [name v|obj name v|l op r|l op r|op x|c args paren
                  |obj name|c| |x|name|m]; try lia.
    - exists 1. intros [|f] Hf; [lia|]. destruct c; reflexivity.
    - exists 1. intros [|f] Hf; [lia|]. reflexivity.
    - cbn [respects_precedence] in Hwf.
      destruct (IHsub x ltac:(simpl; lia) Hwf) as (_ & _ & _ & _ & Hx).
      destruct (Hx (RPAR :: rest) eq_refl) as [f1 Hrun1].
      exists (S f1). intros [|f] Hf; [lia|].
      cbn [tokens_of app parse_primary]. rewrite <- app_assoc. cbn [app].
      rewrite Hrun1 by lia. reflexivity.
    - exists 1. intros [|f] Hf; [lia|]. reflexivity.
    - exists 1. intros [|f] Hf; [lia|]. reflexivity. }
  (* call *)
  assert (H8 : complete_call e).
  { intros Hp rest res [f2 Hrun2].
    assert (Hprimary : prec e = 9 ->
              eventually (fun f => parse_call f (tokens_of e ++ rest)) res).
    { intros Hp9. destruct (H9 Hp9 rest) as [f1 Hrun1].
      exists (S (f1 + f2)). intros [|f] Hf; [lia|]. cbn [parse_call].
      rewrite Hrun1 by lia. apply Hrun2. lia. }
    destruct e as [name v|obj name v|l op r|l op r|op x|c args paren
                  |obj name|c| |x|name|m]; try lia;
      try (apply Hprimary; exact Hcases);
      cbn [respects_precedence] in Hwf; split_andb.
    - (* a call *)
      destruct paren; try discriminate.
      destruct (IHsub c ltac:(simpl; lia) ltac:(assumption))
        as (_ & Hc & _ & _ & _).
      destruct args as [args|].
      + destruct args as [|a args']; [discriminate|].
        set (args := a :: args') in *.
        assert (Hargs : Forall complete_assignment args).
        { apply Forall_forall. intros b Hb.
          assert (Hwb : respects_precedence b = true).
          { match goal with
            | H : forallb _ _ = true |- _ =>
                apply (proj1 (forallb_forall _ _) H b Hb)
            end. }
          apply (IHsub b); [|exact Hwb].
          pose proof (size_in b args Hb). cbn [size]. lia. }
        destruct (comma_separated_starts args ltac:(discriminate)
                    ltac:(assumption)) as (t & cs & Hcs & Ht).
        destruct (complete_arguments args ltac:(discriminate) Hargs rest)
          as [f1 Hrun1].
        tokens_as (call c (Some args) RPAR) rest
          (tokens_of c ++ LPAR
             :: comma_separated (map tokens_of args) ++ RPAR :: rest).
        apply Hc; [assumption|].
        exists (S (f1 + f2)). intros [|f] Hf; [lia|].
        rewrite Hcs in *. cbn [app] in *.
        rewrite parse_call_loop_arguments by exact Ht.
        rewrite Hrun1 by lia. apply Hrun2. lia.
      + tokens_as (call c None RPAR) rest
          (tokens_of c ++ LPAR :: RPAR :: rest).
        apply Hc; [assumption|].
        exists (S f2). intros [|f] Hf; [lia|]. cbn [parse_call_loop].
        apply Hrun2. lia.
    - (* a property access *)
      destruct (IHsub obj ltac:(simpl; lia) ltac:(assumption))
        as (_ & Hc & _ & _ & _).
      tokens_as (get obj name) rest
        (tokens_of obj ++ DOT :: IDENTIFIER name :: rest).
      apply Hc; [assumption|].
      exists (S f2). intros [|f] Hf; [lia|]. cbn [parse_call_loop].
      apply Hrun2. lia. }
  (* unary_expr *)
  assert (H7 : complete_unary e).
  { intros Hp rest Hfollow.
    assert (Hcall : 8 <= prec e ->
              eventually (fun f => parse_unary f (tokens_of e ++ rest))
                (e, rest)).
    { intros Hp8.
      destruct (tokens_of_starts e Hwf) as (t & ts' & Htok & _ & Hstart).
      pose proof (starts_primary_not_unary t (Hstart Hp8)) as Hnot.
      destruct (H8 Hp8 rest (e, rest) (parse_call_loop_stops e rest Hfollow))
        as [f1 Hrun1].
      exists (S f1). intros [|f] Hf; [lia|].
      specialize (Hrun1 f ltac:(lia)). rewrite Htok in *.
      cbn [app parse_unary] in *. rewrite Hnot. exact Hrun1. }
    destruct e as [name v|obj name v|l op r|l op r|op x|c args paren
                  |obj name|c| |x|name|m]; try lia;
      try (apply Hcall; lia).
    cbn [respects_precedence] in Hwf; split_andb.
    destruct (IHsub x ltac:(simpl; lia) ltac:(assumption))
      as (_ & _ & Hx & _ & _).
    destruct (Hx ltac:(assumption) rest Hfollow) as [f1 Hrun1].
    exists (S f1). intros [|f] Hf; [lia|].
    cbn [tokens_of app parse_unary].
    match goal with H : _unary_operator op = true |- _ => rewrite H end.
    rewrite Hrun1 by lia. reflexivity. }
  (* logic_or to factor *)
  assert (HB : forall d k, k + d = 6 -> 1 <= k -> complete_binary k e).
  { induction d as [|d IHd]; intros k Hkd Hk Hp rest res Hfollow [f2 Hrun2].
    - (* factor *)
      destruct (Nat.eq_dec (prec e) k) as [Heq|Hne].
      + destruct (node_at_level e k Hwf Heq ltac:(lia))
          as (l & op & r & He & Hop & Hwl & Hpl & Hwr & Hpr & Htok & Hsl & Hsr).
        destruct (IHsub l Hsl Hwl) as (_ & _ & _ & Hl & _).
        destruct (IHsub r Hsr Hwr) as (_ & _ & Hr7 & Hr & _).
        rewrite Htok, <- app_assoc. cbn [app].
        apply (Hl k ltac:(lia) Hpl);
          [now apply operator_at_may_follow; [lia|]|].
        destruct (complete_binary_plain r (S k) rest ltac:(lia)
                    (fun _ => Hr7) (fun H => Hr (S k) ltac:(lia)) Hpr Hfollow)
          as [f1 Hrun1].
        exists (S (f1 + f2)). intros [|f] Hf; [lia|].
        cbn [parse_binary_loop]. rewrite Hop. rewrite Hrun1 by lia.
        rewrite <- He. apply Hrun2. lia.
      + destruct (complete_binary_plain e (S k) rest ltac:(lia)
                    (fun _ => H7) (fun H => ltac:(lia)) ltac:(lia) Hfollow)
          as [f1 Hrun1].
        exists (S (f1 + f2)). intros [|f] Hf; [lia|].
        cbn [parse_binary].
        replace (7 <=? k) with false by (symmetry; apply Nat.leb_gt; lia).
        rewrite Hrun1 by lia. apply Hrun2. lia.
    - destruct (Nat.eq_dec (prec e) k) as [Heq|Hne].
      + destruct (node_at_level e k Hwf Heq ltac:(lia))
          as (l & op & r & He & Hop & Hwl & Hpl & Hwr & Hpr & Htok & Hsl & Hsr).
        destruct (IHsub l Hsl Hwl) as (_ & _ & _ & Hl & _).
        destruct (IHsub r Hsr Hwr) as (_ & _ & Hr7 & Hr & _).
        rewrite Htok, <- app_assoc. cbn [app].
        apply (Hl k ltac:(lia) Hpl);
          [now apply operator_at_may_follow; [lia|]|].
        destruct (complete_binary_plain r (S k) rest ltac:(lia)
                    (fun _ => Hr7) (fun H => Hr (S k) ltac:(lia)) Hpr Hfollow)
          as [f1 Hrun1].
        exists (S (f1 + f2)). intros [|f] Hf; [lia|].
        cbn [parse_binary_loop]. rewrite Hop. rewrite Hrun1 by lia.
        rewrite <- He. apply Hrun2. lia.
      + destruct (complete_binary_plain e (S k) rest ltac:(lia)
                    (fun H => ltac:(lia))
                    (fun _ => IHd (S k) ltac:(lia) ltac:(lia))
                    ltac:(lia) Hfollow)
          as [f1 Hrun1].
        exists (S (f1 + f2)). intros [|f] Hf; [lia|].
        cbn [parse_binary].
        replace (7 <=? k) with false by (symmetry; apply Nat.leb_gt; lia).
        rewrite Hrun1 by lia. apply Hrun2. lia. }
  assert (HB' : forall k, 1 <= k <= 6 -> complete_binary k e)
    by (intros k Hk; apply (HB (6 - k) k); lia).
  (* assignment *)
  assert (H0 : complete_assignment e).
  { intros rest Hfollow.
    assert (Hplain : 1 <= prec e ->
              eventually (fun f => parse_assignment f (tokens_of e ++ rest))
                (e, rest)).
    { intros Hp1.
      destruct (complete_binary_plain e 1 rest ltac:(lia)
                  (fun H => ltac:(lia)) (fun _ => HB' 1 ltac:(lia)) Hp1
                  (may_follow_weaken 0 1 rest ltac:(lia) Hfollow))
        as [f1 Hrun1].
      exists (S f1). intros [|f] Hf; [lia|]. cbn [parse_assignment].
      rewrite Hrun1 by lia.
      destruct rest as [|t rest']; [reflexivity|].
      destruct t; try reflexivity. discriminate Hfollow. }
    destruct e as [name v|obj name v|l op r|l op r|op x|c args paren
                  |obj name|c| |x|name|m];
      try (apply Hplain; lia);
      cbn [respects_precedence] in Hwf; split_andb.
    - (* an assignment *)
      pose proof (size_pos v) as Hv1.
      destruct (IHsub (variable name) ltac:(simpl; lia) eq_refl)
        as (_ & _ & Hn7 & Hn & _).
      destruct (IHsub v ltac:(simpl; lia) Hwf) as (_ & _ & _ & _ & Hv).
      destruct (complete_binary_plain (variable name) 1
                  (EQUAL :: tokens_of v ++ rest) ltac:(lia)
                  (fun H => ltac:(lia)) (fun _ => Hn 1 ltac:(lia))
                  ltac:(unfold prec; simpl; lia) eq_refl) as [f1 Hrun1].
      destruct (Hv rest Hfollow) as [f2 Hrun2].
      exists (S (f1 + f2)). intros [|f] Hf; [lia|].
      cbn [tokens_of app parse_assignment] in *.
      rewrite Hrun1 by lia. rewrite Hrun2 by lia. reflexivity.
    - (* a set *)
      assert (Hwg : respects_precedence (get obj name) = true).
      { cbn [respects_precedence]. split_andb; assumption. }
      destruct (IHsub (get obj name) ltac:(simpl; lia) Hwg)
        as (_ & _ & _ & Hg & _).
      destruct (IHsub v ltac:(simpl; lia) ltac:(assumption))
        as (_ & _ & _ & _ & Hv).
      destruct (complete_binary_plain (get obj name) 1
                  (EQUAL :: tokens_of v ++ rest) ltac:(lia)
                  (fun H => ltac:(lia)) (fun _ => Hg 1 ltac:(lia))
                  ltac:(unfold prec; simpl; lia) eq_refl) as [f1 Hrun1].
      destruct (Hv rest Hfollow) as [f2 Hrun2].
      tokens_as (set obj name v) rest
        (tokens_of (get obj name) ++ EQUAL :: tokens_of v ++ rest).
      exists (S (f1 + f2)). intros [|f] Hf; [lia|].
      cbn [parse_assignment].
      rewrite Hrun1 by lia. rewrite Hrun2 by lia. reflexivity. }
  repeat split; assumption.
Qed.

(** What a rule derives is read back by its parsing function, in front of
    any token that may follow. *)
Lemma parse_assignment_complete ts e rest :
  derives Rule.assignment ts e -> may_follow 0 rest ->
  eventually (fun f => parse_assignment f (ts ++ rest)) (e, rest).
Proof.
  intros H Hfollow.
  destruct (proj1 derives_shape _ _ _ H) as (Hwf & _ & <-).
  destruct (parse_complete (S (size e)) e (le_n _) Hwf) as (_ & _ & _ & _ & H0).
  now apply H0.
Qed.

Lemma parse_binary_complete k ts e rest :
  1 <= k <= 7 -> derives (rule_at k) ts e -> may_follow k rest ->
  eventually (fun f => parse_binary f k (ts ++ rest)) (e, rest).
Proof.
  intros Hk H Hfollow.
  destruct (proj1 derives_shape _ _ _ H) as (Hwf & Hprec & <-).
  rewrite level_rule_at in Hprec by lia.
  destruct (parse_complete (S (size e)) e (le_n _) Hwf)
    as (_ & _ & H7 & HB & _).
  apply complete_binary_plain; try assumption.
  - intros _. exact H7.
  - intros Hk6. apply HB. lia.
Qed.

(** The grammar and the parsing functions agree on whole expressions. *)
Lemma parse_assignment_spec ts e :
  derives Rule.expression ts e <->
  exists fuel, parse_assignment fuel ts = Some (e, []).
Proof.
  split.
  - intros H. apply derives_looser with (r' := Rule.assignment) in H;
      [|simpl; lia].
    destruct (parse_assignment_complete ts e [] H I) as [f Hf].
    exists f. rewrite app_nil_r in Hf. now apply Hf.
  - intros [f Hf].
    destruct (proj1 (parse_sound f) _ _ _ Hf) as (a & -> & Ha).
    rewrite app_nil_r. now apply d_expression.
Qed.

(** The expression rules are unambiguous: a token sequence has at most one
    tree. *)
Lemma derives_unique r ts e1 e2 :
  derives r ts e1 -> derives r ts e2 -> e1 = e2.
Proof.
  intros H1 H2.
  apply derives_looser with (r' := Rule.assignment) in H1; [|simpl; lia].
  apply derives_looser with (r' := Rule.assignment) in H2; [|simpl; lia].
  destruct (parse_assignment_complete ts e1 [] H1 I) as [f1 Hf1].
  destruct (parse_assignment_complete ts e2 [] H2 I) as [f2 Hf2].
  specialize (Hf1 (f1 + f2) ltac:(lia)). specialize (Hf2 (f1 + f2) ltac:(lia)).
  congruence.
Qed.

(** An expression followed by [=] is an assignment target only as a
    [variable] or a [get]. *)
Lemma assignment_target_inv lhs l rhs e :
  derives Rule.logic_or lhs l ->
  derives Rule.assignment (lhs ++ EQUAL :: rhs) e ->
  exists v,
    derives Rule.assignment rhs v /\
    ((exists name, l = variable name /\ e = assignment name v) \/
     (exists obj name, l = get obj name /\ e = set obj name v)).
Proof.
  intros Hl He.
  destruct (parse_assignment_complete _ e [] He I) as [f1 Hf1].
  destruct (parse_binary_complete 1 lhs l (EQUAL :: rhs) ltac:(lia) Hl eq_refl)
    as [f2 Hf2].
  specialize (Hf1 (S (f1 + f2)) ltac:(lia)).
  specialize (Hf2 (f1 + f2) ltac:(lia)).
  rewrite app_nil_r in Hf1. cbn [parse_assignment] in Hf1.
  rewrite Hf2 in Hf1.
  destruct l; try discriminate Hf1;
    destruct (parse_assignment (f1 + f2) rhs) as [[v rest']|] eqn:Hv;
    try discriminate Hf1;
    inversion Hf1; subst;
    destruct (proj1 (parse_sound _) _ _ _ Hv) as (a & Ha & Hd);
    rewrite app_nil_r in Ha; subst a;
    exists v; (split; [exact Hd|]); [right | left]; eauto.
Qed.

(** On the grammar: let the tokens before an [=] be an expression, derived
    by [logic_or] with tree [l].  The rule [assignment] then derives the whole
    exactly as a conversion of [l]: an [assignment] node when [l] is a
    [variable], a [set] node when [l] is a [get], with the value derived by
    [assignment] from the tokens after the [=]; when [l] is any other tree
    the whole has no derivation, that is, it is a syntax error. *)
Lemma assignment_converts_variable_and_get (lhs : list token) (l : expr)
    (rhs : list token) :
  derives Rule.logic_or lhs l ->
  forall e,
    derives Rule.assignment (lhs ++ EQUAL :: rhs) e <->
    exists v,
      derives Rule.assignment rhs v /\
      ((exists name, l = variable name /\ e = assignment name v) \/
       (exists obj name, l = get obj name /\ e = set obj name v)).
Proof.
  intros Hl e. split.
  - now apply assignment_target_inv.
  - intros (v & Hv & [(name & -> & ->) | (obj & name & -> & ->)]).
    + destruct (proj1 derives_shape _ _ _ Hl) as (_ & _ & <-).
      now apply d_assignment.
    + destruct (derives_get_inv _ _ _ _ Hl) as (-> & Hobj).
      rewrite <- app_assoc. now apply d_set.
Qed.

(** A grouping is not an assignment target: [(a) = 1] has no derivation. *)
Lemma grouping_is_no_assignment_target e :
  ~ derives Rule.expression
      [LPAR; IDENTIFIER "a"; RPAR; EQUAL; NUMBER "1"] e.
Proof.
  intros H. apply derives_looser with (r' := Rule.assignment) in H;
    [|simpl; lia].
  pose proof (respects_precedence_derives (grouping (variable "a")) eq_refl
                Rule.logic_or ltac:(unfold prec; simpl; lia)) as Hl.
  cbn [tokens_of app] in Hl.
  destruct (assignment_target_inv _ _ [NUMBER "1"] e Hl H)
    as (v & _ & [(name & Heq & _) | (obj & name & Heq & _)]);
    discriminate Heq.
Qed.

(** Examples of the precedence order: [1 + 2 * 3 - -4], then the chain
    [a = b = c or d and e]. *)
Example precedence_of_arithmetic e :
  derives Rule.expression
    [NUMBER "1"; PLUS; NUMBER "2"; STAR; NUMBER "3"; MINUS; MINUS; NUMBER "4"]
    e <->
  e = binary
        (binary (literal (lit_NUMBER "1")) PLUS
           (binary (literal (lit_NUMBER "2")) STAR (literal (lit_NUMBER "3"))))
        MINUS (unary MINUS (literal (lit_NUMBER "4"))).
Proof.
  assert (H0 : derives Rule.expression
                 [NUMBER "1"; PLUS; NUMBER "2"; STAR; NUMBER "3"; MINUS; MINUS;
                  NUMBER "4"]
                 (binary
                    (binary (literal (lit_NUMBER "1")) PLUS
                       (binary (literal (lit_NUMBER "2")) STAR
                          (literal (lit_NUMBER "3"))))
                    MINUS (unary MINUS (literal (lit_NUMBER "4"))))).
  { apply (respects_precedence_derives
             (binary
                (binary (literal (lit_NUMBER "1")) PLUS
                   (binary (literal (lit_NUMBER "2")) STAR
                      (literal (lit_NUMBER "3"))))
                MINUS (unary MINUS (literal (lit_NUMBER "4"))))
             eq_refl Rule.expression). simpl. lia. }
  split; [intros H; exact (derives_unique _ _ _ _ H H0) | now intros ->].
Qed.

Example precedence_of_assignment_and_logic e :
  derives Rule.expression
    [IDENTIFIER "a"; EQUAL; IDENTIFIER "b"; EQUAL; IDENTIFIER "c"; OR;
     IDENTIFIER "d"; AND; IDENTIFIER "e"] e <->
  e = assignment "a"
        (assignment "b"
           (logical_expression (variable "c") OR
              (logical_expression (variable "d") AND (variable "e")))).
Proof.
  assert (H0 : derives Rule.expression
                 [IDENTIFIER "a"; EQUAL; IDENTIFIER "b"; EQUAL; IDENTIFIER "c";
                  OR; IDENTIFIER "d"; AND; IDENTIFIER "e"]
                 (assignment "a"
                    (assignment "b"
                       (logical_expression (variable "c") OR
                          (logical_expression (variable "d") AND
                             (variable "e")))))).
  { apply (respects_precedence_derives
             (assignment "a"
                (assignment "b"
                   (logical_expression (variable "c") OR
                      (logical_expression (variable "d") AND (variable "e")))))
             eq_refl Rule.expression). simpl. lia. }
  split; [intros H; exact (derives_unique _ _ _ _ H H0) | now intros ->].
Qed.

End ParserFacts.

(** * Facts about declarations, statements and programs *)

Module ProgramFacts.
Import Grammar Precedence Parser GrammarFacts ParserFacts Programs.
Local Open Scope list_scope.
Local Open Scope nat_scope.

(** An induction principle for [stmt] that reaches the methods of a class
    and the declarations of a block. *)
Lemma stmt_ind' (P : stmt -> Prop) :
  (forall name sup methods,
      Forall P methods -> P (class_declaration name sup methods)) ->
  (forall name params body, P body -> P (function name params body)) ->
  (forall name init, P (variable_declaration name init)) ->
  (forall e, P (expression_statement e)) ->
  (forall init cond incr body,
      P init -> P body -> P (for_statement init cond incr body)) ->
  P empty_initializer ->
  (forall c th, P th -> P (if_statement c th None)) ->
  (forall c th el, P th -> P el -> P (if_statement c th (Some el))) ->
  (forall e, P (print_statement e)) ->
  (forall value, P (return_statement value)) ->
  (forall c body, P body -> P (while_statement c body)) ->
  (forall decls, Forall P decls -> P (block decls)) ->
  forall s, P s.
Proof.
  intros Hclass Hfun Hvar Hexpr Hfor Hempty Hif Hifelse Hprint Hreturn Hwhile
    Hblock.
  fix IH 1.
  intros [name sup methods|name params body|name init|e|init cond incr body|
          |c th [el|]|e|value|c body|decls].
  - apply Hclass.
    induction methods as [|m methods IHm]; constructor; [apply IH | exact IHm].
  - apply Hfun, IH.
  - apply Hvar.
  - apply Hexpr.
  - apply Hfor; apply IH.
  - apply Hempty.
  - apply Hifelse; apply IH.
  - apply Hif, IH.
  - apply Hprint.
  - apply Hreturn.
  - apply Hwhile, IH.
  - apply Hblock.
    induction decls as [|d decls IHd]; constructor; [apply IH | exact IHd].
Qed.

(** ** From derivations to trees *)

Lemma optional_expression_shape ts o :
  optional (derives Rule.expression) ts o ->
  optional_ok respects_precedence o = true /\ optional_tokens tokens_of o = ts.
Proof.
  intros [|ts' e H]; [now split|].
  destruct (proj1 derives_shape _ _ _ H) as (Hwf & _ & Hts). now split.
Qed.

Lemma parameters_shape ts names :
  derives_parameters ts names ->
  nonempty names = true /\ parameter_tokens names = ts.
Proof.
  unfold parameter_tokens.
  induction 1 as [name|name ts names H [Hne IH]]; [now split|].
  split; [reflexivity|].
  rewrite map_cons, comma_separated_cons by (destruct names; discriminate).
  now rewrite IH.
Qed.

Lemma optional_parameters_shape ts o :
  optional derives_parameters ts o ->
  optional_ok nonempty o = true /\ optional_tokens parameter_tokens o = ts.
Proof. intros [|ts' names H]; [now split | now apply parameters_shape]. Qed.

Lemma optional_superclass_shape ts o :
  optional derives_superclass ts o ->
  optional_ok is_variable o = true /\
  optional_tokens (fun e => LESSTHAN :: tokens_of e) o = ts.
Proof. intros [|ts' e (name & -> & ->)]; now split. Qed.

Lemma derives_stmt_shape :
  (forall r ts s,
      derives_stmt r ts s ->
      well_formed s = true /\ derived_by r s = true /\
      stmt_tokens (is_method r) s = ts) /\
  (forall ts decls,
      derives_declarations ts decls ->
      well_formed_program decls = true /\ program_tokens decls = ts) /\
  (forall ts methods,
      derives_methods ts methods ->
      forallb (fun m => is_function m && well_formed m) methods = true /\
      flat_map (stmt_tokens true) methods = ts).
Proof.
  apply derives_stmt_mutind; intros;
    repeat match goal with
           | H : _ /\ _ |- _ => destruct H
           | H : optional (derives Rule.expression) _ _ |- _ =>
               apply optional_expression_shape in H
           | H : optional derives_parameters _ _ |- _ =>
               apply optional_parameters_shape in H
           | H : optional derives_superclass _ _ |- _ =>
               apply optional_superclass_shape in H
           | H : derives _ _ _ |- _ => apply (proj1 derives_shape) in H
           end;
    unfold well_formed_program, program_tokens in *.
  all: repeat match goal with
              | H : derived_by _ ?s = true |- _ =>
                  is_var s; destruct s; try discriminate H
              end.
  all: cbn [well_formed derived_by is_method stmt_tokens is_statement_node
              is_declaration_node is_function is_block is_initializer
              forallb flat_map optional_tokens optional_ok app] in *.
  all: subst.
  all: repeat match goal with
              | H : ?a = true |- context [?a] => rewrite H
              end.
  all: cbn [andb app];
    rewrite ?app_nil_r; try (repeat split; reflexivity).
Qed.

(** ** From trees to derivations *)

Lemma respects_precedence_expression e :
  respects_precedence e = true -> derives Rule.expression (tokens_of e) e.
Proof. intros H. apply respects_precedence_derives; [exact H | simpl; lia]. Qed.

Lemma optional_expression_derives o :
  optional_ok respects_precedence o = true ->
  optional (derives Rule.expression) (optional_tokens tokens_of o) o.
Proof.
  destruct o as [e|]; simpl; intros H; constructor.
  now apply respects_precedence_expression.
Qed.

Lemma optional_parameters_derives o :
  optional_ok nonempty o = true ->
  optional derives_parameters (optional_tokens parameter_tokens o) o.
Proof.
  destruct o as [names|]; simpl; intros H; constructor.
  apply parameters_of_any_length. destruct names; [discriminate H | discriminate].
Qed.

Lemma optional_superclass_derives o :
  optional_ok is_variable o = true ->
  optional derives_superclass
    (optional_tokens (fun e => LESSTHAN :: tokens_of e) o) o.
Proof.
  destruct o as [e|]; simpl; intros H; constructor.
  destruct e; try discriminate H. now eexists.
Qed.

(** A node derived by its own rule is derived by [statement] and
    [declaration] when it is one of their alternatives. *)
Lemma derives_alternative r ts s alt :
  alternative_of s = Some alt -> derives_stmt alt ts s ->
  derived_by r s = true -> is_method r = false ->
  derives_stmt r ts s.
Proof.
  intros Halt H Hr Hm.
  destruct s; inversion Halt; subst alt; destruct r;
    try discriminate Hr; try discriminate Hm; try exact H;
    first [ apply d_declaration_class; exact H
          | apply d_declaration_function; exact H
          | apply d_declaration_variable; exact H
          | apply d_declaration_statement | idtac ];
    first [ apply d_statement_expression; exact H
          | apply d_statement_for; exact H
          | apply d_statement_if; exact H
          | apply d_statement_print; exact H
          | apply d_statement_return; exact H
          | apply d_statement_while; exact H
          | apply d_statement_block; exact H ].
Qed.

Lemma well_formed_derives_own_rule s :
  well_formed s = true ->
  (forall alt, alternative_of s = Some alt ->
               derives_stmt alt (stmt_tokens false s) s) /\
  (is_function s = true -> derives_stmt SRule.method (stmt_tokens true s) s).
Proof.
  assert (Hlift : forall (Q : Prop) r d,
             (well_formed d = true ->
              (forall alt, alternative_of d = Some alt ->
                           derives_stmt alt (stmt_tokens false d) d) /\ Q) ->
             well_formed d = true -> derived_by r d = true ->
             is_method r = false ->
             derives_stmt r (stmt_tokens false d) d).
  { intros Q r d IH Hwf Hr Hm. destruct (IH Hwf) as [Hown _].
    destruct (alternative_of d) as [alt|] eqn:Halt.
    - apply derives_alternative with (alt := alt); auto.
    - destruct d; try discriminate Halt. destruct r; discriminate. }
  induction s using stmt_ind'; intros Hwf; cbn [well_formed] in Hwf;
    split_andb; (split; [intros alt Halt; inversion Halt; subst alt
                        | intros Hf; try discriminate Hf]);
    cbn [stmt_tokens app].
  - (* a class *)
    apply d_class_declaration; [now apply optional_superclass_derives|].
    match goal with H : forallb _ _ = true |- _ => revert H end.
    match goal with H : Forall _ _ |- _ => revert H end.
    clear. induction methods as [|m methods IHm]; intros HF Hall;
      [apply d_methods_nil|].
    cbn [forallb] in Hall. apply andb_prop in Hall. destruct Hall as [Hm Hall].
    apply andb_prop in Hm. destruct Hm as [Hfun Hwf].
    cbn [flat_map]. apply d_methods_cons.
    + apply (Forall_inv HF); assumption.
    + apply IHm; [exact (Forall_inv_tail HF) | exact Hall].
  - (* a function declaration *)
    apply d_function_declaration; [now apply optional_parameters_derives|].
    destruct s; try discriminate. now apply IHs.
  - (* a method *)
    apply d_method; [now apply optional_parameters_derives|].
    destruct s; try discriminate. now apply IHs.
  - destruct init as [e|]; cbn [optional_tokens app]; constructor.
    now apply respects_precedence_expression.
  - apply d_expression_statement. now apply respects_precedence_expression.
  - (* a for statement *)
    assert (Hbody : derives_stmt SRule.statement (stmt_tokens false s2) s2)
      by (apply (Hlift _ _ _ IHs2); auto).
    destruct s1; try discriminate.
    + apply d_for_variable_declaration;
        solve [ now apply IHs1 | now apply optional_expression_derives
              | exact Hbody ].
    + apply d_for_expression_statement;
        solve [ now apply IHs1 | now apply optional_expression_derives
              | exact Hbody ].
    + apply d_for_empty_initializer;
        solve [ now apply optional_expression_derives | exact Hbody ].
  - (* an if statement without else *)
    rewrite app_nil_r. apply d_if.
    + now apply respects_precedence_expression.
    + apply (Hlift _ _ _ IHs); auto.
  - (* an if statement with else *)
    apply d_if_else.
    + now apply respects_precedence_expression.
    + apply (Hlift _ _ _ IHs1); auto.
    + apply (Hlift _ _ _ IHs2); auto.
  - apply d_print_statement. now apply respects_precedence_expression.
  - apply d_return_statement. now apply optional_expression_derives.
  - apply d_while.
    + now apply respects_precedence_expression.
    + apply (Hlift _ _ _ IHs); auto.
  - (* a block *)
    apply d_block.
    match goal with H : forallb _ _ = true |- _ => revert H end.
    match goal with H : Forall _ _ |- _ => revert H end.
    clear - Hlift. induction decls as [|d decls IHd]; intros HF Hall;
      [apply d_declarations_nil|].
    cbn [forallb] in Hall. apply andb_prop in Hall. destruct Hall as [Hd Hall].
    apply andb_prop in Hd. destruct Hd as [Hdecl Hwf].
    cbn [flat_map]. apply d_declarations_cons.
    + apply (Hlift _ _ _ (Forall_inv HF)); auto.
    + apply IHd; [exact (Forall_inv_tail HF) | exact Hall].
Qed.

Lemma well_formed_derives s r :
  well_formed s = true -> derived_by r s = true ->
  derives_stmt r (stmt_tokens (is_method r) s) s.
Proof.
  intros Hwf Hr. destruct (well_formed_derives_own_rule s Hwf) as [Hown Hmethod].
  destruct (is_method r) eqn:Hm.
  - destruct r; try discriminate Hm. now apply Hmethod.
  - destruct (alternative_of s) as [alt|] eqn:Halt.
    + apply derives_alternative with (alt := alt); auto.
    + destruct s; try discriminate Halt. destruct r; discriminate.
Qed.

Lemma well_formed_program_derives decls :
  well_formed_program decls = true ->
  derives_program (program_tokens decls) decls.
Proof.
  unfold well_formed_program, program_tokens, derives_program.
  induction decls as [|d decls IH]; intros H; [apply d_declarations_nil|].
  cbn [forallb] in H. apply andb_prop in H. destruct H as [Hd H].
  apply andb_prop in Hd. destruct Hd as [Hdecl Hwf].
  cbn [flat_map]. apply d_declarations_cons; [|now apply IH].
  now apply (well_formed_derives d SRule.declaration).
Qed.

(** X6. The grammar derives exactly the well-formed trees, each from the tokens
    it spells: a declaration or statement tree is derived by a rule when its
    root is a node of the rule, every child a node of the rule the grammar
    has at its place and every expression respects the precedence order;
    and the token sequence is then the one the tree determines.  The same
    for whole programs. *)
Theorem grammar_derives_exactly_the_well_formed_trees (r : SRule.t)
    (ts : list token) (s : stmt) (decls : list stmt) :
  (derives_stmt r ts s <->
   well_formed s = true /\ derived_by r s = true /\
   stmt_tokens (is_method r) s = ts) /\
  (derives_program ts decls <->
   well_formed_program decls = true /\ program_tokens decls = ts).
Proof.
  split; split.
  - apply (proj1 derives_stmt_shape).
  - intros (Hwf & Hr & <-). now apply well_formed_derives.
  - apply (proj1 (proj2 derives_stmt_shape)).
  - intros (Hwf & <-). now apply well_formed_program_derives.
Qed.

(** ** First and last tokens *)

Lemma ends_with_one p t : p t = true -> ends_with p [t].
Proof. intros H. now exists [], t. Qed.

Lemma ends_with_cons p x ts : ends_with p ts -> ends_with p (x :: ts).
Proof. intros (front & t & -> & H). now exists (x :: front), t. Qed.

Lemma ends_with_app p a ts : ends_with p ts -> ends_with p (a ++ ts).
Proof.
  intros (front & t & -> & H). exists (a ++ front), t.
  now rewrite app_assoc.
Qed.

Ltac ends :=
  repeat first
    [ assumption
    | apply ends_with_one; reflexivity
    | apply ends_with_cons
    | apply ends_with_app ].

Lemma derives_ends :
  (forall r ts e, derives r ts e -> ends_with ends_expression ts) /\
  (forall ts args, derives_arguments ts args -> ends_with ends_expression ts).
Proof. apply derives_mutind; intros; ends. Qed.

Lemma derives_starts r ts e :
  derives r ts e ->
  exists t rest,
    ts = t :: rest /\ (starts_primary t || _unary_operator t) = true.
Proof.
  intros H. destruct (proj1 derives_shape _ _ _ H) as (Hwf & _ & <-).
  destruct (tokens_of_starts e Hwf) as (t & rest & -> & [Ht|Ht] & _);
    exists t, rest; rewrite Ht; auto using orb_true_r.
Qed.

(** X5. An expression is never empty: it starts with a literal, an identifier,
    [this], [super], an opening parenthesis or a prefix operator, and ends
    with a literal, an identifier, [this] or a closing parenthesis, never
    with an operator. *)
Theorem expression_first_and_last_token (r : Rule.t) (ts : list token)
    (e : expr) :
  derives r ts e ->
  (exists t rest,
      ts = t :: rest /\ (starts_primary t || _unary_operator t) = true) /\
  ends_with ends_expression ts.
Proof.
  intros H. split; [now apply derives_starts with (e := e) (r := r)|].
  now apply (proj1 derives_ends) with (r := r) (e := e).
Qed.

Lemma expression_first_and_last_token_witness :
  ends_with ends_expression [MINUS; IDENTIFIER "a"; STAR; LPAR; NUMBER "2"; RPAR].
Proof.
  refine (proj2 (expression_first_and_last_token Rule.expression
                   [MINUS; IDENTIFIER "a"; STAR; LPAR; NUMBER "2"; RPAR]
                   (binary (unary MINUS (variable "a")) STAR
                      (grouping (literal (lit_NUMBER "2")))) _)).
  apply (respects_precedence_derives
           (binary (unary MINUS (variable "a")) STAR
              (grouping (literal (lit_NUMBER "2"))))
           eq_refl Rule.expression).
  simpl. lia.
Defined.

(** X8. Every declaration and statement ends with a semicolon or a closing
    brace. *)
Theorem declarations_end_with_semicolon_or_brace (r : SRule.t)
    (ts : list token) (s : stmt) :
  derives_stmt r ts s -> ends_with ends_declaration ts.
Proof.
  revert r ts s.
  refine (proj1 (derives_stmt_mutind
            (fun _ ts _ => ends_with ends_declaration ts)
            (fun _ _ => True) (fun _ _ => True)
            _ _ _ _ _ _ _ _ _ _ _ _ _ _ _ _ _ _ _ _ _ _ _ _ _ _ _ _ _ _));
    intros; try exact I; ends.
Qed.

Lemma declarations_end_with_semicolon_or_brace_witness :
  ends_with ends_declaration
    [WHILE; LPAR; TRUE; RPAR; LBRACE; PRINT; NUMBER "1"; SEMICOLON; RBRACE].
Proof.
  apply (declarations_end_with_semicolon_or_brace SRule.declaration
           [WHILE; LPAR; TRUE; RPAR; LBRACE; PRINT; NUMBER "1"; SEMICOLON; RBRACE]
           (while_statement (literal const_true)
              (block [print_statement (literal (lit_NUMBER "1"))]))).
  apply (well_formed_derives
           (while_statement (literal const_true)
              (block [print_statement (literal (lit_NUMBER "1"))]))
           SRule.declaration); reflexivity.
Defined.

(** The first token of a tree: it is the one that opens the alternative of
    the root, and neither a closing brace nor [else]. *)
Lemma stmt_tokens_starts s :
  well_formed s = true ->
  exists t rest,
    stmt_tokens false s = t :: rest /\
    alternative_starting_with t = alternative_of s /\
    t <> RBRACE /\ t <> ELSE.
Proof.
  intros Hwf.
  destruct s; cbn [stmt_tokens app];
    try (eexists _, _; split; [reflexivity|];
         split; [reflexivity|]; split; discriminate).
  cbn [well_formed] in Hwf.
  destruct (tokens_of_starts e Hwf) as (t & rest & -> & Ht & _).
  exists t. eexists. split; [reflexivity|].
  destruct t; destruct Ht as [Ht|Ht]; try discriminate Ht;
    (split; [reflexivity|]; split; discriminate).
Qed.

(** X7. The first token of a declaration or statement selects the alternative:
    [class], [fun], [var], [for], [if], [print], [return], [while] and [{]
    open the rule of that name, and every token an expression can start
    with opens an expression statement.  What [statement] derives, the body
    of an [if], a [while] or a [for] among others, therefore never starts
    with [class], [fun] or [var]. *)
Theorem first_token_selects_the_alternative (r : SRule.t) (ts : list token)
    (s : stmt) :
  derives_stmt r ts s ->
  r = SRule.declaration \/ r = SRule.statement ->
  exists t rest alt,
    ts = t :: rest /\
    alternative_starting_with t = Some alt /\
    alternative_of s = Some alt /\
    derives_stmt alt ts s /\
    (r = SRule.statement -> t <> CLASS /\ t <> FUN /\ t <> VAR).
Proof.
  intros H Hr.
  destruct (proj1 derives_stmt_shape _ _ _ H) as (Hwf & Hby & Hts).
  assert (Hm : is_method r = false) by (destruct Hr; subst r; reflexivity).
  rewrite Hm in Hts.
  destruct (stmt_tokens_starts s Hwf) as (t & rest & Ht & Halt & _).
  destruct (alternative_of s) as [alt|] eqn:Hs;
    [|destruct s; try discriminate Hs; destruct Hr; subst r; discriminate Hby].
  exists t, rest, alt. rewrite <- Hts, Ht.
  split; [reflexivity|]. split; [exact Halt|]. split; [reflexivity|]. split.
  - rewrite <- Ht. now apply (well_formed_derives_own_rule s Hwf).
  - intros ->. repeat split; intros ->; simpl in Halt;
      inversion Halt; subst alt; destruct s; discriminate.
Qed.

Lemma first_token_selects_the_alternative_witness :
  exists t rest alt,
    [PRINT; NUMBER "1"; SEMICOLON] = t :: rest /\
    alternative_starting_with t = Some alt /\
    alternative_of (print_statement (literal (lit_NUMBER "1"))) = Some alt /\
    derives_stmt alt [PRINT; NUMBER "1"; SEMICOLON]
      (print_statement (literal (lit_NUMBER "1"))) /\
    (SRule.statement = SRule.statement -> t <> CLASS /\ t <> FUN /\ t <> VAR).
Proof.
  apply (first_token_selects_the_alternative SRule.statement
           [PRINT; NUMBER "1"; SEMICOLON]
           (print_statement (literal (lit_NUMBER "1")))).
  - apply (well_formed_derives (print_statement (literal (lit_NUMBER "1")))
             SRule.statement); reflexivity.
  - now right.
Defined.

(** ** Brackets *)

Ltac closed_step :=
  first
    [ progress (rewrite <- app_assoc)
    | progress (cbn [app brackets])
    | match goal with
      | H : closed ?ts |- context [brackets _ (?ts ++ _)] => rewrite H
      end ].

Lemma derives_closed :
  (forall r ts e, derives r ts e -> closed ts) /\
  (forall ts args, derives_arguments ts args -> closed ts).
Proof.
  apply derives_mutind; intros; try assumption; try destruct_operator;
    intros ? ?; repeat closed_step; reflexivity.
Qed.

Lemma optional_closed {A} (P : list token -> A -> Prop) ts o :
  (forall ts a, P ts a -> closed ts) -> optional P ts o -> closed ts.
Proof. intros HP [|ts' a H]; [intros expected rest; reflexivity | eapply HP, H]. Qed.

Lemma parameters_closed ts names : derives_parameters ts names -> closed ts.
Proof.
  induction 1; intros ? ?; repeat closed_step; reflexivity.
Qed.

Lemma superclass_closed ts e : derives_superclass ts e -> closed ts.
Proof. intros (name & -> & _) expected rest. reflexivity. Qed.

Lemma derives_stmt_closed :
  (forall r ts s, derives_stmt r ts s -> closed ts) /\
  (forall ts l, derives_declarations ts l -> closed ts) /\
  (forall ts l, derives_methods ts l -> closed ts).
Proof.
  pose proof (proj1 derives_closed) as He.
  apply derives_stmt_mutind; intros; try assumption;
    repeat match goal with
           | H : optional (derives _) _ _ |- _ =>
               apply (optional_closed _ _ _ (He _)) in H
           | H : optional derives_parameters _ _ |- _ =>
               apply (optional_closed _ _ _ parameters_closed) in H
           | H : optional derives_superclass _ _ |- _ =>
               apply (optional_closed _ _ _ superclass_closed) in H
           | H : derives _ _ _ |- _ => apply He in H
           end;
    intros ? ?; repeat closed_step; reflexivity.
Qed.

Lemma brackets_app a :
  forall expected b,
    brackets expected (a ++ b)
    = match brackets expected a with
      | Some expected' => brackets expected' b
      | None => None
      end.
Proof.
  induction a as [|t a IH]; intros expected b; [reflexivity|].
  destruct t; cbn [app brackets]; try apply IH;
    destruct expected as [|[] expected]; try reflexivity; apply IH.
Qed.

(** X9. In a program the grammar derives, parentheses and braces are balanced
    and properly nested: read from left to right, every closing bracket
    closes the innermost bracket still open, of its own kind, and none is
    left open at the end. *)
Theorem programs_have_balanced_brackets (ts : list token)
    (decls : list stmt) :
  derives_program ts decls ->
  balanced ts = true /\
  forall before after, ts = before ++ after -> brackets [] before <> None.
Proof.
  intros H.
  destruct derives_stmt_closed as (_ & Hd & _).
  pose proof (Hd _ _ H [] []) as Hb. rewrite app_nil_r in Hb.
  cbn [brackets] in Hb. split.
  - unfold balanced. now rewrite Hb.
  - intros before after -> Hnone.
    rewrite brackets_app, Hnone in Hb. discriminate Hb.
Qed.

Lemma programs_have_balanced_brackets_witness :
  balanced
    [FUN; IDENTIFIER "f"; LPAR; RPAR; LBRACE;
     PRINT; LPAR; NUMBER "1"; RPAR; SEMICOLON; RBRACE] = true.
Proof.
  refine (proj1 (programs_have_balanced_brackets
                   [FUN; IDENTIFIER "f"; LPAR; RPAR; LBRACE;
                    PRINT; LPAR; NUMBER "1"; RPAR; SEMICOLON; RBRACE]
                   [function "f" None
                      (block [print_statement
                                (grouping (literal (lit_NUMBER "1")))])] _)).
  apply (well_formed_program_derives
           [function "f" None
              (block [print_statement (grouping (literal (lit_NUMBER "1")))])]).
  reflexivity.
Defined.

(** ** Programs *)

(** X10. Programs compose: the concatenation of two programs is a program, with
    the declarations of both in order, and a program whose declarations are
    split in two is the concatenation of the programs of the parts. *)
Theorem program_concatenation (ts : list token) (p q : list stmt) :
  derives_program ts (p ++ q) <->
  exists a b, ts = a ++ b /\ derives_program a p /\ derives_program b q.
Proof.
  unfold derives_program. split.
  - revert ts. induction p as [|d p IH]; intros ts H.
    + exists [], ts. repeat split; [apply d_declarations_nil | exact H].
    + cbn [app] in H. inversion H as [|ts1 ? tsr ? Hd Hrest]; subst.
      destruct (IH _ Hrest) as (a & b & -> & Ha & Hb).
      exists (ts1 ++ a), b. rewrite app_assoc. repeat split; [|exact Hb].
      now apply d_declarations_cons.
  - intros (a & b & -> & Ha & Hb). revert a Ha.
    induction p as [|d p IH]; intros a Ha.
    + inversion Ha; subst. exact Hb.
    + inversion Ha as [|ts1 ? tsr ? Hd Hrest]; subst.
      rewrite <- app_assoc. cbn [app].
      apply d_declarations_cons; [exact Hd | now apply IH].
Qed.

(** ** The dangling [else] *)

(** X11. An [if] nested in the then-branch of another, followed by [else]: the
    rule [if_statement] derives the tokens in two ways, the [else]
    belonging to the inner [if] in one tree and to the outer [if] in the
    other. *)
Theorem dangling_else_has_two_trees (tsa : list token) (a : expr)
    (tsb : list token) (b : expr) (ts1 : list token) (s1 : stmt)
    (ts2 : list token) (s2 : stmt) :
  derives Rule.expression tsa a ->
  derives Rule.expression tsb b ->
  derives_stmt SRule.statement ts1 s1 ->
  derives_stmt SRule.statement ts2 s2 ->
  derives_stmt SRule.statement
    (IF :: LPAR :: tsa ++ RPAR :: IF :: LPAR :: tsb ++ RPAR :: ts1
        ++ ELSE :: ts2)
    (if_statement a (if_statement b s1 (Some s2)) None) /\
  derives_stmt SRule.statement
    (IF :: LPAR :: tsa ++ RPAR :: IF :: LPAR :: tsb ++ RPAR :: ts1
        ++ ELSE :: ts2)
    (if_statement a (if_statement b s1 None) (Some s2)) /\
  if_statement a (if_statement b s1 (Some s2)) None
  <> if_statement a (if_statement b s1 None) (Some s2).
Proof.
  intros Ha Hb H1 H2. split; [|split; [|discriminate]].
  - apply d_statement_if, d_if; [exact Ha|].
    now apply d_statement_if, d_if_else.
  - apply d_statement_if.
    replace (IF :: LPAR :: tsb ++ RPAR :: ts1 ++ ELSE :: ts2)
      with ((IF :: LPAR :: tsb ++ RPAR :: ts1) ++ ELSE :: ts2)
      by (cbn [app]; now rewrite <- app_assoc).
    apply d_if_else; [exact Ha| |exact H2].
    now apply d_statement_if, d_if.
Qed.

Lemma dangling_else_has_two_trees_witness :
  derives_stmt SRule.statement
    [IF; LPAR; IDENTIFIER "a"; RPAR; IF; LPAR; IDENTIFIER "b"; RPAR;
     PRINT; NUMBER "1"; SEMICOLON; ELSE; PRINT; NUMBER "2"; SEMICOLON]
    (if_statement (variable "a")
       (if_statement (variable "b")
          (print_statement (literal (lit_NUMBER "1"))) None)
       (Some (print_statement (literal (lit_NUMBER "2"))))).
Proof.
  refine (proj1 (proj2 (dangling_else_has_two_trees
                          [IDENTIFIER "a"] (variable "a")
                          [IDENTIFIER "b"] (variable "b")
                          [PRINT; NUMBER "1"; SEMICOLON]
                          (print_statement (literal (lit_NUMBER "1")))
                          [PRINT; NUMBER "2"; SEMICOLON]
                          (print_statement (literal (lit_NUMBER "2")))
                          _ _ _ _))).
  - apply (respects_precedence_expression (variable "a")). reflexivity.
  - apply (respects_precedence_expression (variable "b")). reflexivity.
  - apply (well_formed_derives (print_statement (literal (lit_NUMBER "1")))
             SRule.statement); reflexivity.
  - apply (well_formed_derives (print_statement (literal (lit_NUMBER "2")))
             SRule.statement); reflexivity.
Defined.

(** ** Unambiguous expressions *)

(** An expression in front of a token that cannot continue it is read in
    one way only. *)
Lemma expression_prefix e1 e2 rest1 rest2 :
  respects_precedence e1 = true -> respects_precedence e2 = true ->
  may_follow 0 rest1 -> may_follow 0 rest2 ->
  tokens_of e1 ++ rest1 = tokens_of e2 ++ rest2 ->
  e1 = e2 /\ rest1 = rest2.
Proof.
  intros Hwf1 Hwf2 Hf1 Hf2 Heq.
  pose proof (respects_precedence_derives e1 Hwf1 Rule.assignment
                ltac:(simpl; lia)) as H1.
  pose proof (respects_precedence_derives e2 Hwf2 Rule.assignment
                ltac:(simpl; lia)) as H2.
  destruct (parse_assignment_complete _ _ rest1 H1 Hf1) as [f1 Hrun1].
  destruct (parse_assignment_complete _ _ rest2 H2 Hf2) as [f2 Hrun2].
  specialize (Hrun1 (f1 + f2) ltac:(lia)).
  specialize (Hrun2 (f1 + f2) ltac:(lia)).
  rewrite Heq, Hrun2 in Hrun1. inversion Hrun1. now split.
Qed.

(** X4. The expression rules are unambiguous: a token sequence is the text of
    one expression tree at most, whatever the rules it is derived by. *)
Theorem expression_grammar_is_unambiguous (r1 r2 : Rule.t)
    (ts : list token) (e1 e2 : expr) :
  derives r1 ts e1 -> derives r2 ts e2 -> e1 = e2.
Proof.
  intros H1 H2.
  destruct (proj1 derives_shape _ _ _ H1) as (Hwf1 & _ & Hts1).
  destruct (proj1 derives_shape _ _ _ H2) as (Hwf2 & _ & Hts2).
  apply (expression_prefix e1 e2 [] [] Hwf1 Hwf2 I I).
  now rewrite Hts1, Hts2.
Qed.

Lemma expression_grammar_is_unambiguous_witness :
  binary (binary (literal (lit_NUMBER "1")) MINUS (literal (lit_NUMBER "2")))
    MINUS (literal (lit_NUMBER "3"))
  = binary (binary (literal (lit_NUMBER "1")) MINUS (literal (lit_NUMBER "2")))
      MINUS (literal (lit_NUMBER "3")).
Proof.
  apply (expression_grammar_is_unambiguous Rule.expression Rule.term
           [NUMBER "1"; MINUS; NUMBER "2"; MINUS; NUMBER "3"]);
    apply (respects_precedence_derives
             (binary
                (binary (literal (lit_NUMBER "1")) MINUS
                   (literal (lit_NUMBER "2")))
                MINUS (literal (lit_NUMBER "3"))) eq_refl);
    unfold prec; simpl; lia.
Defined.

(** ** Unambiguous statements *)

Lemma expression_not_closing e c rest rest' :
  respects_precedence e = true -> c = SEMICOLON \/ c = RPAR ->
  tokens_of e ++ rest <> c :: rest'.
Proof.
  intros Hwf Hc Heq.
  destruct (tokens_of_starts e Hwf) as (t & ts' & Ht & Hstart & _).
  rewrite Ht in Heq. inversion Heq; subst t.
  destruct Hc as [->| ->]; destruct Hstart; discriminate.
Qed.

Lemma optional_expression_prefix c o1 o2 rest1 rest2 :
  optional_ok respects_precedence o1 = true ->
  optional_ok respects_precedence o2 = true ->
  c = SEMICOLON \/ c = RPAR ->
  optional_tokens tokens_of o1 ++ c :: rest1
  = optional_tokens tokens_of o2 ++ c :: rest2 ->
  o1 = o2 /\ rest1 = rest2.
Proof.
  intros H1 H2 Hc Heq.
  destruct o1 as [e1|], o2 as [e2|]; cbn [optional_tokens optional_ok app] in *.
  - assert (Hf : forall rest, may_follow 0 (c :: rest))
      by (intros rest; destruct Hc as [->| ->]; reflexivity).
    destruct (expression_prefix e1 e2 _ _ H1 H2 (Hf _) (Hf _) Heq)
      as [-> Hrest].
    inversion Hrest. now split.
  - exfalso. now apply (expression_not_closing e1 c _ _ H1 Hc Heq).
  - exfalso. symmetry in Heq.
    now apply (expression_not_closing e2 c _ _ H2 Hc Heq).
  - inversion Heq. now split.
Qed.

Lemma initializer_prefix o1 o2 rest1 rest2 :
  optional_ok respects_precedence o1 = true ->
  optional_ok respects_precedence o2 = true ->
  optional_tokens (fun e => EQUAL :: tokens_of e) o1 ++ SEMICOLON :: rest1
  = optional_tokens (fun e => EQUAL :: tokens_of e) o2 ++ SEMICOLON :: rest2 ->
  o1 = o2 /\ rest1 = rest2.
Proof.
  intros H1 H2 Heq.
  destruct o1 as [e1|], o2 as [e2|]; cbn [optional_tokens optional_ok app] in *;
    try discriminate Heq.
  - inversion Heq as [Heq'].
    destruct (expression_prefix e1 e2 (SEMICOLON :: rest1)
                (SEMICOLON :: rest2) H1 H2 eq_refl eq_refl Heq')
      as [-> Hrest].
    inversion Hrest. now split.
  - inversion Heq. now split.
Qed.

Lemma parameter_tokens_cons name name' names :
  parameter_tokens (name :: name' :: names)
  = IDENTIFIER name :: COMMA :: parameter_tokens (name' :: names).
Proof. reflexivity. Qed.

Lemma parameters_prefix names1 :
  forall names2 rest1 rest2,
    nonempty names1 = true -> nonempty names2 = true ->
    parameter_tokens names1 ++ RPAR :: rest1
    = parameter_tokens names2 ++ RPAR :: rest2 ->
    names1 = names2 /\ rest1 = rest2.
Proof.
  induction names1 as [|n names1 IH]; intros names2 rest1 rest2 H1 H2 Heq;
    [discriminate H1|].
  destruct names2 as [|n2 names2]; [discriminate H2|].
  destruct names1 as [|n' names1], names2 as [|n2' names2];
    rewrite ?parameter_tokens_cons in Heq;
    try (cbn in Heq; discriminate Heq).
  - inversion Heq. now split.
  - cbn [app] in Heq. inversion Heq as [[Hn Heq']]. subst n2.
    destruct (IH (n2' :: names2) _ _ eq_refl eq_refl Heq') as [Hl ->].
    inversion Hl. now split.
Qed.

Lemma optional_parameters_prefix o1 o2 rest1 rest2 :
  optional_ok nonempty o1 = true -> optional_ok nonempty o2 = true ->
  optional_tokens parameter_tokens o1 ++ RPAR :: rest1
  = optional_tokens parameter_tokens o2 ++ RPAR :: rest2 ->
  o1 = o2 /\ rest1 = rest2.
Proof.
  intros H1 H2 Heq.
  destruct o1 as [[|n1 l1]|], o2 as [[|n2 l2]|];
    cbn [optional_tokens optional_ok] in *; try discriminate.
  - destruct (parameters_prefix _ _ _ _ H1 H2 Heq) as [-> ->]. now split.
  - destruct l1; discriminate Heq.
  - destruct l2; discriminate Heq.
  - inversion Heq. now split.
Qed.

Lemma superclass_prefix o1 o2 rest1 rest2 :
  optional_ok is_variable o1 = true -> optional_ok is_variable o2 = true ->
  optional_tokens (fun e => LESSTHAN :: tokens_of e) o1 ++ LBRACE :: rest1
  = optional_tokens (fun e => LESSTHAN :: tokens_of e) o2 ++ LBRACE :: rest2 ->
  o1 = o2 /\ rest1 = rest2.
Proof.
  intros H1 H2 Heq.
  destruct o1 as [[]|], o2 as [[]|]; try discriminate H1; try discriminate H2;
    cbn in Heq; try discriminate Heq; inversion Heq; now split.
Qed.

Lemma is_block_not_open s : is_block s = true -> open_if s = false.
Proof. destruct s; try discriminate; reflexivity. Qed.

Lemma is_initializer_not_open s : is_initializer s = true -> open_if s = false.
Proof. destruct s; try discriminate; reflexivity. Qed.

(** The first token of a tree among the others. *)
Lemma canonical_starts m s tail :
  canonical m s = true ->
  exists t rest, stmt_tokens m s ++ tail = t :: rest /\ t <> RBRACE /\ t <> ELSE.
Proof.
  unfold canonical. intros H. split_andb. destruct m.
  - destruct s; try discriminate. cbn [stmt_tokens app].
    eexists _, _. split; [reflexivity|]. split; discriminate.
  - destruct (stmt_tokens_starts s) as (t & rest & -> & _ & Ht); [assumption|].
    exists t, (rest ++ tail). now split.
Qed.

Lemma same_alternative s1 s2 rest1 rest2 :
  well_formed s1 = true -> well_formed s2 = true ->
  stmt_tokens false s1 ++ rest1 = stmt_tokens false s2 ++ rest2 ->
  alternative_of s1 = alternative_of s2.
Proof.
  intros H1 H2 Heq.
  destruct (stmt_tokens_starts s1 H1) as (t1 & r1 & E1 & <- & _).
  destruct (stmt_tokens_starts s2 H2) as (t2 & r2 & E2 & <- & _).
  rewrite E1, E2 in Heq. inversion Heq. reflexivity.
Qed.

Lemma declarations_no_else m l tail :
  forallb (canonical m) l = true -> closing tail ->
  no_else (flat_map (stmt_tokens m) l ++ tail).
Proof.
  intros Hall Htail. destruct l as [|d l].
  - destruct tail as [|[] tail]; try contradiction; exact I.
  - cbn [forallb] in Hall. apply andb_prop in Hall. destruct Hall as [Hd _].
    cbn [flat_map]. rewrite <- app_assoc.
    destruct (canonical_starts m d (flat_map (stmt_tokens m) l ++ tail) Hd)
      as (t & rest & -> & _ & Ht).
    destruct t; try exact I. congruence.
Qed.

Lemma list_read_in_one_way m l1 :
  Forall (read_in_one_way m) l1 ->
  forall l2 tail1 tail2,
    forallb (canonical m) l1 = true -> forallb (canonical m) l2 = true ->
    closing tail1 -> closing tail2 ->
    flat_map (stmt_tokens m) l1 ++ tail1 = flat_map (stmt_tokens m) l2 ++ tail2 ->
    l1 = l2 /\ tail1 = tail2.
Proof.
  induction 1 as [|d1 l1 Hd1 _ IH]; intros l2 tail1 tail2 H1 H2 Ht1 Ht2 Heq.
  - destruct l2 as [|d2 l2]; [now split|]. exfalso.
    cbn [forallb] in H2. apply andb_prop in H2. destruct H2 as [Hd2 _].
    cbn [flat_map app] in Heq. rewrite <- app_assoc in Heq.
    destruct (canonical_starts m d2 (flat_map (stmt_tokens m) l2 ++ tail2) Hd2)
      as (t & rest & E & Ht & _).
    rewrite E in Heq. subst tail1. destruct t; first [contradiction | congruence].
  - cbn [forallb] in H1. apply andb_prop in H1. destruct H1 as [Hc1 H1].
    destruct l2 as [|d2 l2].
    + exfalso. cbn [flat_map app] in Heq. rewrite <- app_assoc in Heq.
      destruct (canonical_starts m d1 (flat_map (stmt_tokens m) l1 ++ tail1) Hc1)
        as (t & rest & E & Ht & _).
      rewrite E in Heq. subst tail2. destruct t; first [contradiction | congruence].
    + cbn [forallb] in H2. apply andb_prop in H2. destruct H2 as [Hc2 H2].
      cbn [flat_map] in Heq. rewrite <- !app_assoc in Heq.
      destruct (Hd1 d2 _ _ Hc1 Hc2
                  (fun _ => declarations_no_else m l1 tail1 H1 Ht1)
                  (fun _ => declarations_no_else m l2 tail2 H2 Ht2) Heq)
        as [-> Heq'].
      destruct (IH _ _ _ H1 H2 Ht1 Ht2 Heq') as [-> ->]. now split.
Qed.

Lemma canonical_methods l :
  forallb (fun m => is_function m && well_formed m) l = true ->
  forallb else_to_nearest_if l = true ->
  forallb (canonical true) l = true.
Proof.
  induction l as [|m l IH]; intros H1 H2; [reflexivity|].
  cbn [forallb] in *. unfold canonical at 1. split_andb; auto.
Qed.

Lemma canonical_declarations l :
  forallb (fun d => is_declaration_node d && well_formed d) l = true ->
  forallb else_to_nearest_if l = true ->
  forallb (canonical false) l = true.
Proof.
  induction l as [|d l IH]; intros H1 H2; [reflexivity|].
  cbn [forallb] in *. unfold canonical at 1. split_andb; auto.
Qed.

Ltac flatten H :=
  cbn [stmt_tokens app] in H;
  repeat first [ rewrite <- app_assoc in H | progress cbn [app] in H ].

Ltac canonical_parts :=
  unfold canonical in *;
  cbn [well_formed else_to_nearest_if is_function] in *;
  split_andb; try discriminate.

Ltac canonical_goal :=
  unfold canonical; split_andb; solve [assumption | reflexivity].

Ltac not_open :=
  let Hopen := fresh "Hopen" in
  intros Hopen;
  first
    [ rewrite is_initializer_not_open in Hopen by assumption;
      discriminate Hopen
    | rewrite is_block_not_open in Hopen by assumption;
      discriminate Hopen
    | match goal with
      | Hn : negb (open_if ?s) = true |- _ =>
          rewrite Hopen in Hn; discriminate Hn
      end ].

Lemma stmt_read_in_one_way s1 : forall m, read_in_one_way m s1.
Proof.
  induction s1 using stmt_ind';
    intros m s2 rest1 rest2 Hc1 Hc2 Ho1 Ho2 Heq;
    destruct m;
    try (exfalso; canonical_parts; fail);
    try (assert (Hkind : alternative_of s2 = _)
          by (symmetry; eapply same_alternative with (3 := Heq);
              unfold canonical in *; split_andb; assumption));
    destruct s2 as [name2 sup2 methods2|name2 params2 body2|name2 init2|e2
                   |init2 cond2 incr2 body2| |c2 th2 el2|e2|value2|c2 body2
                   |decls2];
    try discriminate Hkind; try (exfalso; canonical_parts; fail);
    flatten Heq; canonical_parts.
  - (* a class *)
    inversion Heq as [[Hname Heq1]]. subst name2.
    apply superclass_prefix in Heq1; [|assumption..].
    destruct Heq1 as [-> Heq2].
    destruct (list_read_in_one_way true methods) with (l2 := methods2)
               (tail1 := RBRACE :: rest1) (tail2 := RBRACE :: rest2)
      as [-> Hrest];
      try solve [ exact I | exact Heq2 | now apply canonical_methods ].
    + eapply Forall_impl; [|eassumption]. intros s Hs. apply Hs.
    + inversion Hrest. now split.
  - (* a method *)
    inversion Heq as [[Hname Heq1]]. subst name2.
    apply optional_parameters_prefix in Heq1; [|assumption..].
    destruct Heq1 as [-> Heq2].
    apply (IHs1 false) in Heq2;
      [ destruct Heq2 as [-> ->]; now split
      | solve [canonical_goal] | solve [canonical_goal]
      | solve [not_open] | solve [not_open] ].
  - (* a function declaration *)
    inversion Heq as [[Hname Heq1]]. subst name2.
    apply optional_parameters_prefix in Heq1; [|assumption..].
    destruct Heq1 as [-> Heq2].
    apply (IHs1 false) in Heq2;
      [ destruct Heq2 as [-> ->]; now split
      | solve [canonical_goal] | solve [canonical_goal]
      | solve [not_open] | solve [not_open] ].
  - (* a variable declaration *)
    inversion Heq as [[Hname Heq1]]. subst name2.
    apply initializer_prefix in Heq1; [|assumption..].
    destruct Heq1 as [-> ->].
    now split.
  - (* an expression statement *)
    apply expression_prefix in Heq; try solve [assumption | reflexivity].
    destruct Heq as [-> Hrest]. inversion Hrest. now split.
  - (* a for statement *)
    inversion Heq as [Heq0]. clear Heq.
    apply (IHs1_1 false) in Heq0;
      [ destruct Heq0 as [-> Heq1]
      | solve [canonical_goal] | solve [canonical_goal]
      | solve [not_open] | solve [not_open] ].
    apply optional_expression_prefix in Heq1; [|auto..].
    destruct Heq1 as [-> Heq2].
    apply optional_expression_prefix in Heq2; [|auto..].
    destruct Heq2 as [-> Heq3].
    apply (IHs1_2 false) in Heq3;
      [ destruct Heq3 as [-> ->]; now split
      | solve [canonical_goal] | solve [canonical_goal]
      | exact Ho1 | exact Ho2 ].
  - (* the empty initializer *)
    inversion Heq. now split.
  - (* an if statement without else *)
    inversion Heq as [Heq0]. clear Heq.
    apply expression_prefix in Heq0; try solve [assumption | reflexivity].
    destruct Heq0 as [-> Heq1]. inversion Heq1 as [Heq2]. clear Heq1.
    destruct el2 as [el2|]; cbn [app] in Heq2; canonical_parts.
    + exfalso.
      apply (IHs1 false) in Heq2;
        [ destruct Heq2 as [_ Hrest]
        | solve [canonical_goal] | solve [canonical_goal]
        | intros _; now apply Ho1 | solve [not_open] ].
      specialize (Ho1 eq_refl). rewrite Hrest in Ho1. exact Ho1.
    + apply (IHs1 false) in Heq2;
        [ destruct Heq2 as [-> ->]; now split
        | solve [canonical_goal] | solve [canonical_goal]
        | intros _; now apply Ho1 | intros _; now apply Ho2 ].
  - (* an if statement with else *)
    inversion Heq as [Heq0]. clear Heq.
    apply expression_prefix in Heq0; try solve [assumption | reflexivity].
    destruct Heq0 as [-> Heq1]. inversion Heq1 as [Heq2]. clear Heq1.
    destruct el2 as [el2|]; cbn [app] in Heq2; canonical_parts.
    + apply (IHs1_1 false) in Heq2;
        [ destruct Heq2 as [-> Heq3]
        | solve [canonical_goal] | solve [canonical_goal]
        | solve [not_open] | solve [not_open] ].
      inversion Heq3 as [Heq4]. clear Heq3.
      apply (IHs1_2 false) in Heq4;
        [ destruct Heq4 as [-> ->]; now split
        | solve [canonical_goal] | solve [canonical_goal]
        | exact Ho1 | exact Ho2 ].
    + exfalso.
      apply (IHs1_1 false) in Heq2;
        [ destruct Heq2 as [_ Hrest]
        | solve [canonical_goal] | solve [canonical_goal]
        | solve [not_open] | intros _; now apply Ho2 ].
      specialize (Ho2 eq_refl). rewrite <- Hrest in Ho2. exact Ho2.
  - (* a print statement *)
    inversion Heq as [Heq0]. clear Heq.
    apply expression_prefix in Heq0; try solve [assumption | reflexivity].
    destruct Heq0 as [-> Hrest]. inversion Hrest. now split.
  - (* a return statement *)
    inversion Heq as [Heq0]. clear Heq.
    apply optional_expression_prefix in Heq0; [|auto..].
    destruct Heq0 as [-> ->]. now split.
  - (* a while statement *)
    inversion Heq as [Heq0]. clear Heq.
    apply expression_prefix in Heq0; try solve [assumption | reflexivity].
    destruct Heq0 as [-> Heq1]. inversion Heq1 as [Heq2]. clear Heq1.
    apply (IHs1 false) in Heq2;
      [ destruct Heq2 as [-> ->]; now split
      | solve [canonical_goal] | solve [canonical_goal]
      | exact Ho1 | exact Ho2 ].
  - (* a block *)
    inversion Heq as [Heq0]. clear Heq.
    destruct (list_read_in_one_way false decls) with (l2 := decls2)
               (tail1 := RBRACE :: rest1) (tail2 := RBRACE :: rest2)
      as [-> Hrest];
      try solve [ exact I | exact Heq0 | now apply canonical_declarations ].
    + eapply Forall_impl; [|eassumption]. intros s Hs. apply Hs.
    + inversion Hrest. now split.
Qed.

(** A tree whose text has no [else] has every [else] at the nearest [if]. *)
Lemma has_else_app a b : has_else (a ++ b) = has_else a || has_else b.
Proof. apply existsb_app. Qed.

Lemma no_else_nearest s :
  forall m, has_else (stmt_tokens m s) = false -> else_to_nearest_if s = true.
Proof.
  induction s using stmt_ind'; intros m Hno; cbn [else_to_nearest_if];
    try reflexivity;
    cbn [stmt_tokens] in Hno;
    repeat first
      [ rewrite has_else_app in Hno
      | progress cbn [has_else existsb orb app] in Hno
      | match type of Hno with
        | _ || _ = false =>
            let H1 := fresh "Hno" in
            apply orb_false_elim in Hno; destruct Hno as [H1 Hno]
        end ];
    try discriminate Hno; eauto.
  - (* a class *)
    clear - H Hno1. induction methods as [|d methods IHd]; [reflexivity|].
    cbn [flat_map forallb] in *. rewrite has_else_app in Hno1.
    apply orb_false_elim in Hno1. destruct Hno1 as [Hd Hrest].
    rewrite (Forall_inv H _ Hd). now apply IHd; [apply (Forall_inv_tail H)|].
  - (* a for statement *)
    split_andb; eauto.
  - (* a block *)
    clear - H Hno0. induction decls as [|d decls IHd]; [reflexivity|].
    cbn [flat_map forallb] in *. rewrite has_else_app in Hno0.
    apply orb_false_elim in Hno0. destruct Hno0 as [Hd Hrest].
    rewrite (Forall_inv H _ Hd). now apply IHd; [apply (Forall_inv_tail H)|].
Qed.

Lemma no_else_nearest_program p :
  has_else (program_tokens p) = false -> forallb else_to_nearest_if p = true.
Proof.
  unfold program_tokens. induction p as [|d p IH]; intros Hno; [reflexivity|].
  cbn [flat_map forallb] in *. rewrite has_else_app in Hno.
  apply orb_false_elim in Hno. destruct Hno as [Hd Hrest].
  now rewrite (no_else_nearest d false Hd), IH.
Qed.

Lemma nearest_else_reading_unique ts p1 p2 :
  derives_program ts p1 -> derives_program ts p2 ->
  forallb else_to_nearest_if p1 = true ->
  forallb else_to_nearest_if p2 = true ->
  p1 = p2.
Proof.
  intros H1 H2 Hn1 Hn2.
  destruct (proj1 (proj2 derives_stmt_shape) _ _ H1) as [Hwf1 Hts1].
  destruct (proj1 (proj2 derives_stmt_shape) _ _ H2) as [Hwf2 Hts2].
  unfold well_formed_program, program_tokens in *.
  destruct (list_read_in_one_way false p1) with (l2 := p2)
             (tail1 := @nil token) (tail2 := @nil token) as [Hp _];
    try solve [ exact I | now apply canonical_declarations ].
  - apply Forall_forall. intros s _. apply stmt_read_in_one_way.
  - now rewrite !app_nil_r, Hts1, Hts2.
  - exact Hp.
Qed.

(** X12. With every [else] taken with the nearest [if], a program text is read
    in one way only: the dangling [else] is the only ambiguity of the
    grammar.  Two derivations of the same tokens whose trees both attach
    each [else] to the nearest [if] give the same tree; so do, without any
    condition, two derivations of a text without [else]. *)
Theorem else_is_the_only_ambiguity (ts : list token) (p1 p2 : list stmt) :
  derives_program ts p1 -> derives_program ts p2 ->
  (forallb else_to_nearest_if p1 = true /\
   forallb else_to_nearest_if p2 = true) \/
  has_else ts = false ->
  p1 = p2.
Proof.
  intros H1 H2 [[Hn1 Hn2]|Hnone].
  - now apply nearest_else_reading_unique with (ts := ts).
  - apply nearest_else_reading_unique with (ts := ts); try assumption.
    + destruct (proj1 (proj2 derives_stmt_shape) _ _ H1) as [Hwf1 <-].
      now apply no_else_nearest_program.
    + destruct (proj1 (proj2 derives_stmt_shape) _ _ H2) as [Hwf2 <-].
      now apply no_else_nearest_program.
Qed.

Lemma else_is_the_only_ambiguity_witness :
  [if_statement (variable "a")
     (if_statement (variable "b")
        (print_statement (literal (lit_NUMBER "1")))
        (Some (print_statement (literal (lit_NUMBER "2"))))) None]
  = [if_statement (variable "a")
       (if_statement (variable "b")
          (print_statement (literal (lit_NUMBER "1")))
          (Some (print_statement (literal (lit_NUMBER "2"))))) None].
Proof.
  apply (else_is_the_only_ambiguity
           [IF; LPAR; IDENTIFIER "a"; RPAR; IF; LPAR; IDENTIFIER "b"; RPAR;
            PRINT; NUMBER "1"; SEMICOLON; ELSE; PRINT; NUMBER "2"; SEMICOLON]);
    try (left; split; reflexivity);
    apply (well_formed_program_derives
             [if_statement (variable "a")
                (if_statement (variable "b")
                   (print_statement (literal (lit_NUMBER "1")))
                   (Some (print_statement (literal (lit_NUMBER "2"))))) None]);
    reflexivity.
Defined.

(** ** The reading with every [else] at the nearest [if] *)

Lemma same_alternative_same_node a b :
  alternative_of a = alternative_of b ->
  is_function a = is_function b /\ is_block a = is_block b /\
  is_statement_node a = is_statement_node b /\
  is_declaration_node a = is_declaration_node b /\
  is_initializer a = is_initializer b.
Proof. destruct a, b; intros H; try discriminate H; repeat split. Qed.

Ltac same_node H :=
  let Hf := fresh "Hfun" in
  let Hb := fresh "Hblock" in
  let Hs := fresh "Hstmt" in
  let Hd := fresh "Hdecl" in
  let Hi := fresh "Hinit" in
  destruct (same_alternative_same_node _ _ H) as (Hf & Hb & Hs & Hd & Hi).

Lemma attach_else_spec s :
  forall el,
    open_if s = true -> well_formed s = true ->
    is_statement_node el = true -> well_formed el = true ->
    well_formed (attach_else s el) = true /\
    alternative_of (attach_else s el) = alternative_of s /\
    stmt_tokens false (attach_else s el)
    = stmt_tokens false s ++ ELSE :: stmt_tokens false el /\
    (else_to_nearest_if s = true -> else_to_nearest_if el = true ->
     else_to_nearest_if (attach_else s el) = true).
Proof.
  induction s using stmt_ind'; intros el Hopen Hwf Hel Hwfel;
    try discriminate Hopen;
    cbn [open_if well_formed] in *; split_andb; cbn [attach_else].
  - (* for *)
    destruct (IHs2 el) as (Hw & Ha & Ht & Hn); try assumption.
    same_node Ha.
    cbn [well_formed alternative_of stmt_tokens else_to_nearest_if].
    rewrite Hw, Ht, Hstmt. repeat split.
    + split_andb; auto.
    + repeat (cbn [app]; rewrite <- ?app_assoc). reflexivity.
    + intros Hs He. split_andb; auto.
  - (* if without else *)
    destruct (open_if s) eqn:Hos.
    + destruct (IHs el) as (Hw & Ha & Ht & Hn); try assumption.
      same_node Ha.
      cbn [well_formed alternative_of stmt_tokens else_to_nearest_if].
      rewrite Hw, Ht, Hstmt. repeat split.
      * split_andb; auto.
      * rewrite !app_nil_r. repeat (cbn [app]; rewrite <- ?app_assoc).
        reflexivity.
      * auto.
    + cbn [well_formed alternative_of stmt_tokens else_to_nearest_if].
      repeat split.
      * split_andb; auto.
      * rewrite !app_nil_r. repeat (cbn [app]; rewrite <- ?app_assoc).
        reflexivity.
      * intros Hs He. rewrite Hos. split_andb; auto.
  - (* if with else *)
    destruct (IHs2 el) as (Hw & Ha & Ht & Hn); try assumption.
    same_node Ha.
    cbn [well_formed alternative_of stmt_tokens else_to_nearest_if].
    rewrite Hw, Ht, Hstmt. repeat split.
    + split_andb; auto.
    + repeat (cbn [app]; rewrite <- ?app_assoc). reflexivity.
    + intros Hs He. split_andb; auto.
  - (* while *)
    destruct (IHs el) as (Hw & Ha & Ht & Hn); try assumption.
    same_node Ha.
    cbn [well_formed alternative_of stmt_tokens else_to_nearest_if].
    rewrite Hw, Ht, Hstmt. repeat split.
    + split_andb; auto.
    + repeat (cbn [app]; rewrite <- ?app_assoc). reflexivity.
    + auto.
Qed.

Lemma nearest_else_spec s :
  well_formed s = true ->
  well_formed (nearest_else s) = true /\
  alternative_of (nearest_else s) = alternative_of s /\
  (forall m, stmt_tokens m (nearest_else s) = stmt_tokens m s) /\
  else_to_nearest_if (nearest_else s) = true.
Proof.
  induction s using stmt_ind'; intros Hwf;
    cbn [well_formed] in Hwf; split_andb; cbn [nearest_else];
    repeat match goal with
           | IH : well_formed ?s = true -> _, H : well_formed ?s = true |- _ =>
               let Hw := fresh "Hw" in
               let Ha := fresh "Ha" in
               let Ht := fresh "Ht" in
               let Hn := fresh "Hn" in
               destruct (IH H) as (Hw & Ha & Ht & Hn); clear IH; same_node Ha
           end;
    try (repeat split; solve [assumption | reflexivity]).
  - (* a class *)
    assert (Hall : forallb (fun m => is_function m && well_formed m)
                     (map nearest_else methods) = true /\
                   flat_map (stmt_tokens true) (map nearest_else methods)
                   = flat_map (stmt_tokens true) methods /\
                   forallb else_to_nearest_if (map nearest_else methods) = true).
    { match goal with H : forallb _ _ = true |- _ => revert H end.
      match goal with H : Forall _ _ |- _ => revert H end.
      clear. induction methods as [|m methods IHm]; intros HF Hall;
        [repeat split|].
      cbn [forallb] in Hall. split_andb.
      destruct (Forall_inv HF ltac:(assumption)) as (Hw & Ha & Ht & Hn).
      same_node Ha.
      destruct (IHm (Forall_inv_tail HF) ltac:(assumption)) as (I1 & I2 & I3).
      cbn [map forallb flat_map]. rewrite Hw, Hfun, Ht, I1, I2, Hn, I3.
      repeat split; split_andb; auto. }
    destruct Hall as (A1 & A2 & A3).
    cbn [well_formed alternative_of stmt_tokens else_to_nearest_if].
    rewrite A1, A2, A3. repeat split. split_andb; auto.
  - (* a function *)
    cbn [well_formed alternative_of stmt_tokens else_to_nearest_if].
    rewrite Hw, Ht, Hblock. repeat split; try assumption. split_andb; auto.
  - (* a for statement *)
    cbn [well_formed alternative_of stmt_tokens else_to_nearest_if].
    rewrite Hw, Hw0, !Ht, !Ht0, Hstmt, Hinit0, Hn, Hn0.
    repeat split. split_andb; auto.
  - (* an if statement without else *)
    cbn [well_formed alternative_of stmt_tokens else_to_nearest_if].
    rewrite Hw, !Ht, Hstmt. repeat split; try assumption. split_andb; auto.
  - (* an if statement with else *)
    destruct (open_if (nearest_else s1)) eqn:Hopen.
    + destruct (attach_else_spec (nearest_else s1) (nearest_else s2))
        as (Bw & Ba & Bt & Bn); try assumption; try congruence.
      same_node Ba.
      cbn [well_formed alternative_of stmt_tokens else_to_nearest_if].
      rewrite Bw, Bt, Hstmt1, Hstmt0, !Ht, !Ht0. repeat split.
      * split_andb; auto.
      * rewrite app_nil_r. reflexivity.
      * auto.
    + cbn [well_formed alternative_of stmt_tokens else_to_nearest_if].
      rewrite Hw, Hw0, !Ht, !Ht0, Hstmt, Hstmt0, Hopen, Hn, Hn0.
      repeat split. split_andb; auto.
  - (* a while statement *)
    cbn [well_formed alternative_of stmt_tokens else_to_nearest_if].
    rewrite Hw, !Ht, Hstmt. repeat split; try assumption. split_andb; auto.
  - (* a block *)
    assert (Hall : forallb (fun d => is_declaration_node d && well_formed d)
                     (map nearest_else decls) = true /\
                   flat_map (stmt_tokens false) (map nearest_else decls)
                   = flat_map (stmt_tokens false) decls /\
                   forallb else_to_nearest_if (map nearest_else decls) = true).
    { match goal with H : forallb _ _ = true |- _ => revert H end.
      match goal with H : Forall _ _ |- _ => revert H end.
      clear. induction decls as [|d decls IHd]; intros HF Hall;
        [repeat split|].
      cbn [forallb] in Hall. split_andb.
      destruct (Forall_inv HF ltac:(assumption)) as (Hw & Ha & Ht & Hn).
      same_node Ha.
      destruct (IHd (Forall_inv_tail HF) ltac:(assumption)) as (I1 & I2 & I3).
      cbn [map forallb flat_map]. rewrite Hw, Hdecl, Ht, I1, I2, Hn, I3.
      repeat split; split_andb; auto. }
    destruct Hall as (A1 & A2 & A3).
    cbn [well_formed alternative_of stmt_tokens else_to_nearest_if].
    rewrite A1, A2, A3. repeat split.
Qed.

Lemma nearest_else_program p :
  well_formed_program p = true ->
  well_formed_program (map nearest_else p) = true /\
  program_tokens (map nearest_else p) = program_tokens p /\
  forallb else_to_nearest_if (map nearest_else p) = true.
Proof.
  unfold well_formed_program, program_tokens.
  induction p as [|d p IH]; intros Hwf; [repeat split|].
  cbn [forallb] in Hwf. split_andb.
  destruct (nearest_else_spec d ltac:(assumption)) as (Hw & Ha & Ht & Hn).
  same_node Ha.
  destruct (IH ltac:(assumption)) as (I1 & I2 & I3).
  cbn [map forallb flat_map]. rewrite Hw, Hdecl, Ht, I1, I2, Hn, I3.
  repeat split; split_andb; auto.
Qed.

(** X13. Every program text has the reading in which each [else] belongs to the
    nearest [if]: from any tree of the text, [nearest_else] gives a tree of
    the same text with every [else] moved to the last [if] without one in
    front of it, and it changes nothing in a tree that is so already. *)
Theorem every_program_has_a_nearest_else_reading (ts : list token)
    (p : list stmt) :
  derives_program ts p ->
  derives_program ts (map nearest_else p) /\
  forallb else_to_nearest_if (map nearest_else p) = true /\
  (forallb else_to_nearest_if p = true -> map nearest_else p = p).
Proof.
  intros H.
  destruct (proj1 (proj2 derives_stmt_shape) _ _ H) as [Hwf Hts].
  destruct (nearest_else_program p Hwf) as (Hw & Ht & Hn).
  assert (Hd : derives_program ts (map nearest_else p)).
  { rewrite <- Hts, <- Ht. now apply well_formed_program_derives. }
  split; [exact Hd|]. split; [exact Hn|].
  intros Hp. now apply nearest_else_reading_unique with (ts := ts).
Qed.

Lemma every_program_has_a_nearest_else_reading_witness :
  derives_program
    [IF; LPAR; IDENTIFIER "a"; RPAR; IF; LPAR; IDENTIFIER "b"; RPAR;
     PRINT; NUMBER "1"; SEMICOLON; ELSE; PRINT; NUMBER "2"; SEMICOLON]
    [if_statement (variable "a")
       (if_statement (variable "b")
          (print_statement (literal (lit_NUMBER "1")))
          (Some (print_statement (literal (lit_NUMBER "2"))))) None].
Proof.
  refine (proj1 (every_program_has_a_nearest_else_reading
                   [IF; LPAR; IDENTIFIER "a"; RPAR; IF; LPAR; IDENTIFIER "b";
                    RPAR; PRINT; NUMBER "1"; SEMICOLON; ELSE; PRINT;
                    NUMBER "2"; SEMICOLON]
                   [if_statement (variable "a")
                      (if_statement (variable "b")
                         (print_statement (literal (lit_NUMBER "1"))) None)
                      (Some (print_statement (literal (lit_NUMBER "2"))))]
                   _)).
  apply (well_formed_program_derives
           [if_statement (variable "a")
              (if_statement (variable "b")
                 (print_statement (literal (lit_NUMBER "1"))) None)
              (Some (print_statement (literal (lit_NUMBER "2"))))]).
  reflexivity.
Defined.

End ProgramFacts.

(** * Facts about the parser *)

Module SyntaxFacts.
Import Grammar Precedence Parser GrammarFacts ParserFacts Programs ProgramFacts.
Import Ast Syntax.
Local Open Scope list_scope.
Local Open Scope nat_scope.

(** ** Expressions: the parser with errors reads what the plain one reads *)

Lemma reports_node_at k l op r :
  reports (node_at k l op r) = reports l ++ reports r.
Proof. unfold node_at. destruct (k <=? 2); reflexivity. Qed.

Lemma read_as_parse f : reads_as f.
Proof.
  induction f as [|f IH].
  - repeat split; intros; discriminate.
  - destruct IH as (IHa & IHb & IHbl & IHu & IHc & IHcl & IHp & IHargs).
    repeat split.
    + (* assignment *)
      intros ts e r rep H. cbn [parse_assignment] in H.
      cbn [read_assignment].
      destruct (parse_binary f 1 ts) as [[l rest]|] eqn:Hl; [|discriminate].
      rewrite (IHb _ _ _ _ rep Hl). cbn [and_then].
      destruct rest as [|t rest];
        [inversion H; subst; reflexivity|].
      destruct t; try (inversion H; subst; reflexivity).
      destruct l; try discriminate H;
        destruct (parse_assignment f rest) as [[v rest']|] eqn:Hv;
        try discriminate H; inversion H; subst;
        rewrite (IHa _ _ _ _ Hv); cbn [and_then reports];
        now rewrite <- ?app_assoc.
    + (* binary *)
      intros k ts e r rep H. cbn [parse_binary] in H. cbn [read_binary].
      destruct (7 <=? k); [now apply IHu|].
      destruct (parse_binary f (S k) ts) as [[l rest]|] eqn:Hl; [|discriminate].
      rewrite (IHb _ _ _ _ rep Hl). cbn [and_then]. now apply IHbl.
    + (* the loop of a binary rule *)
      intros k l ts e r rep H. cbn [parse_binary_loop] in H.
      cbn [read_binary_loop].
      destruct ts as [|op rest]; [inversion H; subst; reflexivity|].
      destruct (operator_at k op); [|inversion H; subst; reflexivity].
      destruct (parse_binary f (S k) rest) as [[x rest']|] eqn:Hx;
        [|discriminate].
      rewrite (IHb _ _ _ _ _ Hx). cbn [and_then].
      rewrite <- app_assoc, <- (reports_node_at k l op x). now apply IHbl.
    + (* unary *)
      intros ts e r rep H. cbn [parse_unary] in H. cbn [read_unary].
      destruct ts as [|op rest]; [discriminate|].
      destruct (_unary_operator op); [|now apply IHc].
      destruct (parse_unary f rest) as [[x rest']|] eqn:Hx; [|discriminate].
      inversion H; subst. rewrite (IHu _ _ _ _ Hx). reflexivity.
    + (* call *)
      intros ts e r rep H. cbn [parse_call] in H. cbn [read_call].
      destruct (parse_primary f ts) as [[c rest]|] eqn:Hc; [|discriminate].
      rewrite (IHp _ _ _ rep Hc). cbn [and_then]. now apply IHcl.
    + (* the loop of call *)
      intros c ts e r rep H. cbn [parse_call_loop] in H.
      cbn [read_call_loop].
      destruct ts as [|t rest]; [inversion H; subst; reflexivity|].
      destruct t; try (inversion H; subst; reflexivity).
      * (* an argument list *)
        assert (Hargs :
          forall rest0,
            match parse_arguments f rest0 with
            | Some (args, RPAR :: rest') =>
                parse_call_loop f (call c (Some args) RPAR) rest'
            | _ => None
            end = Some (e, r) ->
            and_then (read_arguments f rest0 (rep ++ reports c))
              (fun args rest' reported =>
                 match rest' with
                 | RPAR :: rest'' =>
                     read_call_loop f (call c (Some args) RPAR) rest''
                       (reported ++ over_limit too_many_arguments args)
                 | _ => Some (Failed "expect ')' after arguments" rest' reported)
                 end)
            = Some (Parsed e r (rep ++ reports e))).
        { intros rest0 H0.
          destruct (parse_arguments f rest0) as [[args rest']|] eqn:Ha;
            [|discriminate].
          rewrite (IHargs _ _ _ _ Ha). cbn [and_then].
          destruct rest' as [|t' rest']; [discriminate|].
          destruct t'; try discriminate H0.
          rewrite <- !app_assoc.
          change (reports c ++ flat_map reports args
                  ++ over_limit too_many_arguments args)
            with (reports (call c (Some args) RPAR)).
          now apply IHcl. }
        destruct rest as [|t rest]; [now apply Hargs|].
        destruct t; try (now apply Hargs).
        change (rep ++ reports c) with (rep ++ reports c).
        replace (rep ++ reports c)
          with (rep ++ reports (call c None RPAR))
          by (cbn [reports]; now rewrite app_nil_r).
        now apply IHcl.
      * (* a property *)
        destruct rest as [|t rest]; [inversion H; subst; reflexivity|].
        destruct t; try (inversion H; subst; reflexivity).
        change (reports c) with (reports (get c name)). now apply IHcl.
    + (* primary *)
      intros ts e r rep H. cbn [parse_primary] in H. cbn [read_primary].
      destruct ts as [|t rest]; [discriminate|].
      destruct t; try discriminate H;
        try (inversion H; subst; cbn [reports]; now rewrite app_nil_r).
      * (* super *)
        destruct rest as [|t rest]; [discriminate|].
        destruct t; try discriminate H.
        destruct rest as [|t rest]; [discriminate|].
        destruct t; try discriminate H.
        inversion H; subst. cbn [reports]. now rewrite app_nil_r.
      * (* a grouping *)
        destruct (parse_assignment f rest) as [[x rest']|] eqn:Hx;
          [|discriminate].
        rewrite (IHa _ _ _ _ Hx). cbn [and_then].
        destruct rest' as [|t' rest']; [discriminate|].
        destruct t'; try discriminate H. inversion H; subst. reflexivity.
    + (* arguments *)
      intros ts args r rep H. cbn [parse_arguments] in H.
      cbn [read_arguments].
      destruct (parse_assignment f ts) as [[x rest]|] eqn:Hx; [|discriminate].
      rewrite (IHa _ _ _ _ Hx). cbn [and_then].
      destruct rest as [|t rest];
        [inversion H; subst; cbn [flat_map]; now rewrite app_nil_r|].
      destruct t;
        try (inversion H; subst; cbn [flat_map]; now rewrite app_nil_r).
      destruct (parse_arguments f rest) as [[more rest']|] eqn:Hm;
        [|discriminate].
      inversion H; subst. rewrite (IHargs _ _ _ _ Hm). cbn [and_then flat_map].
      now rewrite <- app_assoc.
Qed.

Lemma read_expression_complete e rest rep :
  respects_precedence e = true -> may_follow 0 rest ->
  eventually (fun f => read_expression f (tokens_of e ++ rest) rep)
    (Parsed e rest (rep ++ reports e)).
Proof.
  intros Hwf Hfollow.
  assert (Hd : derives Rule.assignment (tokens_of e) e)
    by (apply respects_precedence_derives; [exact Hwf | simpl; lia]).
  destruct (parse_assignment_complete _ e rest Hd Hfollow) as [f0 H0].
  exists f0. intros f Hf. apply (proj1 (read_as_parse f)). now apply H0.
Qed.

(** ** Declarations and statements *)

Lemma read_expression_statement_complete e rest rep :
  respects_precedence e = true ->
  eventually
    (fun f => read_expression_statement f (tokens_of e ++ SEMICOLON :: rest) rep)
    (Parsed (Expression e) rest (rep ++ reports e)).
Proof.
  intros Hwf.
  destruct (read_expression_complete e (SEMICOLON :: rest) rep Hwf eq_refl)
    as [f1 Hrun1].
  exists f1. intros f Hf. unfold read_expression_statement.
  rewrite Hrun1 by lia. reflexivity.
Qed.

Lemma read_variable_declaration_complete name init rest rep :
  optional_ok respects_precedence init = true ->
  eventually
    (fun f =>
       read_variable_declaration f
         (IDENTIFIER name
            :: optional_tokens (fun e => EQUAL :: tokens_of e) init
            ++ SEMICOLON :: rest) rep)
    (Parsed (Var name init) rest (rep ++ optional_reports init)).
Proof.
  intros Hwf. destruct init as [e|]; cbn [optional_tokens optional_reports app].
  - destruct (read_expression_complete e (SEMICOLON :: rest) rep Hwf eq_refl)
      as [f1 Hrun1].
    exists f1. intros f Hf. cbn [read_variable_declaration].
    rewrite Hrun1 by lia. reflexivity.
  - exists 0. intros f _. cbn [read_variable_declaration].
    now rewrite app_nil_r.
Qed.

Lemma read_optional_expression_complete closing o t rest rep :
  optional_ok respects_precedence o = true ->
  closing t = true ->
  (forall t', (starts_primary t' || _unary_operator t')%bool = true ->
              closing t' = false) ->
  continues 0 t = false ->
  eventually
    (fun f =>
       read_optional_expression closing f
         (optional_tokens tokens_of o ++ t :: rest) rep)
    (Parsed o (t :: rest) (rep ++ optional_reports o)).
Proof.
  intros Hwf Ht Hstarts Hfollow.
  destruct o as [e|]; cbn [optional_tokens optional_reports app].
  - destruct (read_expression_complete e (t :: rest) rep Hwf Hfollow)
      as [f1 Hrun1].
    destruct (tokens_of_starts e Hwf) as (t' & ts' & Htok & Hstart & _).
    exists f1. intros f Hf. unfold read_optional_expression.
    rewrite Htok in *. cbn [app] in *.
    rewrite Hstarts by (destruct Hstart as [-> | ->]; auto using orb_true_r).
    rewrite Hrun1 by lia. reflexivity.
  - exists 0. intros f _. unfold read_optional_expression.
    now rewrite Ht, app_nil_r.
Qed.

Lemma is_SEMICOLON_starts t :
  (starts_primary t || _unary_operator t)%bool = true -> is_SEMICOLON t = false.
Proof. destruct t; try discriminate; reflexivity. Qed.

Lemma is_RPAR_starts t :
  (starts_primary t || _unary_operator t)%bool = true -> is_RPAR t = false.
Proof. destruct t; try discriminate; reflexivity. Qed.

Lemma read_initializer_expression f t ts rep :
  (starts_primary t || _unary_operator t)%bool = true ->
  read_initializer f (t :: ts) rep
  = and_then (read_expression_statement f (t :: ts) rep)
      (fun s rest' reported => Some (Parsed [s] rest' reported)).
Proof. destruct t; try discriminate; reflexivity. Qed.

Lemma read_statement_expression f t ts rep :
  (starts_primary t || _unary_operator t)%bool = true ->
  read_statement (S f) (t :: ts) rep
  = read_expression_statement f (t :: ts) rep.
Proof. destruct t; try discriminate; reflexivity. Qed.

Lemma read_declaration_statement ts rep res :
  match ts with
  | CLASS :: _ | FUN :: _ | VAR :: _ => False
  | _ => True
  end ->
  eventually (fun f => read_statement f ts rep) res ->
  eventually (fun f => read_declaration f ts rep) res.
Proof.
  intros Hts [f0 H0]. exists (S f0). intros [|f] Hf; [lia|].
  cbn [read_declaration].
  destruct ts as [|[] ts]; try contradiction; apply H0; lia.
Qed.

Lemma read_statement_block ts rep res :
  eventually (fun f => read_block f (LBRACE :: ts) rep) res ->
  eventually (fun f => read_statement f (LBRACE :: ts) rep) res.
Proof.
  intros [f0 H0]. exists (S f0). intros [|f] Hf; [lia|].
  cbn [read_statement]. apply H0. lia.
Qed.

Lemma read_initializer_complete init rest rep :
  is_initializer init = true -> well_formed init = true ->
  eventually (fun f => read_initializer f (stmt_tokens false init ++ rest) rep)
    (Parsed (match init with
             | empty_initializer => []
             | _ => [ast_of init]
             end) rest (rep ++ stmt_reports init)).
Proof.
  intros Hinit Hwf. destruct init; try discriminate Hinit;
    cbn [stmt_tokens ast_of stmt_reports well_formed app] in *.
  - (* a variable declaration *)
    rewrite <- app_assoc. cbn [app].
    destruct (read_variable_declaration_complete name initializer rest rep Hwf)
      as [f1 Hrun1].
    exists f1. intros f Hf. cbn [read_initializer]. rewrite Hrun1 by lia.
    reflexivity.
  - (* an expression statement *)
    rewrite <- app_assoc. cbn [app].
    destruct (read_expression_statement_complete e rest rep Hwf) as [f1 Hrun1].
    destruct (tokens_of_starts e Hwf) as (t & ts' & Htok & Hstart & _).
    exists f1. intros f Hf. rewrite Htok in *. cbn [app] in *.
    rewrite read_initializer_expression
      by (destruct Hstart as [-> | ->]; auto using orb_true_r).
    rewrite Hrun1 by lia. reflexivity.
  - (* no initializer *)
    exists 0. intros f _. cbn [read_initializer]. now rewrite app_nil_r.
Qed.

Lemma read_parameters_complete names rest :
  names <> [] ->
  read_parameters (parameter_tokens names ++ RPAR :: rest)
  = Some (names, RPAR :: rest).
Proof.
  induction names as [|name names IH]; [congruence|]. intros _.
  destruct names as [|name' names]; [reflexivity|].
  rewrite parameter_tokens_cons. cbn [app read_parameters].
  now rewrite IH by discriminate.
Qed.

(** What follows a declaration in a list is no [else]. *)
Lemma no_else_next (m : bool) decls tail :
  forallb (fun d => (if m then is_function d else is_declaration_node d)
                    && well_formed d) decls = true ->
  closing tail ->
  no_else (flat_map (stmt_tokens m) decls ++ tail).
Proof.
  intros Hall Htail. destruct decls as [|d decls].
  - destruct tail as [|[] tail]; try contradiction; exact I.
  - cbn [forallb] in Hall. split_andb. cbn [flat_map]. rewrite <- app_assoc.
    destruct m.
    + destruct d; try discriminate. exact I.
    + destruct (stmt_tokens_starts d) as (t & r & -> & _ & _ & Ht);
        [assumption|].
      destruct t; try exact I. congruence.
Qed.

Ltac kinds :=
  intros Hwf Hnear rest rep Hopen;
  cbn [is_declaration_node is_statement_node is_function is_block];
  cbn [stmt_tokens ast_of stmt_reports well_formed else_to_nearest_if
         open_if] in *;
  split; [|split; [|split]]; intros Hkind; try discriminate Hkind; clear Hkind.

Lemma reads_variable_declaration name init :
  reads_stmt (variable_declaration name init).
Proof.
  kinds. cbn [app]. rewrite <- app_assoc. cbn [app].
  destruct (read_variable_declaration_complete name init rest rep Hwf)
    as [f1 Hrun1].
  exists (S f1). intros [|f] Hf; [lia|]. cbn [read_declaration].
  apply Hrun1. lia.
Qed.

Lemma reads_expression_statement e : reads_stmt (expression_statement e).
Proof.
  intros Hwf Hnear rest rep Hopen.
  cbn [stmt_tokens ast_of stmt_reports well_formed] in *.
  rewrite <- app_assoc. cbn [app].
  destruct (tokens_of_starts e Hwf) as (t & ts' & Htok & Hstart & _).
  assert (Ht : (starts_primary t || _unary_operator t)%bool = true)
    by (destruct Hstart as [-> | ->]; auto using orb_true_r).
  assert (Hs : eventually
                 (fun f => read_statement f (tokens_of e ++ SEMICOLON :: rest) rep)
                 (Parsed (Expression e) rest (rep ++ reports e))).
  { destruct (read_expression_statement_complete e rest rep Hwf) as [f1 Hrun1].
    exists (S f1). intros [|f] Hf; [lia|]. rewrite Htok in *. cbn [app] in *.
    rewrite read_statement_expression by exact Ht. apply Hrun1. lia. }
  split; [|split; [|split]]; intros Hkind; try discriminate Hkind.
  - apply read_declaration_statement; [|exact Hs].
    rewrite Htok. cbn [app]. destruct t; try discriminate Ht; exact I.
  - exact Hs.
Qed.

Lemma reads_print_statement e : reads_stmt (print_statement e).
Proof.
  intros Hwf Hnear rest rep Hopen.
  cbn [stmt_tokens ast_of stmt_reports well_formed app] in *.
  rewrite <- app_assoc. cbn [app].
  assert (Hs : eventually
                 (fun f => read_statement f
                             (PRINT :: tokens_of e ++ SEMICOLON :: rest) rep)
                 (Parsed (Print e) rest (rep ++ reports e))).
  { destruct (read_expression_complete e (SEMICOLON :: rest) rep Hwf eq_refl)
      as [f1 Hrun1].
    exists (S f1). intros [|f] Hf; [lia|]. cbn [read_statement].
    rewrite Hrun1 by lia. reflexivity. }
  split; [|split; [|split]]; intros Hkind; try discriminate Hkind.
  - apply read_declaration_statement; [exact I | exact Hs].
  - exact Hs.
Qed.

Lemma reads_return_statement value : reads_stmt (return_statement value).
Proof.
  intros Hwf Hnear rest rep Hopen.
  cbn [stmt_tokens ast_of stmt_reports well_formed app] in *.
  rewrite <- app_assoc. cbn [app].
  assert (Hs : eventually
                 (fun f => read_statement f
                             (RETURN :: optional_tokens tokens_of value
                                ++ SEMICOLON :: rest) rep)
                 (Parsed (Return value) rest (rep ++ optional_reports value))).
  { destruct (read_optional_expression_complete is_SEMICOLON value SEMICOLON
                rest rep Hwf eq_refl is_SEMICOLON_starts eq_refl) as [f1 Hrun1].
    exists (S f1). intros [|f] Hf; [lia|]. cbn [read_statement].
    rewrite Hrun1 by lia. reflexivity. }
  split; [|split; [|split]]; intros Hkind; try discriminate Hkind.
  - apply read_declaration_statement; [exact I | exact Hs].
  - exact Hs.
Qed.

Lemma reads_while_statement c body :
  reads_stmt body -> reads_stmt (while_statement c body).
Proof.
  intros IH Hwf Hnear rest rep Hopen.
  cbn [stmt_tokens ast_of stmt_reports well_formed else_to_nearest_if open_if
         app] in *.
  split_andb. rewrite <- ?app_assoc. cbn [app].
  assert (Hs : eventually
                 (fun f => read_statement f
                             (WHILE :: LPAR :: tokens_of c
                                ++ RPAR :: stmt_tokens false body ++ rest) rep)
                 (Parsed (While c (ast_of body)) rest
                    (rep ++ reports c ++ stmt_reports body))).
  { destruct (read_expression_complete c
                (RPAR :: stmt_tokens false body ++ rest) rep
                ltac:(assumption) eq_refl) as [f1 Hrun1].
    destruct (IH ltac:(assumption) Hnear rest (rep ++ reports c) Hopen)
      as (_ & Hbody & _).
    destruct (Hbody ltac:(assumption)) as [f2 Hrun2].
    exists (S (f1 + f2)). intros [|f] Hf; [lia|]. cbn [read_statement].
    rewrite Hrun1 by lia. cbn [and_then]. rewrite Hrun2 by lia. cbn [and_then].
    now rewrite <- app_assoc. }
  split; [|split; [|split]]; intros Hkind; try discriminate Hkind.
  - apply read_declaration_statement; [exact I | exact Hs].
  - exact Hs.
Qed.

Lemma reads_if_statement c th :
  reads_stmt th -> reads_stmt (if_statement c th None).
Proof.
  intros IH Hwf Hnear rest rep Hopen.
  cbn [stmt_tokens ast_of stmt_reports well_formed else_to_nearest_if open_if
         app] in *.
  split_andb. rewrite !app_nil_r. rewrite <- ?app_assoc. cbn [app].
  assert (Hs : eventually
                 (fun f => read_statement f
                             (IF :: LPAR :: tokens_of c
                                ++ RPAR :: stmt_tokens false th ++ rest) rep)
                 (Parsed (If c (ast_of th) None) rest
                    (rep ++ reports c ++ stmt_reports th))).
  { destruct (read_expression_complete c
                (RPAR :: stmt_tokens false th ++ rest) rep
                ltac:(assumption) eq_refl) as [f1 Hrun1].
    destruct (IH ltac:(assumption) Hnear rest (rep ++ reports c)
                (fun _ => Hopen eq_refl)) as (_ & Hth & _).
    destruct (Hth ltac:(assumption)) as [f2 Hrun2].
    exists (S (f1 + f2)). intros [|f] Hf; [lia|]. cbn [read_statement].
    rewrite Hrun1 by lia. cbn [and_then]. rewrite Hrun2 by lia. cbn [and_then].
    rewrite <- app_assoc.
    specialize (Hopen eq_refl).
    destruct rest as [|[] rest]; try contradiction; reflexivity. }
  split; [|split; [|split]]; intros Hkind; try discriminate Hkind.
  - apply read_declaration_statement; [exact I | exact Hs].
  - exact Hs.
Qed.

Lemma reads_if_else_statement c th el :
  reads_stmt th -> reads_stmt el -> reads_stmt (if_statement c th (Some el)).
Proof.
  intros IHth IHel Hwf Hnear rest rep Hopen.
  cbn [stmt_tokens ast_of stmt_reports well_formed else_to_nearest_if open_if
         app] in *.
  split_andb.
  assert (Hs : eventually
                 (fun f => read_statement f
                             (IF :: LPAR :: tokens_of c
                                ++ RPAR :: stmt_tokens false th
                                ++ ELSE :: stmt_tokens false el ++ rest) rep)
                 (Parsed (If c (ast_of th) (Some (ast_of el))) rest
                    (rep ++ reports c ++ stmt_reports th ++ stmt_reports el))).
  { destruct (read_expression_complete c
                (RPAR :: stmt_tokens false th
                   ++ ELSE :: stmt_tokens false el ++ rest) rep
                ltac:(assumption) eq_refl) as [f1 Hrun1].
    assert (Hclosed : open_if th = false)
      by (destruct (open_if th); [discriminate | reflexivity]).
    destruct (IHth ltac:(assumption) ltac:(assumption)
                (ELSE :: stmt_tokens false el ++ rest) (rep ++ reports c)
                ltac:(rewrite Hclosed; discriminate)) as (_ & Hth & _).
    destruct (Hth ltac:(assumption)) as [f2 Hrun2].
    destruct (IHel ltac:(assumption) ltac:(assumption) rest
                ((rep ++ reports c) ++ stmt_reports th) Hopen)
      as (_ & Hel & _).
    destruct (Hel ltac:(assumption)) as [f3 Hrun3].
    exists (S (f1 + f2 + f3)). intros [|f] Hf; [lia|]. cbn [read_statement].
    rewrite Hrun1 by lia. cbn [and_then]. rewrite Hrun2 by lia. cbn [and_then].
    rewrite Hrun3 by lia. cbn [and_then].
    now rewrite <- !app_assoc. }
  rewrite <- !app_assoc. cbn [app]. rewrite <- !app_assoc.
  split; [|split; [|split]]; intros Hkind; try discriminate Hkind.
  - apply read_declaration_statement; [exact I | exact Hs].
  - exact Hs.
Qed.

Lemma reads_for_statement init cond incr body :
  reads_stmt body -> reads_stmt (for_statement init cond incr body).
Proof.
  intros IH Hwf Hnear rest rep Hopen.
  cbn [stmt_tokens ast_of stmt_reports well_formed else_to_nearest_if open_if
         app] in *.
  split_andb. rewrite <- ?app_assoc. cbn [app]. rewrite <- ?app_assoc.
  assert (Hs : eventually
                 (fun f => read_statement f
                             (FOR :: LPAR :: stmt_tokens false init
                                ++ optional_tokens tokens_of cond
                                ++ SEMICOLON :: optional_tokens tokens_of incr
                                ++ RPAR :: stmt_tokens false body ++ rest) rep)
                 (Parsed
                    (desugar_for
                       (match init with
                        | empty_initializer => []
                        | _ => [ast_of init]
                        end) cond incr (ast_of body)) rest
                    (rep ++ stmt_reports init ++ optional_reports cond
                       ++ optional_reports incr ++ stmt_reports body))).
  { destruct (read_initializer_complete init
                (optional_tokens tokens_of cond
                   ++ SEMICOLON :: optional_tokens tokens_of incr
                   ++ RPAR :: stmt_tokens false body ++ rest) rep
                ltac:(assumption) ltac:(assumption)) as [f1 Hrun1].
    destruct (read_optional_expression_complete is_SEMICOLON cond SEMICOLON
                (optional_tokens tokens_of incr
                   ++ RPAR :: stmt_tokens false body ++ rest)
                (rep ++ stmt_reports init)
                ltac:(assumption) eq_refl is_SEMICOLON_starts eq_refl)
      as [f2 Hrun2].
    destruct (read_optional_expression_complete is_RPAR incr RPAR
                (stmt_tokens false body ++ rest)
                ((rep ++ stmt_reports init) ++ optional_reports cond)
                ltac:(assumption) eq_refl is_RPAR_starts eq_refl)
      as [f3 Hrun3].
    destruct (IH ltac:(assumption) ltac:(assumption) rest
                (((rep ++ stmt_reports init) ++ optional_reports cond)
                   ++ optional_reports incr) Hopen) as (_ & Hbody & _).
    destruct (Hbody ltac:(assumption)) as [f4 Hrun4].
    exists (S (f1 + f2 + f3 + f4)). intros [|f] Hf; [lia|].
    cbn [read_statement].
    rewrite Hrun1 by lia. cbn [and_then]. rewrite Hrun2 by lia.
    cbn [and_then]. rewrite Hrun3 by lia. cbn [and_then].
    rewrite Hrun4 by lia. cbn [and_then].
    now rewrite <- !app_assoc. }
  split; [|split; [|split]]; intros Hkind; try discriminate Hkind.
  - apply read_declaration_statement; [exact I | exact Hs].
  - exact Hs.
Qed.

Lemma read_declarations_complete decls :
  Forall reads_stmt decls ->
  forallb (fun d => is_declaration_node d && well_formed d) decls = true ->
  forallb else_to_nearest_if decls = true ->
  forall tail rep,
    closing tail ->
    eventually
      (fun f =>
         read_declarations f (flat_map (stmt_tokens false) decls ++ tail) rep)
      (Parsed (map ast_of decls) tail (rep ++ flat_map stmt_reports decls)).
Proof.
  induction decls as [|d decls IHdecls]; intros Hall Hwf Hnear tail rep Htail.
  - exists 1. intros [|f] Hf; [lia|]. cbn [flat_map app map read_declarations].
    rewrite app_nil_r.
    destruct tail as [|[] tail]; try contradiction; reflexivity.
  - pose proof (Forall_inv Hall) as Hd. apply Forall_inv_tail in Hall.
    cbn [forallb] in Hwf, Hnear.
    apply andb_prop in Hwf. destruct Hwf as [Hwfd Hwf].
    apply andb_prop in Hnear. destruct Hnear as [Hneard Hnear].
    pose proof (no_else_next false decls tail Hwf Htail) as Hnext.
    apply andb_prop in Hwfd. destruct Hwfd as [Hdecl Hwfd].
    destruct (Hd Hwfd Hneard (flat_map (stmt_tokens false) decls ++ tail) rep
                (fun _ => Hnext)) as (Hread & _).
    destruct (Hread Hdecl) as [f1 Hrun1].
    destruct (IHdecls Hall Hwf Hnear tail (rep ++ stmt_reports d) Htail)
      as [f2 Hrun2].
    destruct (stmt_tokens_starts d Hwfd) as (t & r & Htok & _ & Ht & _).
    exists (S (f1 + f2)). intros [|f] Hf; [lia|].
    cbn [flat_map map]. rewrite <- !app_assoc.
    assert (Hstep :
      read_declarations (S f)
        (stmt_tokens false d ++ flat_map (stmt_tokens false) decls ++ tail) rep
      = and_then
          (read_declaration f
             (stmt_tokens false d ++ flat_map (stmt_tokens false) decls ++ tail)
             rep)
          (fun d rest reported =>
             and_then (read_declarations f rest reported)
               (fun decls rest' reported =>
                  Some (Parsed (d :: decls) rest' reported)))).
    { rewrite Htok. cbn [app read_declarations].
      destruct t; try reflexivity. congruence. }
    rewrite Hstep, Hrun1 by lia. cbn [and_then]. rewrite Hrun2 by lia.
    cbn [and_then]. now rewrite <- app_assoc.
Qed.

Lemma reads_block decls : Forall reads_stmt decls -> reads_stmt (block decls).
Proof.
  intros IH Hwf Hnear rest rep Hopen.
  cbn [stmt_tokens ast_of stmt_reports well_formed else_to_nearest_if open_if
         app] in *.
  rewrite <- ?app_assoc. cbn [app].
  assert (Hb : eventually
                 (fun f => read_block f
                             (LBRACE :: flat_map (stmt_tokens false) decls
                                ++ RBRACE :: rest) rep)
                 (Parsed (Block (map ast_of decls)) rest
                    (rep ++ flat_map stmt_reports decls))).
  { destruct (read_declarations_complete decls IH Hwf Hnear (RBRACE :: rest)
                rep I) as [f1 Hrun1].
    exists (S f1). intros [|f] Hf; [lia|]. cbn [read_block].
    rewrite Hrun1 by lia. reflexivity. }
  split; [|split; [|split]]; intros Hkind; try discriminate Hkind.
  - apply read_declaration_statement; [exact I|].
    now apply read_statement_block.
  - now apply read_statement_block.
  - exact Hb.
Qed.

Lemma read_function_complete name params body rest rep :
  reads_stmt body ->
  optional_ok nonempty params = true -> is_block body = true ->
  well_formed body = true -> else_to_nearest_if body = true ->
  eventually
    (fun f =>
       read_function f
         (IDENTIFIER name :: LPAR :: optional_tokens parameter_tokens params
            ++ RPAR :: stmt_tokens false body ++ rest) rep)
    (Parsed
       (Function name (match params with Some l => l | None => [] end)
          (ast_of body)) rest
       (rep ++ match params with
               | Some l => over_limit too_many_parameters l
               | None => []
               end ++ stmt_reports body)).
Proof.
  intros IH Hparams Hblock Hwf Hnear.
  assert (Hopen : open_if body = true -> no_else rest)
    by (rewrite (is_block_not_open body Hblock); discriminate).
  destruct params as [names|]; cbn [optional_tokens optional_ok app] in *.
  - destruct (IH Hwf Hnear rest
                (rep ++ over_limit too_many_parameters names) Hopen)
      as (_ & _ & _ & Hbody).
    destruct (Hbody Hblock) as [f1 Hrun1].
    assert (Hne : names <> []) by (destruct names; [discriminate | discriminate]).
    exists (S f1). intros [|f] Hf; [lia|].
    assert (Hstep :
      forall ts,
        read_function (S f)
          (IDENTIFIER name :: LPAR :: parameter_tokens names ++ RPAR :: ts) rep
        = and_then
            (read_block f ts (rep ++ over_limit too_many_parameters names))
            (fun body rest'' reported =>
               Some (Parsed (Function name names body) rest'' reported))).
    { intros ts. cbn [read_function].
      pose proof (read_parameters_complete names ts Hne) as Hp.
      destruct names as [|n names]; [congruence|].
      destruct names as [|n' names].
      - cbn [parameter_tokens map comma_separated app] in *.
        now rewrite Hp.
      - rewrite parameter_tokens_cons in *. cbn [app] in *.
        now rewrite Hp. }
    rewrite Hstep, Hrun1 by lia. cbn [and_then]. now rewrite <- app_assoc.
  - destruct (IH Hwf Hnear rest rep Hopen) as (_ & _ & _ & Hbody).
    destruct (Hbody Hblock) as [f1 Hrun1].
    exists (S f1). intros [|f] Hf; [lia|]. cbn [read_function].
    rewrite Hrun1 by lia. reflexivity.
Qed.

Lemma reads_function name params body :
  reads_stmt body -> reads_stmt (function name params body).
Proof.
  intros IH Hwf Hnear rest rep Hopen.
  cbn [stmt_tokens ast_of stmt_reports well_formed else_to_nearest_if open_if]
    in *.
  split_andb.
  pose proof (read_function_complete name params body rest rep IH
                ltac:(assumption) ltac:(assumption) ltac:(assumption) Hnear)
    as Hf.
  split; [|split; [|split]]; intros Hkind; try discriminate Hkind;
    cbn [app]; rewrite <- ?app_assoc; cbn [app].
  - destruct Hf as [f1 Hrun1]. exists (S f1). intros [|f] Hfuel; [lia|].
    cbn [read_declaration]. apply Hrun1. lia.
  - exact Hf.
Qed.

Lemma read_methods_complete methods :
  Forall reads_stmt methods ->
  forallb (fun m => is_function m && well_formed m) methods = true ->
  forallb else_to_nearest_if methods = true ->
  forall tail rep,
    closing tail ->
    eventually
      (fun f =>
         read_methods f (flat_map (stmt_tokens true) methods ++ tail) rep)
      (Parsed (map ast_of methods) tail (rep ++ flat_map stmt_reports methods)).
Proof.
  induction methods as [|m methods IHm]; intros Hall Hwf Hnear tail rep Htail.
  - exists 1. intros [|f] Hf; [lia|]. cbn [flat_map app map read_methods].
    rewrite app_nil_r.
    destruct tail as [|[] tail]; try contradiction; reflexivity.
  - pose proof (Forall_inv Hall) as Hd. apply Forall_inv_tail in Hall.
    cbn [forallb] in Hwf, Hnear.
    apply andb_prop in Hwf. destruct Hwf as [Hwfm Hwf].
    apply andb_prop in Hnear. destruct Hnear as [Hnearm Hnear].
    pose proof (no_else_next true methods tail Hwf Htail) as Hnext.
    apply andb_prop in Hwfm. destruct Hwfm as [Hfun Hwfm].
    destruct (Hd Hwfm Hnearm (flat_map (stmt_tokens true) methods ++ tail) rep
                (fun _ => Hnext)) as (_ & _ & Hread & _).
    destruct (Hread Hfun) as [f1 Hrun1].
    destruct (IHm Hall Hwf Hnear tail (rep ++ stmt_reports m) Htail)
      as [f2 Hrun2].
    exists (S (f1 + f2)). intros [|f] Hf; [lia|].
    cbn [flat_map map]. rewrite <- !app_assoc.
    assert (Hstep :
      read_methods (S f)
        (stmt_tokens true m ++ flat_map (stmt_tokens true) methods ++ tail) rep
      = and_then
          (read_function f
             (stmt_tokens true m ++ flat_map (stmt_tokens true) methods ++ tail)
             rep)
          (fun m rest reported =>
             and_then (read_methods f rest reported)
               (fun methods rest' reported =>
                  Some (Parsed (m :: methods) rest' reported)))).
    { destruct m; try discriminate Hfun. reflexivity. }
    rewrite Hstep, Hrun1 by lia. cbn [and_then]. rewrite Hrun2 by lia.
    cbn [and_then]. now rewrite <- app_assoc.
Qed.

Lemma reads_class_declaration name sup methods :
  Forall reads_stmt methods -> reads_stmt (class_declaration name sup methods).
Proof.
  intros IH Hwf Hnear rest rep Hopen.
  cbn [stmt_tokens ast_of stmt_reports well_formed else_to_nearest_if open_if]
    in *.
  split_andb.
  destruct (read_methods_complete methods IH ltac:(assumption) Hnear
              (RBRACE :: rest) rep I) as [f1 Hrun1].
  split; [|split; [|split]]; intros Hkind; try discriminate Hkind.
  exists (S f1). intros [|f] Hf; [lia|].
  destruct sup as [e|].
  - destruct e; try discriminate.
    cbn [optional_tokens tokens_of app]. rewrite <- ?app_assoc. cbn [app].
    cbn [read_declaration]. rewrite Hrun1 by lia. reflexivity.
  - cbn [optional_tokens app]. rewrite <- ?app_assoc. cbn [app].
    cbn [read_declaration]. rewrite Hrun1 by lia. reflexivity.
Qed.

Lemma reads_empty_initializer : reads_stmt empty_initializer.
Proof.
  intros Hwf Hnear rest rep Hopen.
  split; [|split; [|split]]; intros Hkind; discriminate Hkind.
Qed.

(** Reading the tokens of a tree gives the statement of the tree. *)
Lemma read_complete s : reads_stmt s.
Proof.
  induction s using stmt_ind';
    auto using reads_class_declaration, reads_function,
      reads_variable_declaration, reads_expression_statement,
      reads_for_statement, reads_empty_initializer, reads_if_statement,
      reads_if_else_statement, reads_print_statement, reads_return_statement,
      reads_while_statement, reads_block.
Qed.

(** ** Assignment targets, the arity limit and the [for] loop *)

(** C6. An assignment is read left side first: the tokens in front of the
    [=], an expression with tree [l], are read by the function of the level
    under assignment, which returns [l] and leaves the [=].  When [l] is a
    [variable] the whole is then read as an [assignment] node and when [l]
    is a [get] as a [set] node, with the value read after the [=].  For
    any other [l] the parser ends with the syntax error
    "invalid assignment target", and the tokens not consumed then start
    with the [=]. *)
Theorem assignment_target_is_converted_or_refused (lhs : list token)
    (l : expr) (rhs : list token) (rep : list report) :
  derives Rule.logic_or lhs l ->
  eventually (fun f => read_binary f 1 (lhs ++ EQUAL :: rhs) rep)
    (Parsed l (EQUAL :: rhs) (rep ++ reports l)) /\
  (forall v rest,
      derives Rule.assignment rhs v -> may_follow 0 rest ->
      (forall name,
          l = variable name ->
          eventually
            (fun f => read_assignment f (lhs ++ EQUAL :: rhs ++ rest) rep)
            (Parsed (assignment name v) rest (rep ++ reports v))) /\
      (forall obj name,
          l = get obj name ->
          eventually
            (fun f => read_assignment f (lhs ++ EQUAL :: rhs ++ rest) rep)
            (Parsed (set obj name v) rest
               (rep ++ reports obj ++ reports v)))) /\
  ((forall name, l <> variable name) ->
   (forall obj name, l <> get obj name) ->
   eventually (fun f => read_assignment f (lhs ++ EQUAL :: rhs) rep)
     (Failed "invalid assignment target" (EQUAL :: rhs) (rep ++ reports l))).
Proof.
  intros Hl.
  assert (Hleft : eventually
                    (fun f => read_binary f 1 (lhs ++ EQUAL :: rhs) rep)
                    (Parsed l (EQUAL :: rhs) (rep ++ reports l))).
  { destruct (parse_binary_complete 1 lhs l (EQUAL :: rhs) ltac:(lia) Hl
                eq_refl) as [f0 H0].
    exists f0. intros f Hf.
    apply (proj1 (proj2 (read_as_parse f))). now apply H0. }
  split; [exact Hleft|]. split.
  - intros v rest Hv Hfollow.
    assert (Hread :
      forall e,
        derives Rule.assignment (lhs ++ EQUAL :: rhs) e ->
        eventually
          (fun f => read_assignment f (lhs ++ EQUAL :: rhs ++ rest) rep)
          (Parsed e rest (rep ++ reports e))).
    { intros e He.
      destruct (parse_assignment_complete _ e rest He Hfollow) as [f0 H0].
      exists f0. intros f Hf.
      apply (proj1 (read_as_parse f)).
      specialize (H0 f Hf). rewrite <- app_assoc in H0. exact H0. }
    split.
    + intros name ->.
      destruct (proj1 derives_shape _ _ _ Hl) as (_ & _ & <-).
      apply (Hread (assignment name v)). now apply d_assignment.
    + intros obj name ->.
      destruct (derives_get_inv _ _ _ _ Hl) as (-> & Hobj).
      apply (Hread (set obj name v)).
      rewrite <- app_assoc. now apply d_set.
  - intros Hvariable Hget. destruct Hleft as [f0 H0].
    exists (S f0). intros [|f] Hf; [lia|]. cbn [read_assignment].
    rewrite H0 by lia. cbn [and_then].
    destruct l; try reflexivity;
      [exfalso; eapply Hget | exfalso; eapply Hvariable]; reflexivity.
Qed.

(** [(a) = 1]: a grouping is no assignment target. *)
Lemma assignment_target_is_converted_or_refused_witness :
  eventually
    (fun f =>
       read_assignment f ([LPAR; IDENTIFIER "a"; RPAR] ++ EQUAL :: [NUMBER "1"])
         [])
    (Failed "invalid assignment target" (EQUAL :: [NUMBER "1"])
       ([] ++ reports (grouping (variable "a")))).
Proof.
  apply (proj2 (proj2 (assignment_target_is_converted_or_refused
                         [LPAR; IDENTIFIER "a"; RPAR]
                         (grouping (variable "a")) [NUMBER "1"] []
                         (respects_precedence_derives
                            (grouping (variable "a")) eq_refl Rule.logic_or
                            ltac:(unfold prec; simpl; lia)))));
    discriminate.
Defined.

(** The three cases on texts: [a = 1] and [a.b = 1] are converted,
    [(a) = 1] is refused with the [=] and the value left; in a program the
    error is reported and the parser resumes after the next [;]. *)
Example assignment_targets :
  read_expression 50 [IDENTIFIER "a"; EQUAL; NUMBER "1"] []
  = Some (Parsed (assignment "a" (literal (lit_NUMBER "1"))) [] []) /\
  read_expression 50 [IDENTIFIER "a"; DOT; IDENTIFIER "b"; EQUAL; NUMBER "1"] []
  = Some (Parsed (set (variable "a") "b" (literal (lit_NUMBER "1"))) [] []) /\
  read_expression 50 [LPAR; IDENTIFIER "a"; RPAR; EQUAL; NUMBER "1"] []
  = Some (Failed "invalid assignment target" [EQUAL; NUMBER "1"] []) /\
  read_program 50
    [LPAR; IDENTIFIER "a"; RPAR; EQUAL; NUMBER "1"; SEMICOLON;
     PRINT; NUMBER "2"; SEMICOLON] []
  = Some ([Print (literal (lit_NUMBER "2"))],
          [syntax_error "invalid assignment target"]).
Proof. repeat split; vm_compute; reflexivity. Qed.



(** At the limit and over it: a call with 255 arguments is read without a
    report and a call with 256 with one, and so for the parameters of a
    function; both nodes hold the whole list. *)
Example arity_limit_at_255_and_256 :
  read_expression 300
    (IDENTIFIER "f" :: LPAR
       :: comma_separated (repeat [NUMBER "1"] 255) ++ [RPAR]) []
  = Some (Parsed
            (call (variable "f")
               (Some (repeat (literal (lit_NUMBER "1")) 255)) RPAR) [] []) /\
  read_expression 300
    (IDENTIFIER "f" :: LPAR
       :: comma_separated (repeat [NUMBER "1"] 256) ++ [RPAR; SEMICOLON]) []
  = Some (Parsed
            (call (variable "f")
               (Some (repeat (literal (lit_NUMBER "1")) 256)) RPAR)
            [SEMICOLON] [too_many_arguments]) /\
  read_declaration 20
    (FUN :: IDENTIFIER "g" :: LPAR
       :: parameter_tokens (repeat "a"%string 255) ++ [RPAR; LBRACE; RBRACE]) []
  = Some (Parsed (Function "g" (repeat "a"%string 255) (Block [])) [] []) /\
  read_declaration 20
    (FUN :: IDENTIFIER "g" :: LPAR
       :: parameter_tokens (repeat "a"%string 256) ++ [RPAR; LBRACE; RBRACE]) []
  = Some (Parsed (Function "g" (repeat "a"%string 256) (Block [])) []
            [too_many_parameters]).
Proof. repeat split; vm_compute; reflexivity. Qed.

Lemma statement_node_is_declaration_node s :
  is_statement_node s = true -> is_declaration_node s = true.
Proof. destruct s; try discriminate; reflexivity. Qed.

(** The desugared text has a tree of its own, which stands for the same
    statement as the [for] and reports the same errors, the increment's
    after the body's. *)
Lemma desugared_tree_spec init cond incr body :
  well_formed (for_statement init cond incr body) = true ->
  else_to_nearest_if (for_statement init cond incr body) = true ->
  well_formed (desugared_tree init cond incr body) = true /\
  else_to_nearest_if (desugared_tree init cond incr body) = true /\
  stmt_tokens false (desugared_tree init cond incr body)
  = desugared_tokens init cond incr body /\
  ast_of (desugared_tree init cond incr body)
  = ast_of (for_statement init cond incr body) /\
  Permutation (stmt_reports (for_statement init cond incr body))
    (stmt_reports (desugared_tree init cond incr body)).
Proof.
  intros Hwf Hnear. cbn [well_formed else_to_nearest_if] in Hwf, Hnear.
  split_andb.
  pose proof (statement_node_is_declaration_node body ltac:(assumption))
    as Hdecl.
  assert (Hcond : respects_precedence
                    (match cond with
                     | Some c => c
                     | None => literal const_true
                     end) = true)
    by (destruct cond; [assumption | reflexivity]).
  assert (Hloop :
    well_formed
      (while_statement
         (match cond with Some c => c | None => literal const_true end)
         (block (body :: match incr with
                         | Some e => [expression_statement e]
                         | None => []
                         end))) = true).
  { cbn [well_formed is_statement_node forallb]. rewrite Hcond, Hdecl.
    destruct incr as [e|]; cbn [forallb well_formed is_declaration_node andb];
      split_andb; auto. }
  assert (Hloop_near :
    else_to_nearest_if
      (while_statement
         (match cond with Some c => c | None => literal const_true end)
         (block (body :: match incr with
                         | Some e => [expression_statement e]
                         | None => []
                         end))) = true).
  { cbn [else_to_nearest_if forallb].
    destruct incr as [e|]; cbn [forallb else_to_nearest_if]; split_andb; auto. }
  assert (Hloop_tokens :
    stmt_tokens false
      (while_statement
         (match cond with Some c => c | None => literal const_true end)
         (block (body :: match incr with
                         | Some e => [expression_statement e]
                         | None => []
                         end)))
    = WHILE :: LPAR
        :: match cond with
           | Some c => tokens_of c
           | None => [TRUE]
           end
        ++ RPAR :: LBRACE
        :: stmt_tokens false body
        ++ match incr with
           | Some e => tokens_of e ++ [SEMICOLON]
           | None => []
           end ++ [RBRACE]).
  { cbn [stmt_tokens flat_map].
    destruct cond, incr; cbn [flat_map stmt_tokens tokens_of app];
      rewrite ?app_nil_r; rewrite <- ?app_assoc; reflexivity. }
  assert (Hloop_reports :
    stmt_reports
      (while_statement
         (match cond with Some c => c | None => literal const_true end)
         (block (body :: match incr with
                         | Some e => [expression_statement e]
                         | None => []
                         end)))
    = optional_reports cond ++ stmt_reports body ++ optional_reports incr).
  { cbn [stmt_reports flat_map].
    destruct cond, incr;
      cbn [flat_map stmt_reports optional_reports reports app];
      rewrite ?app_nil_r; reflexivity. }
  unfold desugared_tree, desugared_tokens.
  set (loop := while_statement _ _) in *.
  assert (Hperm : forall a,
    Permutation
      (a ++ optional_reports cond ++ optional_reports incr ++ stmt_reports body)
      (a ++ optional_reports cond ++ stmt_reports body ++ optional_reports incr)).
  { intros a. do 2 apply Permutation_app_head. apply Permutation_app_comm. }
  destruct init; try discriminate;
    cbn [well_formed else_to_nearest_if stmt_tokens ast_of stmt_reports app
           forallb flat_map map is_declaration_node] in *;
    rewrite ?Hloop, ?Hloop_near, ?Hloop_tokens, ?Hloop_reports, ?app_nil_r;
    repeat split; split_andb; auto;
    try (repeat first [rewrite <- app_assoc | progress cbn [app]]; reflexivity);
    try (subst loop; cbn [ast_of map]; destruct incr; reflexivity);
    try apply Hperm; try apply (Hperm []).
Qed.



(** That statement and its desugared text, read: one tree. *)
Example for_statement_and_desugared_text :
  read_statement 50
    [FOR; LPAR; VAR; IDENTIFIER "i"; EQUAL; NUMBER "0"; SEMICOLON;
     IDENTIFIER "i"; LESSTHAN; NUMBER "3"; SEMICOLON;
     IDENTIFIER "i"; EQUAL; IDENTIFIER "i"; PLUS; NUMBER "1"; RPAR;
     PRINT; IDENTIFIER "i"; SEMICOLON] []
  = Some (Parsed
            (Block
               [Var "i" (Some (literal (lit_NUMBER "0")));
                While (binary (variable "i") LESSTHAN (literal (lit_NUMBER "3")))
                  (Block
                     [Print (variable "i");
                      Expression
                        (assignment "i"
                           (binary (variable "i") PLUS
                              (literal (lit_NUMBER "1"))))])]) [] []) /\
  read_statement 50
    [LBRACE; VAR; IDENTIFIER "i"; EQUAL; NUMBER "0"; SEMICOLON;
     WHILE; LPAR; IDENTIFIER "i"; LESSTHAN; NUMBER "3"; RPAR;
     LBRACE; PRINT; IDENTIFIER "i"; SEMICOLON;
     IDENTIFIER "i"; EQUAL; IDENTIFIER "i"; PLUS; NUMBER "1";
     SEMICOLON; RBRACE; RBRACE] []
  = read_statement 50
      [FOR; LPAR; VAR; IDENTIFIER "i"; EQUAL; NUMBER "0"; SEMICOLON;
       IDENTIFIER "i"; LESSTHAN; NUMBER "3"; SEMICOLON;
       IDENTIFIER "i"; EQUAL; IDENTIFIER "i"; PLUS; NUMBER "1"; RPAR;
       PRINT; IDENTIFIER "i"; SEMICOLON] [] /\
  read_statement 50
    [FOR; LPAR; SEMICOLON; SEMICOLON; RPAR; PRINT; NUMBER "1"; SEMICOLON] []
  = Some (Parsed
            (Block
               [While (literal const_true)
                  (Block [Print (literal (lit_NUMBER "1"))])]) [] []).
Proof. repeat split; vm_compute; reflexivity. Qed.

End SyntaxFacts.
